(** * concurrency-handler: a shallow embedding of lib/concurrency-handler.js

    The handler keeps, per category, a FIFO queue of requested calls, a
    maximum amount and the amount currently consumed.  [next] runs requests
    off the head of a queue while they fit, [queue] submits a request and
    [release] gives its amount back.

    Modelling choices.
    - The module-level objects [queues], [max], [consumed], [defaults] and
      [categoryRunCount] are JS objects used as maps keyed by the category
      string: they are [gmap string _].  Category names are assumed not to be
      names inherited from [Object.prototype].
    - Amounts, maxima and consumed amounts are JS numbers, that is binary64
      floating point.  The model uses integers ([Z]): it is the handler for
      amounts that are integers and so small that the sums of lines 116,
      129 and 340 are exact ([exact] below).  What these lines do on other
      numbers is in the module [Doubles].
    - A [config] object built by [queue] has an identity (it is found in the
      queue with [indexOf]): the requests live in a store indexed by [rid].
      Arrays are shared by reference, so they live in a store indexed by
      [loc].
    - Callbacks are user code that can call back into the handler before
      returning.  A user function is a list of [operation]s, looked up in a
      table [code]; every function of the handler takes fuel, and [None]
      means that the fuel ran out.
    - [setMax], [onDrain] and [setCategoryDefaults] take the category as an
      optional first argument (lines 178-181, 216-219, 263-266): a call
      without it has [None] for the category.  The amount of [setMax] is an
      integer and the defaults of [setCategoryDefaults] are an object, so
      that these two are never taken for the one-argument form; the
      callback of [onDrain] is any value, and [onDrain] shifts its
      arguments as the code does.
    - A [throw] leaves the state as it is at that point and unwinds to the
      caller of the public operation: an [outcome] is returned next to the
      state. *)

From Stdlib Require Import ZArith Bool Lia.
From Stdlib Require PrimFloat.
From stdpp Require Import base option list gmap strings fin_maps sorting.

Open Scope Z_scope.

(** ** Values *)

(** Identities of arrays, of requests and of user functions. *)
Abbreviation loc := nat (only parsing).
Abbreviation rid := nat (only parsing).
Abbreviation fid := nat (only parsing).

Inductive value :=
| VUndefined
| VNull
| VBool (b : bool)
| VNum (n : Z)
| VStr (s : string)
| VObject (o : nat)
| VNewObject (r : rid)
| VArray (a : loc)
| VFunction (f : fid)
| VRelease (r : rid).

(** [VNewObject r] is the object literal [{}] that [queue] creates as the
    context of request [r]; [VRelease r] is the closure [config.release] of
    request [r]. *)

Definition truthy (v : value) : bool :=
  match v with
  | VUndefined | VNull => false
  | VBool b => b
  | VNum n => negb (n =? 0)
  | VStr s => negb (String.eqb s "")
  | _ => true
  end.

(** [!v] *)
Definition not_ (v : value) : value := VBool (negb (truthy v)).

(** [v instanceof Object] *)
Definition instanceofObject (v : value) : bool :=
  match v with
  | VObject _ | VNewObject _ | VArray _ | VFunction _ | VRelease _ => true
  | _ => false
  end.

(** [v instanceof Function], also ['function' === typeof v] *)
Definition instanceofFunction (v : value) : bool :=
  match v with
  | VFunction _ | VRelease _ => true
  | _ => false
  end.

(** [a || b] *)
Definition or_ (a b : value) : value := if truthy a then a else b.

Inductive error :=
| InvalidAmount (amount : Z)
| RuntimeError (category : string) (amount maximum : Z)
| ExpectedConfiguration
| RequiresCallback
| TypeError.

Inductive outcome :=
| Normal
| Throw (e : error).

(** ** The objects of the handler *)

Module Defaults.
Record t := mk {
  amount : Z;
  curryRelease : bool;
  debug : bool;
  arguments : option loc;
  unshift : bool;
  onDrain : value;
  context : value;
}.

(** The literal of lines 78-85; [context] is not part of it and reads as
    [undefined]. *)
Definition initial : t :=
  mk 1 true false None false VNull VUndefined.
End Defaults.

(** The argument of [setCategoryDefaults]: the attributes it has. *)
Module NewDefaults.
Record t := mk {
  amount : option Z;
  curryRelease : option bool;
  debug : option bool;
  arguments : option (option loc);
  unshift : option bool;
  onDrain : option value;
  context : option value;
}.
End NewDefaults.

(** The object literal passed to [queue]; [None] in the last four fields
    means that [hasOwnProperty] is false. *)
Module ConfigIn.
Record t := mk {
  callback : value;
  context : value;
  arguments : value;
  category : option string;
  curryRelease : option bool;
  amount : option Z;
  debug : option bool;
  unshift : option bool;
}.

Definition empty : t :=
  mk VUndefined VUndefined VUndefined None None None None None.
End ConfigIn.

(** The values that are not objects. *)
Inductive primitive :=
| PUndefined
| PNull
| PBool (b : bool)
| PNum (n : Z)
| PStr (s : string).

Definition primitive_value (p : primitive) : value :=
  match p with
  | PUndefined => VUndefined
  | PNull => VNull
  | PBool b => VBool b
  | PNum n => VNum n
  | PStr s => VStr s
  end.

(** What [queue] may receive: an object literal, or a value that is not an
    object.  Reading an attribute of a boolean, a number or a string gives
    [undefined], and none has one of the attributes of a configuration as
    its own; reading one of [undefined] or [null] is a TypeError.  Other
    objects, functions among them, are not arguments of the model: what
    reading [arguments] or calling [hasOwnProperty] does on them (lines 304
    and 305) depends on the object. *)
Inductive configArg :=
| Literal (c : ConfigIn.t)
| Other (p : primitive).

(** The internal [config] object of [queue].  The last six fields exist only
    in debug mode; dates are readings of the clock. *)
Module Config.
Record t := mk {
  category : string;
  callback : value;
  context : value;
  arguments : loc;
  curryRelease : bool;
  amount : Z;
  debug : bool;
  unshift : bool;
  inQueue : bool;
  released : bool;
  started : option nat;
  running : bool;
  completed : option nat;
  queued : option nat;
  globalRunIndex : option nat;
  categoryRunIndex : option nat;
}.

Definition set_inQueue (b : bool) (c : t) : t :=
  mk (category c) (callback c) (context c) (arguments c) (curryRelease c)
     (amount c) (debug c) (unshift c) b (released c) (started c) (running c)
     (completed c) (queued c) (globalRunIndex c) (categoryRunIndex c).

Definition set_released (b : bool) (c : t) : t :=
  mk (category c) (callback c) (context c) (arguments c) (curryRelease c)
     (amount c) (debug c) (unshift c) (inQueue c) b (started c) (running c)
     (completed c) (queued c) (globalRunIndex c) (categoryRunIndex c).

(** Lines 139-142. *)
Definition set_started (now g k : nat) (c : t) : t :=
  mk (category c) (callback c) (context c) (arguments c) (curryRelease c)
     (amount c) (debug c) (unshift c) (inQueue c) (released c) (Some now) true
     (completed c) (queued c) (Some g) (Some k).

(** Lines 323-324. *)
Definition set_completed (now : nat) (c : t) : t :=
  mk (category c) (callback c) (context c) (arguments c) (curryRelease c)
     (amount c) (debug c) (unshift c) (inQueue c) (released c) (started c) false
     (Some now) (queued c) (globalRunIndex c) (categoryRunIndex c).
End Config.

(** A request: the [config] object and [config.release.debug], the copy made
    by [duplicateDebugData]. *)
Record Request := {
  config : Config.t;
  release_debug : option Config.t;
}.

Inductive event :=
| Invoked (r : rid) (fn this : value) (args : list value)
| Drained (category : string) (fn : value).

Record State := {
  globalRunCount : nat;
  categoryRunCount : gmap string nat;
  queues : gmap string (list rid);
  max : gmap string Z;
  consumed : gmap string Z;
  defaultCategory : option string;
  defaults : gmap string Defaults.t;
  requests : list Request;
  arrays : list (list value);
  clock : nat;
  events : list event;
}.

Definition initial : State :=
  {| globalRunCount := 0; categoryRunCount := ∅; queues := ∅; max := ∅;
     consumed := ∅; defaultCategory := None; defaults := ∅;
     requests := []; arrays := []; clock := 0; events := [] |}.

(** Reads.  Every read in the source follows [createCategory] for that
    category, so the value for an absent key is never observed; it is the
    one [createCategory] stores. *)
Definition queueOf (st : State) (c : string) : list rid :=
  default [] (queues st !! c).
Definition maxOf (st : State) (c : string) : Z :=
  default 1 (max st !! c).
Definition consumedOf (st : State) (c : string) : Z :=
  default 0 (consumed st !! c).
Definition defaultsOf (st : State) (c : string) : Defaults.t :=
  default Defaults.initial (defaults st !! c).
Definition runCountOf (st : State) (c : string) : nat :=
  default 0%nat (categoryRunCount st !! c).
Definition arrayOf (st : State) (a : loc) : list value :=
  default [] (arrays st !! a).

(** Writes. *)
Definition set_queue (c : string) (q : list rid) (st : State) : State :=
  {| globalRunCount := globalRunCount st;
     categoryRunCount := categoryRunCount st;
     queues := <[c := q]> (queues st); max := max st; consumed := consumed st;
     defaultCategory := defaultCategory st; defaults := defaults st;
     requests := requests st; arrays := arrays st; clock := clock st;
     events := events st |}.

Definition set_max (c : string) (n : Z) (st : State) : State :=
  {| globalRunCount := globalRunCount st;
     categoryRunCount := categoryRunCount st;
     queues := queues st; max := <[c := n]> (max st); consumed := consumed st;
     defaultCategory := defaultCategory st; defaults := defaults st;
     requests := requests st; arrays := arrays st; clock := clock st;
     events := events st |}.

Definition set_consumed (c : string) (n : Z) (st : State) : State :=
  {| globalRunCount := globalRunCount st;
     categoryRunCount := categoryRunCount st;
     queues := queues st; max := max st; consumed := <[c := n]> (consumed st);
     defaultCategory := defaultCategory st; defaults := defaults st;
     requests := requests st; arrays := arrays st; clock := clock st;
     events := events st |}.

Definition set_defaultCategory (c : string) (st : State) : State :=
  {| globalRunCount := globalRunCount st;
     categoryRunCount := categoryRunCount st;
     queues := queues st; max := max st; consumed := consumed st;
     defaultCategory := Some c; defaults := defaults st;
     requests := requests st; arrays := arrays st; clock := clock st;
     events := events st |}.

Definition set_defaults (c : string) (d : Defaults.t) (st : State) : State :=
  {| globalRunCount := globalRunCount st;
     categoryRunCount := categoryRunCount st;
     queues := queues st; max := max st; consumed := consumed st;
     defaultCategory := defaultCategory st; defaults := <[c := d]> (defaults st);
     requests := requests st; arrays := arrays st; clock := clock st;
     events := events st |}.

Definition set_requests (l : list Request) (st : State) : State :=
  {| globalRunCount := globalRunCount st;
     categoryRunCount := categoryRunCount st;
     queues := queues st; max := max st; consumed := consumed st;
     defaultCategory := defaultCategory st; defaults := defaults st;
     requests := l; arrays := arrays st; clock := clock st;
     events := events st |}.

Definition set_arrays (l : list (list value)) (st : State) : State :=
  {| globalRunCount := globalRunCount st;
     categoryRunCount := categoryRunCount st;
     queues := queues st; max := max st; consumed := consumed st;
     defaultCategory := defaultCategory st; defaults := defaults st;
     requests := requests st; arrays := l; clock := clock st;
     events := events st |}.

Definition set_clock (n : nat) (st : State) : State :=
  {| globalRunCount := globalRunCount st;
     categoryRunCount := categoryRunCount st;
     queues := queues st; max := max st; consumed := consumed st;
     defaultCategory := defaultCategory st; defaults := defaults st;
     requests := requests st; arrays := arrays st; clock := n;
     events := events st |}.

Definition log (e : event) (st : State) : State :=
  {| globalRunCount := globalRunCount st;
     categoryRunCount := categoryRunCount st;
     queues := queues st; max := max st; consumed := consumed st;
     defaultCategory := defaultCategory st; defaults := defaults st;
     requests := requests st; arrays := arrays st; clock := clock st;
     events := events st ++ [e] |}.

(** Lines 147-148. *)
Definition count_run (c : string) (st : State) : State :=
  {| globalRunCount := S (globalRunCount st);
     categoryRunCount := <[c := S (runCountOf st c)]> (categoryRunCount st);
     queues := queues st; max := max st; consumed := consumed st;
     defaultCategory := defaultCategory st; defaults := defaults st;
     requests := requests st; arrays := arrays st; clock := clock st;
     events := events st |}.

(** Lines 74-85: the five stores get their entry for a new category. *)
Definition initCategory (c : string) (st : State) : State :=
  {| globalRunCount := globalRunCount st;
     categoryRunCount := <[c := 0%nat]> (categoryRunCount st);
     queues := <[c := []]> (queues st); max := <[c := 1]> (max st);
     consumed := <[c := 0]> (consumed st);
     defaultCategory := defaultCategory st;
     defaults := <[c := Defaults.initial]> (defaults st);
     requests := requests st; arrays := arrays st; clock := clock st;
     events := events st |}.

(** An assignment to a field of the [config] object [r]. *)
Definition update_config (r : rid) (f : Config.t → Config.t) (st : State) : State :=
  match requests st !! r with
  | Some q =>
      set_requests
        (<[r := {| config := f (config q); release_debug := release_debug q |}]>
           (requests st)) st
  | None => st
  end.

(** [duplicateDebugData] (lines 160-170): [config.release.debug] becomes a
    new object holding every attribute of [config] but [release].  The copy
    is attribute by attribute: [arguments] in the copy is the same array. *)
Definition duplicateDebugData (r : rid) (st : State) : State :=
  match requests st !! r with
  | Some q =>
      set_requests
        (<[r := {| config := config q; release_debug := Some (config q) |}]>
           (requests st)) st
  | None => st
  end.

(** ** createCategory (lines 56-96) *)

Definition createCategory (category : option string) (st : State) : string * State :=
  let st :=
    match category, defaultCategory st with
    | None, None => set_defaultCategory "" st
    | _, _ => st
    end in
  let category :=
    match category with
    | None => default "" (defaultCategory st)
    | Some c => c
    end in
  let st :=
    match defaults st !! category with
    | None => initCategory category st
    | Some _ => st
    end in
  let st :=
    match defaultCategory st with
    | None => set_defaultCategory category st
    | Some _ => st
    end in
  (category, st).

(** ** The parts of [next], [release] and [queue] between two calls *)

(** [queues[ category ].indexOf( config )]; [None] is -1. *)
Fixpoint indexOf (l : list rid) (r : rid) : option nat :=
  match l with
  | [] => None
  | x :: l' => if decide (x = r) then Some 0%nat else S <$> indexOf l' r
  end.

(** [args.unshift( nextItem.release )]: the array itself is changed. *)
Definition unshift_array (a : loc) (v : value) (st : State) : State :=
  set_arrays (<[a := v :: arrayOf st a]> (arrays st)) st.

(** Lines 124-148 of [next]: the head [r] of the queue, whose [config] is
    [nextItem], leaves the queue and starts to consume its amount. *)
Definition commit (category : string) (r : rid) (nextItem : Config.t) (st : State) : State :=
  let st := set_queue category (tail (queueOf st category)) st in
  let st := update_config r (Config.set_inQueue false) st in
  let st := set_consumed category (consumedOf st category + Config.amount nextItem) st in
  let st :=
    if Config.curryRelease nextItem
    then unshift_array (Config.arguments nextItem) (VRelease r) st
    else st in
  let st :=
    if Config.debug nextItem
    then duplicateDebugData r
           (update_config r
              (Config.set_started (clock st) (globalRunCount st) (runCountOf st category))
              st)
    else st in
  count_run category st.

(** Lines 320-352 of [config.release], after the test of [config.released]
    and before the call of [next]. *)
Definition release_update (r : rid) (cfg : Config.t) (st : State) : State :=
  let category := Config.category cfg in
  let st :=
    if Config.debug cfg
    then update_config r (Config.set_completed (clock st)) st
    else st in
  let st :=
    if Config.inQueue cfg
    then match indexOf (queueOf st category) r with
         | Some index => set_queue category (delete index (queueOf st category)) st
         | None => st
         end
    else set_consumed category (consumedOf st category - Config.amount cfg) st in
  let st := update_config r (Config.set_released true) st in
  if Config.debug cfg then duplicateDebugData r st else st.

(** Lines 295-382 of [queue]: the [config] object is built from [configIn]
    and the defaults of its category, and put on the queue.  The new request
    is [length (requests st)]. *)
Definition enqueue (configIn : ConfigIn.t) (st : State) : string * State :=
  let '(category, st) := createCategory (ConfigIn.category configIn) st in
  let categoryDefaults := defaultsOf st category in
  let r := length (requests st) in
  let context :=
    or_ (or_ (ConfigIn.context configIn) (Defaults.context categoryDefaults))
        (VNewObject r) in
  let '(arguments, st) :=
    match ConfigIn.arguments configIn with
    | VArray a => (a, st)
    | _ =>
        match Defaults.arguments categoryDefaults with
        | Some a => (a, st)
        | None => (length (arrays st), set_arrays (arrays st ++ [[]]) st)
        end
    end in
  let debug :=
    default (Defaults.debug categoryDefaults) (ConfigIn.debug configIn) in
  let unshift :=
    default (Defaults.unshift categoryDefaults) (ConfigIn.unshift configIn) in
  let cfg :=
    Config.mk category (ConfigIn.callback configIn) context arguments
      (default (Defaults.curryRelease categoryDefaults) (ConfigIn.curryRelease configIn))
      (default (Defaults.amount categoryDefaults) (ConfigIn.amount configIn))
      debug unshift true false
      None false None (if debug then Some (clock st) else None) None None in
  let st :=
    set_requests
      (requests st ++
         [{| config := cfg; release_debug := if debug then Some cfg else None |}])
      st in
  let st :=
    if unshift
    then set_queue category (r :: queueOf st category) st
    else set_queue category (queueOf st category ++ [r]) st in
  (category, st).

(** The two sanity checks of [queue] (lines 288-293).  [!] binds tighter than
    [instanceof]: the tests are [(!configIn) instanceof Object] and
    [(!configIn.callback) instanceof Function].  Reading [.callback] of
    [undefined] or [null] is a TypeError of the runtime. *)
Definition arg_value (a : configArg) : value :=
  match a with
  | Literal _ => VObject 0
  | Other p => primitive_value p
  end.

Definition arg_fields (a : configArg) : ConfigIn.t :=
  match a with
  | Literal c => c
  | Other _ => ConfigIn.empty
  end.

Definition arg_callback (a : configArg) : option value :=
  match a with
  | Literal c => Some (ConfigIn.callback c)
  | Other PUndefined | Other PNull => None
  | Other _ => Some VUndefined
  end.

Definition sanity_checks (a : configArg) : outcome :=
  if instanceofObject (not_ (arg_value a)) then Throw ExpectedConfiguration
  else
    match arg_callback a with
    | None => Throw TypeError
    | Some cb =>
        if instanceofFunction (not_ cb) then Throw RequiresCallback else Normal
    end.

(** ** The accessors and setters without a sweep *)

Definition getMax (category : option string) (st : State) : Z * State :=
  let '(category, st) := createCategory category st in
  (maxOf st category, st).

Definition getRunning (category : option string) (st : State) : Z * State :=
  let '(category, st) := createCategory category st in
  (consumedOf st category, st).

Definition getFree (category : option string) (st : State) : Z * State :=
  let '(category, st) := createCategory category st in
  (maxOf st category - consumedOf st category, st).

Definition set_onDrain (fn : value) (d : Defaults.t) : Defaults.t :=
  Defaults.mk (Defaults.amount d) (Defaults.curryRelease d) (Defaults.debug d)
    (Defaults.arguments d) (Defaults.unshift d) fn (Defaults.context d).

(** Lines 216-219: a call without a callback has its callback as the first
    argument.  A category that is given where the callback is left out is
    taken for the callback, as the string it is. *)
Definition onDrain_arguments (category : option string) (callback : value)
    : option string * value :=
  match callback with
  | VUndefined =>
      (None, match category with Some c => VStr c | None => VUndefined end)
  | _ => (category, callback)
  end.

Definition onDrain (category : option string) (callback : value) (st : State) : State :=
  let '(category, callback) := onDrain_arguments category callback in
  let '(category, st) := createCategory category st in
  set_defaults category (set_onDrain callback (defaultsOf st category)) st.

Definition setDefaultCategory (category : option string) (st : State) : State :=
  let '(category, st) := createCategory category st in
  set_defaultCategory category st.

(** Lines 273-275: every attribute of [newDefaults] is copied. *)
Definition merge (n : NewDefaults.t) (d : Defaults.t) : Defaults.t :=
  Defaults.mk
    (default (Defaults.amount d) (NewDefaults.amount n))
    (default (Defaults.curryRelease d) (NewDefaults.curryRelease n))
    (default (Defaults.debug d) (NewDefaults.debug n))
    (default (Defaults.arguments d) (NewDefaults.arguments n))
    (default (Defaults.unshift d) (NewDefaults.unshift n))
    (default (Defaults.onDrain d) (NewDefaults.onDrain n))
    (default (Defaults.context d) (NewDefaults.context n)).

Definition setCategoryDefaults (category : option string) (newDefaults : NewDefaults.t)
    (st : State) : State :=
  let '(category, st) := createCategory category st in
  set_defaults category (merge newDefaults (defaultsOf st category)) st.

(** ** What user code does *)

(** The calls a caller of the library, or a callback it passed, can make.
    [Call v] invokes a function value it holds, such as a release method;
    [CallArgument i] invokes the i-th argument it was called with.
    [NewArray], [Tick] and [UnshiftDebugArguments r v] are the caller's own
    doings: an array literal, time passing, and
    [release.debug.arguments.unshift( v )] on the release method of [r]. *)
Inductive operation :=
| SetMax (category : option string) (amount : Z)
| GetMax (category : option string)
| GetRunning (category : option string)
| GetFree (category : option string)
| OnDrain (category : option string) (callback : value)
| SetDefaultCategory (category : option string)
| SetCategoryDefaults (category : option string) (newDefaults : NewDefaults.t)
| Queue (configIn : configArg)
| Call (fn : value)
| CallArgument (i : nat)
| NewArray (elements : list value)
| Tick
| UnshiftDebugArguments (r : rid) (v : value).

Definition result := option (State * outcome).

Definition unshiftDebugArguments (r : rid) (v : value) (st : State) : State * outcome :=
  match requests st !! r with
  | Some q =>
      match release_debug q with
      | Some d => (unshift_array (Config.arguments d) v st, Normal)
      | None => (st, Throw TypeError)
      end
  | None => (st, Throw TypeError)
  end.

Section Handler.

(** The bodies of the user's functions. *)
Variable code : fid → list operation.

(** [next] (lines 99-156), [config.release] (lines 313-356), [queue] (lines
    282-387) and [setMax] (lines 176-202), with the user code they run. *)
Fixpoint next (fuel : nat) (category : string) (st : State) {struct fuel} : result :=
  match fuel with
  | O => None
  | S fuel =>
      match queueOf st category with
      | [] =>
          let fn := Defaults.onDrain (defaultsOf st category) in
          if (consumedOf st category =? 0) && instanceofFunction fn
          then call fuel fn [VStr category] (log (Drained category fn) st)
          else Some (st, Normal)
      | r :: _ =>
          match requests st !! r with
          | None => Some (st, Throw TypeError)
          | Some q =>
              let nextItem := config q in
              if consumedOf st category + Config.amount nextItem >? maxOf st category
              then
                if Config.amount nextItem >? maxOf st category
                then Some (st, Throw (RuntimeError category (Config.amount nextItem)
                                        (maxOf st category)))
                else Some (st, Normal)
              else
                let st := commit category r nextItem st in
                let args := arrayOf st (Config.arguments nextItem) in
                let st :=
                  log (Invoked r (Config.callback nextItem) (Config.context nextItem) args)
                    st in
                match call fuel (Config.callback nextItem) args st with
                | Some (st, Normal) => next fuel category st
                | other => other
                end
          end
      end
  end

with call (fuel : nat) (fn : value) (args : list value) (st : State) {struct fuel} : result :=
  match fuel with
  | O => None
  | S fuel =>
      match fn with
      | VRelease r => release fuel r st
      | VFunction f => run fuel (code f) args st
      | _ => Some (st, Throw TypeError)
      end
  end

with run (fuel : nat) (body : list operation) (args : list value) (st : State)
    {struct fuel} : result :=
  match fuel with
  | O => None
  | S fuel =>
      match body with
      | [] => Some (st, Normal)
      | op :: body =>
          match perform fuel op args st with
          | Some (st, Normal) => run fuel body args st
          | other => other
          end
      end
  end

with perform (fuel : nat) (op : operation) (args : list value) (st : State)
    {struct fuel} : result :=
  match fuel with
  | O => None
  | S fuel =>
      match op with
      | SetMax category amount => setMax fuel category amount st
      | GetMax category => Some ((getMax category st).2, Normal)
      | GetRunning category => Some ((getRunning category st).2, Normal)
      | GetFree category => Some ((getFree category st).2, Normal)
      | OnDrain category callback => Some (onDrain category callback st, Normal)
      | SetDefaultCategory category => Some (setDefaultCategory category st, Normal)
      | SetCategoryDefaults category newDefaults =>
          Some (setCategoryDefaults category newDefaults st, Normal)
      | Queue configIn => queue fuel configIn st
      | Call fn => call fuel fn [] st
      | CallArgument i => call fuel (nth i args VUndefined) [] st
      | NewArray elements => Some (set_arrays (arrays st ++ [elements]) st, Normal)
      | Tick => Some (set_clock (S (clock st)) st, Normal)
      | UnshiftDebugArguments r v => Some (unshiftDebugArguments r v st)
      end
  end

with release (fuel : nat) (r : rid) (st : State) {struct fuel} : result :=
  match fuel with
  | O => None
  | S fuel =>
      match requests st !! r with
      | None => Some (st, Throw TypeError)
      | Some q =>
          if Config.released (config q) then Some (st, Normal)
          else next fuel (Config.category (config q)) (release_update r (config q) st)
      end
  end

with queue (fuel : nat) (configIn : configArg) (st : State) {struct fuel} : result :=
  match fuel with
  | O => None
  | S fuel =>
      match sanity_checks configIn with
      | Throw e => Some (st, Throw e)
      | Normal =>
          let '(category, st) := enqueue (arg_fields configIn) st in
          next fuel category st
      end
  end

with setMax (fuel : nat) (category : option string) (amount : Z) (st : State)
    {struct fuel} : result :=
  match fuel with
  | O => None
  | S fuel =>
      if 0 >=? amount then Some (st, Throw (InvalidAmount amount))
      else
        let '(category, st) := createCategory category st in
        next fuel category (set_max category amount st)
  end.

(** A caller that makes one public call after the other, each from the top
    level, and goes on after a call that threw. *)
Fixpoint session (fuel : nat) (ops : list operation) (st : State)
    : option (State * list outcome) :=
  match ops with
  | [] => Some (st, [])
  | op :: ops =>
      match perform fuel op [] st with
      | None => None
      | Some (st, o) =>
          match session fuel ops st with
          | None => None
          | Some (st, os) => Some (st, o :: os)
          end
      end
  end.

End Handler.

(** ** The counters as the runtime has them *)

(** The arithmetic of [next] and [config.release] on binary64 numbers:
    addition and subtraction round to the nearest number. *)
Module Doubles.

Definition number := PrimFloat.float.

Definition of_nat (n : nat) : number := Z.iter (Z.of_nat n) (PrimFloat.add PrimFloat.one) PrimFloat.zero.

(** Line 116: [consumed + amount > max]. *)
Definition exceeds (consumed amount max : number) : bool :=
  PrimFloat.ltb max (PrimFloat.add consumed amount).

(** Line 129: [consumed += amount]. *)
Definition start (consumed amount : number) : number :=
  PrimFloat.add consumed amount.

(** Line 340: [consumed -= amount]. *)
Definition release (consumed amount : number) : number :=
  PrimFloat.sub consumed amount.

(** Line 105: [!consumed]. *)
Definition is_zero (consumed : number) : bool :=
  PrimFloat.eqb consumed PrimFloat.zero.

End Doubles.

(** ** The atomic changes of the state

    Between two calls of user code the handler changes the state in one of
    the following ways.  Every run of every function above is a sequence of
    such steps ([run_steps] below), so that an invariant is proved step by
    step. *)
Inductive step : State → State → Prop :=
| step_drained c fn st :
    queueOf st c = [] → consumedOf st c = 0 →
    fn = Defaults.onDrain (defaultsOf st c) → instanceofFunction fn = true →
    step st (log (Drained c fn) st)
| step_commit c r rest q st :
    queueOf st c = r :: rest →
    requests st !! r = Some q →
    step st
      (log (Invoked r (Config.callback (config q)) (Config.context (config q))
              (arrayOf (commit c r (config q) st) (Config.arguments (config q))))
         (commit c r (config q) st))
| step_release r q st :
    requests st !! r = Some q →
    Config.released (config q) = false →
    step st (release_update r (config q) st)
| step_enqueue configIn st :
    step st (enqueue configIn st).2
| step_setMax category amount st :
    step st (set_max (createCategory category st).1 amount (createCategory category st).2)
| step_createCategory category st :
    step st (createCategory category st).2
| step_onDrain category fn st :
    step st (onDrain category fn st)
| step_setDefaultCategory category st :
    step st (setDefaultCategory category st)
| step_setCategoryDefaults category n st :
    step st (setCategoryDefaults category n st)
| step_newArray l st :
    step st (set_arrays (arrays st ++ [l]) st)
| step_tick st :
    step st (set_clock (S (clock st)) st)
| step_unshiftDebugArguments r v st :
    step st (unshiftDebugArguments r v st).1.

(** ** The invariants of the state *)

(** A category that was never created has no entry in any store. *)
Definition created (st : State) : Prop :=
  ∀ c, defaults st !! c = None →
    queues st !! c = None ∧ consumed st !! c = None ∧ max st !! c = None ∧
    categoryRunCount st !! c = None.

(** Two states that every read tells apart in nothing but the default
    category and the set of created categories. *)
Record same_reads (st st' : State) : Prop := {
  sr_requests : requests st' = requests st;
  sr_arrays : arrays st' = arrays st;
  sr_events : events st' = events st;
  sr_clock : clock st' = clock st;
  sr_globalRunCount : globalRunCount st' = globalRunCount st;
  sr_queueOf c : queueOf st' c = queueOf st c;
  sr_consumedOf c : consumedOf st' c = consumedOf st c;
  sr_maxOf c : maxOf st' c = maxOf st c;
  sr_runCountOf c : runCountOf st' c = runCountOf st c;
  sr_defaultsOf c : defaultsOf st' c = defaultsOf st c;
  sr_defaults c : is_Some (defaults st !! c) → is_Some (defaults st' !! c);
  sr_created : created st';
}.

(** The [config] objects, without the debug copies. *)
Definition configs (st : State) : list Config.t := config <$> requests st.

(** A request is running from the sweep that takes it off the queue to the
    first call of its release method. *)
Definition is_running (cfg : Config.t) : bool :=
  negb (Config.inQueue cfg) && negb (Config.released cfg).

Definition runningAmount (c : string) (cfg : Config.t) : Z :=
  if decide (Config.category cfg = c)
  then if is_running cfg then Config.amount cfg else 0
  else 0.

Definition sumWith (g : Config.t → Z) (l : list Config.t) : Z :=
  foldr (λ cfg n, g cfg + n) 0 l.

(** The sum of the amounts of the running requests of category [c]. *)
Definition sumRunning (st : State) (c : string) : Z :=
  sumWith (runningAmount c) (configs st).

Record wf (st : State) : Prop := {
  wf_consumed c : consumedOf st c = sumRunning st c;
  wf_queue c r :
    r ∈ queueOf st c →
    ∃ cfg, configs st !! r = Some cfg ∧ Config.category cfg = c ∧
           Config.inQueue cfg = true ∧ Config.released cfg = false;
  wf_NoDup c : NoDup (queueOf st c);
  wf_created : created st;
  wf_category r cfg :
    configs st !! r = Some cfg → is_Some (defaults st !! Config.category cfg);
}.

(** An assignment to a [config] object that leaves alone what [queue]
    stored in it. *)
Definition keeps (g : Config.t → Config.t) : Prop :=
  ∀ x, Config.category (g x) = Config.category x ∧
       Config.amount (g x) = Config.amount x ∧
       Config.unshift (g x) = Config.unshift x ∧
       Config.callback (g x) = Config.callback x ∧
       Config.arguments (g x) = Config.arguments x ∧
       Config.curryRelease (g x) = Config.curryRelease x.

(** ** Examples of user code

    Function 0 starts work that completes later (it returns at once) and is
    also used as a callback that only observes; function 1 is
    [function( f ) { f(); }]: it calls its first argument before it
    returns. *)
Definition handlers (f : fid) : list operation :=
  match f with
  | 1%nat => [CallArgument 0]
  | _ => []
  end.

(** [{ category: c, callback: f, amount: a }] *)
Definition request (c : string) (f : fid) (a : Z) : configArg :=
  Literal (ConfigIn.mk (VFunction f) VUndefined VUndefined (Some c) None (Some a)
             None None).

(** ** The order of starts *)

Definition invoked (e : event) : option rid :=
  match e with
  | Invoked r _ _ _ => Some r
  | Drained _ _ => None
  end.

(** The requests in the order in which a sweep took them off the queue and
    called their callback. *)
Definition started (st : State) : list rid := omap invoked (events st).

(** Request [r] was submitted to category [c] with a false [unshift]. *)
Definition is_fifo (l : list Config.t) (c : string) (r : rid) : bool :=
  match l !! r with
  | Some cfg => bool_decide (Config.category cfg = c) && negb (Config.unshift cfg)
  | None => false
  end.

(** [a] occurs before [b]. *)
Definition before (a b : rid) (l : list rid) : Prop :=
  ∃ l1 l2 l3, l = l1 ++ a :: l2 ++ b :: l3.

(** Requests are numbered in the order of their submission.  Those of a
    category that were pushed at the back: the started ones, followed by
    the queued ones, are in that order. *)
Record ordered (st : State) : Prop := {
  ord_started r : r ∈ started st → (r < length (configs st))%nat;
  ord_sorted c :
    StronglySorted lt
      (filter (λ r, is_fifo (configs st) c r) (started st ++ queueOf st c));
}.

(** The state a caller reaches. *)
Definition final (res : option (State * list outcome)) : State :=
  match res with
  | Some (st, _) => st
  | None => initial
  end.

(** Category "x" with a maximum of 1: request 0 is running, request 1
    waits. *)
Definition waiting : State :=
  final (session handlers 20
           [SetMax (Some "x") 1; Queue (request "x" 0 1); Queue (request "x" 0 1)]
           initial).

(** ** The life of a request

    What [queue] stored in a [config] object stays; a request that left the
    queue stays out of it, and a released request stays released. *)
Record evolves (cfg cfg' : Config.t) : Prop := {
  ev_category : Config.category cfg' = Config.category cfg;
  ev_amount : Config.amount cfg' = Config.amount cfg;
  ev_unshift : Config.unshift cfg' = Config.unshift cfg;
  ev_callback : Config.callback cfg' = Config.callback cfg;
  ev_arguments : Config.arguments cfg' = Config.arguments cfg;
  ev_curryRelease : Config.curryRelease cfg' = Config.curryRelease cfg;
  ev_inQueue : Config.inQueue cfg = false → Config.inQueue cfg' = false;
  ev_released : Config.released cfg = true → Config.released cfg' = true;
}.

(** Category "z" with a maximum of 3: request 0 (amount 1) is running and
    request 1, which asks for 5, is at the head of the queue. *)
Definition oversized : State :=
  final (session handlers 20
           [SetMax (Some "z") 3; Queue (request "z" 0 1); Queue (request "z" 0 5)]
           initial).

(** Category "x" with a maximum of 2 and the default arguments [["a"]],
    which is array 0. *)
Definition shared_ops : list operation :=
  [SetMax (Some "x") 2; NewArray [VStr "a"];
   SetCategoryDefaults (Some "x")
     (NewDefaults.mk None None None (Some (Some 0%nat)) None None None)].

Definition shared : State := final (session handlers 20 shared_ops initial).

(** ** The drain callback *)

(** A step that records a call of the drain callback of [c] starts from a
    state in which [c] is idle. *)
Definition drains_when_idle (st st' : State) : Prop :=
  ∀ c fn, events st' = events st ++ [Drained c fn] →
    queueOf st c = [] ∧ consumedOf st c = 0 ∧
    fn = Defaults.onDrain (defaultsOf st c) ∧ instanceofFunction fn = true.

(** Category "d" has a drain callback and never had a request. *)
Definition idle : State :=
  final (session handlers 20 [OnDrain (Some "d") (VFunction 0)] initial).

(** [{ category: "x", callback: function( f ) { f(); }, arguments: array 0,
      curryRelease: false, amount: 1, debug: true }] *)
Definition debugged : configArg :=
  Literal (ConfigIn.mk (VFunction 1) VUndefined (VArray 0) (Some "x") (Some false)
             (Some 1) (Some true) None).

(** Category "x" has a maximum of 1; request 0 runs and request 1, the
    debugged one, waits with the arguments [[function 0]].  The caller then
    does [meddling] with what it was given and releases request 0. *)
Definition meddled (meddling : list operation) : State :=
  final (session handlers 20
           ([SetMax (Some "x") 1; NewArray [VFunction 0]; Queue (request "x" 0 1);
             Queue debugged] ++ meddling ++ [Call (VRelease 0)])
           initial).

(** ** A sweep over callbacks that defer their work *)



(** A function that returns without a call to the handler: it has started
    work that completes later. *)
Definition deferred (code : fid → list operation) (v : value) : Prop :=
  ∃ f, v = VFunction f ∧ code f = [].


(** The state and the outcomes that a run ends with. *)
Definition state_of {A} (res : option (State * A)) : State :=
  match res with
  | Some (st, _) => st
  | None => initial
  end.

Definition outcomes_of (res : option (State * list outcome)) : list outcome :=
  match res with
  | Some (_, os) => os
  | None => []
  end.

(** ** Categories *)

(** The name that [createCategory] returns (lines 58-70): the category given,
    else the default category, else the empty string. *)
Definition resolve (category : option string) (st : State) : string :=
  match category with
  | Some c => c
  | None => default "" (defaultCategory st)
  end.

(** [{}] as the argument of [setCategoryDefaults]. *)
Definition no_defaults : NewDefaults.t :=
  NewDefaults.mk None None None None None None None.

(** ** What a start and a release write into a request *)

(** Lines 126 and 138-143: the [config] object [x] of the request that a
    sweep starts in state [st]; [cfg] is [x] as the sweep found it. *)
Definition started_config (st : State) (c : string) (cfg x : Config.t) : Config.t :=
  if Config.debug cfg
  then Config.set_started (clock st) (globalRunCount st) (runCountOf st c)
         (Config.set_inQueue false x)
  else Config.set_inQueue false x.

(** Lines 322-325 and 346. *)
Definition released_config (st : State) (cfg x : Config.t) : Config.t :=
  Config.set_released true
    (if Config.debug cfg then Config.set_completed (clock st) x else x).

(** The request after [duplicateDebugData], which is called in debug mode
    only. *)
Definition with_copy (debug : bool) (x : Config.t) (q : Request) : Request :=
  {| config := x; release_debug := if debug then Some x else release_debug q |}.

(** ** The history of a state *)

(** Request [r] belongs to category [c]. *)
Definition in_category (l : list Config.t) (c : string) (r : rid) : bool :=
  match l !! r with
  | Some cfg => bool_decide (Config.category cfg = c)
  | None => false
  end.

Record history (st : State) : Prop := {
  hist_bound r : r ∈ started st → (r < length (configs st))%nat;
  hist_NoDup : NoDup (started st);
  hist_out r cfg :
    configs st !! r = Some cfg → r ∈ started st ↔ Config.inQueue cfg = false;
  hist_global : globalRunCount st = length (started st);
  hist_category c :
    runCountOf st c =
    length (filter (λ r, in_category (configs st) c r) (started st));
  hist_index r cfg :
    configs st !! r = Some cfg → Config.debug cfg = true →
    if Config.inQueue cfg
    then Config.globalRunIndex cfg = None ∧ Config.categoryRunIndex cfg = None
    else ∃ i k,
           Config.globalRunIndex cfg = Some i ∧ started st !! i = Some r ∧
           Config.categoryRunIndex cfg = Some k ∧
           filter (λ r, in_category (configs st) (Config.category cfg) r) (started st) !! k
             = Some r;
  hist_copy r q :
    requests st !! r = Some q →
    release_debug q = if Config.debug (config q) then Some (config q) else None;
}.

(** ** Requests that wait *)

(** Request [r] was cancelled: released while it was still queued. *)
Definition cancelled (st : State) (r : rid) : Prop :=
  ∃ cfg, configs st !! r = Some cfg ∧
         Config.inQueue cfg = true ∧ Config.released cfg = true.

(** The head of the queue of [c] fits: the test of line 116 is false for
    it, so that a sweep of [c] would start it. *)
Definition startable (st : State) (c : string) : bool :=
  match queueOf st c with
  | [] => false
  | r :: _ =>
      match configs st !! r with
      | Some cfg => negb (consumedOf st c + Config.amount cfg >? maxOf st c)
      | None => false
      end
  end.

(** A value that [callback.apply] of line 152 cannot call. *)
Definition callable (v : value) : bool :=
  match v with
  | VFunction _ | VRelease _ => true
  | _ => false
  end.

(** Outside of the categories [P] no head of a queue is startable. *)
Definition settled (P : string → Prop) (st : State) : Prop :=
  ∀ x, ¬ P x → startable st x = false.

(** ** Callbacks that release at once *)





(** ** More examples *)

Definition outcome_of (res : result) : outcome :=
  match res with
  | Some (_, o) => o
  | None => Normal
  end.

(** Category "y" with a maximum of 1 and three requests, of which the first
    two are released in turn. *)
Definition busy_ops : list operation :=
  [SetMax (Some "y") 1; Queue (request "y" 0 1); Queue (request "y" 0 1);
   Queue (request "y" 0 1); Call (VRelease 0); Call (VRelease 1)].

(** [{ category: "u", amount: 1 }]: no callback. *)
Definition uncallable : ConfigIn.t :=
  ConfigIn.mk VUndefined VUndefined VUndefined (Some "u") None (Some 1) None None.

(** The request without a callback is on the queue of the new category "u"
    and the sweep has not run yet. *)
Definition unstarted : State := (enqueue uncallable initial).2.

(** Category "x" with a maximum of 3: request 0 (amount 2) is running and
    request 1 (amount 2) waits. *)
Definition roomy : State :=
  final (session handlers 20
           [SetMax (Some "x") 3; Queue (request "x" 0 2); Queue (request "x" 0 2)]
           initial).


(** [{ category: c, callback: f, amount: a }] *)
Definition plain (c : string) (f : fid) (a : Z) : ConfigIn.t :=
  ConfigIn.mk (VFunction f) VUndefined VUndefined (Some c) None (Some a) None None.


(** ** Where a request waits *)

(** A request that was neither started nor released is on the queue of its
    category. *)
Definition queued (st : State) : Prop :=
  ∀ r cfg, configs st !! r = Some cfg →
    Config.inQueue cfg = true → Config.released cfg = false →
    r ∈ queueOf st (Config.category cfg).

(** [config.getIndex] (lines 366-368), which debug mode adds to a request:
    the position of the request in the queue of its category; [None] is
    -1. *)
Definition getIndex (st : State) (r : rid) : option nat :=
  match configs st !! r with
  | Some cfg => indexOf (queueOf st (Config.category cfg)) r
  | None => None
  end.

(** ** Categories side by side *)

(** From [st] to [st'] the queue, the consumed amount and the maximum of
    every category other than [c] stayed as they were. *)
Definition others_untouched (c : string) (st st' : State) : Prop :=
  ∀ x, x ≠ c →
    queueOf st' x = queueOf st x ∧ consumedOf st' x = consumedOf st x ∧
    maxOf st' x = maxOf st x.

(** Every callback that category [c] can call defers its work: those of
    its requests and its drain callback. *)
Definition defers (code : fid → list operation) (c : string) (st : State) : Prop :=
  (∀ r cfg, configs st !! r = Some cfg → Config.category cfg = c →
            deferred code (Config.callback cfg)) ∧
  (instanceofFunction (Defaults.onDrain (defaultsOf st c)) = true →
   deferred code (Defaults.onDrain (defaultsOf st c))).

(** ** The numbers of the model *)

(** The amounts of all the requests are so small that every sum of some of
    them is an integer that a binary64 number holds exactly: their
    magnitudes add up to at most 2^53. *)
Definition exact (st : State) : Prop :=
  sumWith (λ cfg, Z.abs (Config.amount cfg)) (configs st) ≤ 9007199254740992.

(** The names that every object inherits from [Object.prototype].  The
    stores of lines 45-50 are plain objects: under such a name they hold
    the inherited value before any category was created, and the test of
    line 73 finds it. *)
Definition inherited (c : string) : bool :=
  bool_decide
    (c ∈ ["constructor"; "hasOwnProperty"; "isPrototypeOf"; "propertyIsEnumerable";
          "toLocaleString"; "toString"; "valueOf"; "__proto__"; "__defineGetter__";
          "__defineSetter__"; "__lookupGetter__"; "__lookupSetter__"]).

(** Function 2 is [function() { ch.setMax( 0 ); }]: a callback that throws. *)
Definition throwing (f : fid) : list operation :=
  match f with
  | 2%nat => [SetMax None 0]
  | _ => handlers f
  end.

(** 0.1 and 0.2, and 2^53. *)
Definition tenth : Doubles.number :=
  PrimFloat.div (Doubles.of_nat 1) (Doubles.of_nat 10).

Definition fifth : Doubles.number :=
  PrimFloat.div (Doubles.of_nat 2) (Doubles.of_nat 10).

Definition two53 : Doubles.number :=
  Z.iter 53 (PrimFloat.mul (Doubles.of_nat 2)) (Doubles.of_nat 1).

(** * Proofs *)

(** ** What [createCategory] changes *)

Lemma createCategory_eta category st :
  createCategory category st = ((createCategory category st).1, (createCategory category st).2).
Proof. by destruct (createCategory category st). Qed.

Lemma enqueue_eta configIn st :
  enqueue configIn st = ((enqueue configIn st).1, (enqueue configIn st).2).
Proof. by destruct (enqueue configIn st). Qed.

Lemma createCategory_resolve category st :
  (createCategory category st).1 = resolve category st.
Proof.
  unfold createCategory, resolve. destruct category; [done|].
  destruct (defaultCategory st) eqn:E; simpl; by rewrite ?E.
Qed.

Lemma onDrain_eq category fn st :
  onDrain category fn st =
  set_defaults (createCategory (onDrain_arguments category fn).1 st).1
    (set_onDrain (onDrain_arguments category fn).2
       (defaultsOf (createCategory (onDrain_arguments category fn).1 st).2
          (createCategory (onDrain_arguments category fn).1 st).1))
    (createCategory (onDrain_arguments category fn).1 st).2.
Proof.
  unfold onDrain. destruct (onDrain_arguments category fn).
  by destruct (createCategory _ _).
Qed.

Lemma initCategory_reads c st :
  created st → defaults st !! c = None → same_reads st (initCategory c st).
Proof.
  intros Hcr Hc. destruct (Hcr c Hc) as (Hq & Hco & Hm & Hr).
  split; try done.
  - intros x. unfold queueOf, initCategory; simpl.
    destruct (decide (c = x)) as [->|]; [by rewrite lookup_insert_eq, Hq|by rewrite lookup_insert_ne].
  - intros x. unfold consumedOf, initCategory; simpl.
    destruct (decide (c = x)) as [->|]; [by rewrite lookup_insert_eq, Hco|by rewrite lookup_insert_ne].
  - intros x. unfold maxOf, initCategory; simpl.
    destruct (decide (c = x)) as [->|]; [by rewrite lookup_insert_eq, Hm|by rewrite lookup_insert_ne].
  - intros x. unfold runCountOf, initCategory; simpl.
    destruct (decide (c = x)) as [->|]; [by rewrite lookup_insert_eq, Hr|by rewrite lookup_insert_ne].
  - intros x. unfold defaultsOf, initCategory; simpl.
    destruct (decide (c = x)) as [->|]; [by rewrite lookup_insert_eq, Hc|by rewrite lookup_insert_ne].
  - intros x Hx. unfold initCategory; simpl.
    destruct (decide (c = x)) as [->|]; [by rewrite lookup_insert_eq|by rewrite lookup_insert_ne].
  - intros x. unfold initCategory; simpl.
    destruct (decide (c = x)) as [->|]; [by rewrite lookup_insert_eq|].
    rewrite !lookup_insert_ne by done. apply Hcr.
Qed.

Lemma same_reads_refl st : created st → same_reads st st.
Proof. by split. Qed.

Lemma set_defaultCategory_reads c st :
  created st → same_reads st (set_defaultCategory c st).
Proof. by split. Qed.

Lemma same_reads_trans st1 st2 st3 :
  same_reads st1 st2 → same_reads st2 st3 → same_reads st1 st3.
Proof.
  intros [] []. split; try congruence; auto.
Qed.

Lemma createCategory_reads category st :
  created st →
  same_reads st (createCategory category st).2 ∧
  is_Some (defaults (createCategory category st).2 !! (createCategory category st).1).
Proof.
  intros Hcr. unfold createCategory.
  set (st1 := match category, defaultCategory st with
              | None, None => set_defaultCategory "" st
              | _, _ => st
              end).
  assert (H1 : same_reads st st1).
  { subst st1. destruct category, (defaultCategory st);
      auto using same_reads_refl, set_defaultCategory_reads. }
  set (c := match category with
            | Some c => c
            | None => default "" (defaultCategory st1)
            end).
  set (st2 := match defaults st1 !! c with
              | Some _ => st1
              | None => initCategory c st1
              end).
  assert (H2 : same_reads st1 st2 ∧ is_Some (defaults st2 !! c)).
  { subst st2. destruct (defaults st1 !! c) eqn:Hc.
    - split; [apply same_reads_refl, H1|by rewrite Hc].
    - split; [apply initCategory_reads; [apply H1|done]|].
      unfold initCategory; simpl. by rewrite lookup_insert_eq. }
  destruct H2 as [H2 Hsome].
  simpl. destruct (defaultCategory st2); simpl.
  - split; [by eapply same_reads_trans|done].
  - split; [|done].
    eapply same_reads_trans; [done|]. eapply same_reads_trans; [done|].
    apply set_defaultCategory_reads, H2.
Qed.

Lemma created_ext st st' :
  created st → defaults st' = defaults st → queues st' = queues st →
  consumed st' = consumed st → max st' = max st →
  categoryRunCount st' = categoryRunCount st → created st'.
Proof. intros H E1 E2 E3 E4 E5 c. rewrite E1, E2, E3, E4, E5. apply H. Qed.

Lemma created_insert st st' c :
  created st → is_Some (defaults st !! c) → defaults st' = defaults st →
  (∀ x, x ≠ c → queues st' !! x = queues st !! x) →
  (∀ x, x ≠ c → consumed st' !! x = consumed st !! x) →
  (∀ x, x ≠ c → max st' !! x = max st !! x) →
  (∀ x, x ≠ c → categoryRunCount st' !! x = categoryRunCount st !! x) →
  created st'.
Proof.
  intros H [d Hd] E1 E2 E3 E4 E5 x Hx. rewrite E1 in Hx.
  assert (x ≠ c) by congruence.
  rewrite E2, E3, E4, E5 by done. by apply H.
Qed.

(** ** Assignments to a [config] object *)

Lemma alter_lookup_Some {A} (f : A → A) (l : list A) i x :
  l !! i = Some x → alter f i l = <[i := f x]> l.
Proof.
  revert i. induction l as [|y l IH]; intros [|i] H; simplify_eq/=; [done|].
  f_equal. by apply IH.
Qed.

Lemma alter_lookup_None {A} (f : A → A) (l : list A) i :
  l !! i = None → alter f i l = l.
Proof.
  revert i. induction l as [|y l IH]; intros [|i] H; simplify_eq/=; [done|done|].
  f_equal. by apply IH.
Qed.

Lemma set_requests_id st : set_requests (requests st) st = st.
Proof. by destruct st. Qed.

Lemma update_config_eq r f st :
  update_config r f st =
  set_requests
    (alter (λ q, {| config := f (config q); release_debug := release_debug q |}) r
       (requests st)) st.
Proof.
  unfold update_config. destruct (requests st !! r) as [q|] eqn:H.
  - by erewrite alter_lookup_Some.
  - by rewrite alter_lookup_None, set_requests_id.
Qed.

Lemma duplicateDebugData_eq r st :
  duplicateDebugData r st =
  set_requests
    (alter (λ q, {| config := config q; release_debug := Some (config q) |}) r
       (requests st)) st.
Proof.
  unfold duplicateDebugData. destruct (requests st !! r) as [q|] eqn:H.
  - by erewrite alter_lookup_Some.
  - by rewrite alter_lookup_None, set_requests_id.
Qed.

Lemma fmap_config_alter (f : Config.t → Config.t) d r (l : list Request) :
  config <$> alter (λ q, {| config := f (config q); release_debug := d q |}) r l =
  alter f r (config <$> l).
Proof. apply list_fmap_alter. by apply Forall_true. Qed.

Lemma fmap_config_alter_dup r (l : list Request) :
  config <$> alter (λ q, {| config := config q; release_debug := Some (config q) |}) r l =
  config <$> l.
Proof.
  rewrite (list_fmap_alter config _ (λ x, x)); [|by apply Forall_true].
  by apply list_alter_id.
Qed.

(** ** Sums of running amounts *)

Lemma sumWith_app g l1 l2 : sumWith g (l1 ++ l2) = sumWith g l1 + sumWith g l2.
Proof. induction l1 as [|x l1 IH]; simpl; [done|]. rewrite IH. lia. Qed.

Lemma sumWith_alter g f l r x :
  l !! r = Some x → sumWith g (alter f r l) = sumWith g l - g x + g (f x).
Proof.
  revert r. induction l as [|y l IH]; intros [|r] H; simplify_eq/=; [lia|].
  rewrite (IH _ H). lia.
Qed.

(** ** Searching the queue *)

Lemma indexOf_Some l r i : indexOf l r = Some i → l !! i = Some r.
Proof.
  revert i. induction l as [|x l IH]; intros i; simpl; [done|].
  destruct (decide (x = r)) as [->|]; [by intros [= <-]|].
  destruct (indexOf l r) as [j|]; intros [= <-]. by apply IH.
Qed.

Lemma indexOf_None l r : indexOf l r = None → r ∉ l.
Proof.
  induction l as [|x l IH]; simpl; [by intros _ ?%elem_of_nil|].
  destruct (decide (x = r)) as [->|]; [done|].
  destruct (indexOf l r); [done|]. intros _ [->|?]%elem_of_cons; [done|by apply IH].
Qed.

Lemma elem_of_delete_list {A} (l : list A) i x : x ∈ delete i l → x ∈ l.
Proof.
  revert i. induction l as [|y l IH]; intros [|i]; simpl; try done.
  - rewrite elem_of_cons. auto.
  - rewrite !elem_of_cons. intros [->|?]; [by left|right; by eapply IH].
Qed.

Lemma NoDup_delete_list {A} (l : list A) i : NoDup l → NoDup (delete i l).
Proof.
  revert i. induction l as [|y l IH]; intros [|i]; simpl; try done.
  - by intros [_ ?]%NoDup_cons.
  - intros [Hy Hl]%NoDup_cons. apply NoDup_cons. split; [|by apply IH].
    intros ?%elem_of_delete_list. done.
Qed.

Lemma not_elem_of_delete_list {A} (l : list A) i x :
  NoDup l → l !! i = Some x → x ∉ delete i l.
Proof.
  revert i. induction l as [|y l IH]; intros [|i]; simpl; try done.
  - intros [Hy _]%NoDup_cons [= <-]. done.
  - intros [Hy Hl]%NoDup_cons Hi [->|?]%elem_of_cons.
    + apply Hy. by eapply list_elem_of_lookup_2.
    + by eapply IH.
Qed.

(** ** What [commit], [release_update] and [enqueue] change *)

Ltac fields :=
  cbn [globalRunCount categoryRunCount queues max consumed defaultCategory
       defaults requests arrays clock events
       set_queue set_max set_consumed set_defaultCategory set_defaults
       set_requests set_arrays set_clock log count_run unshift_array].

Lemma commit_spec c r cfg st :
  ∃ g, configs (commit c r cfg st) = alter g r (configs st) ∧ keeps g ∧
       (∀ x, Config.inQueue (g x) = false ∧
             Config.released (g x) = Config.released x) ∧
       queues (commit c r cfg st) = <[c := tail (queueOf st c)]> (queues st) ∧
       consumed (commit c r cfg st) =
         <[c := consumedOf st c + Config.amount cfg]> (consumed st) ∧
       max (commit c r cfg st) = max st ∧
       defaults (commit c r cfg st) = defaults st ∧
       events (commit c r cfg st) = events st.
Proof.
  unfold commit. rewrite !update_config_eq, !duplicateDebugData_eq.
  destruct (Config.curryRelease cfg), (Config.debug cfg);
    unfold configs, consumedOf, queueOf; fields;
    rewrite ?fmap_config_alter_dup, ?fmap_config_alter, ?list_alter_alter_eq;
    (eexists; split; [reflexivity|]); by repeat split.
Qed.

Lemma release_update_spec r cfg st :
  ∃ g, configs (release_update r cfg st) = alter g r (configs st) ∧ keeps g ∧
       (∀ x, Config.inQueue (g x) = Config.inQueue x ∧
             Config.released (g x) = true) ∧
       max (release_update r cfg st) = max st ∧
       defaults (release_update r cfg st) = defaults st ∧
       events (release_update r cfg st) = events st ∧
       categoryRunCount (release_update r cfg st) = categoryRunCount st ∧
       if Config.inQueue cfg
       then consumed (release_update r cfg st) = consumed st ∧
            queues (release_update r cfg st) =
              match indexOf (queueOf st (Config.category cfg)) r with
              | Some index =>
                  <[Config.category cfg :=
                      delete index (queueOf st (Config.category cfg))]> (queues st)
              | None => queues st
              end
       else consumed (release_update r cfg st) =
              <[Config.category cfg :=
                  consumedOf st (Config.category cfg) - Config.amount cfg]> (consumed st) ∧
            queues (release_update r cfg st) = queues st.
Proof.
  unfold release_update. rewrite !update_config_eq, !duplicateDebugData_eq.
  destruct (Config.inQueue cfg), (Config.debug cfg);
    unfold configs, consumedOf, queueOf; fields;
    try destruct (indexOf _ _); fields;
    rewrite ?fmap_config_alter_dup, ?fmap_config_alter, ?list_alter_alter_eq;
    (eexists; split; [reflexivity|]); by repeat split.
Qed.

Lemma enqueue_spec configIn st :
  created st →
  ∃ cfg,
    configs (enqueue configIn st).2 = configs st ++ [cfg] ∧
    Config.category cfg = (enqueue configIn st).1 ∧
    Config.inQueue cfg = true ∧ Config.released cfg = false ∧
    (∀ x, queueOf (enqueue configIn st).2 x =
          if decide (x = (enqueue configIn st).1)
          then if Config.unshift cfg
               then length (requests st) :: queueOf st x
               else queueOf st x ++ [length (requests st)]
          else queueOf st x) ∧
    (∀ x, consumedOf (enqueue configIn st).2 x = consumedOf st x) ∧
    (∀ x, maxOf (enqueue configIn st).2 x = maxOf st x) ∧
    events (enqueue configIn st).2 = events st ∧
    (∀ x, is_Some (defaults st !! x) → is_Some (defaults (enqueue configIn st).2 !! x)) ∧
    is_Some (defaults (enqueue configIn st).2 !! (enqueue configIn st).1) ∧
    created (enqueue configIn st).2.
Proof.
  intros Hcr. unfold enqueue.
  destruct (createCategory_reads (ConfigIn.category configIn) st Hcr) as [Hsr Hsome].
  rewrite (createCategory_eta (ConfigIn.category configIn) st).
  set (c := (createCategory (ConfigIn.category configIn) st).1) in *.
  set (st1 := (createCategory (ConfigIn.category configIn) st).2) in *.
  destruct Hsr as [Hreq Harr Hev Hclk Hg Hq Hco Hm Hrc Hd Hdom Hcr1].
  assert (Hfinal : ∀ a st2 cfg,
    requests st2 = requests st → queues st2 = queues st1 →
    consumed st2 = consumed st1 → max st2 = max st1 → events st2 = events st1 →
    defaults st2 = defaults st1 → categoryRunCount st2 = categoryRunCount st1 →
    Config.category cfg = c → Config.inQueue cfg = true → Config.released cfg = false →
    let st3 := set_requests (requests st2 ++ [{| config := cfg; release_debug := a |}]) st2 in
    let st4 := if Config.unshift cfg
               then set_queue c (length (requests st2) :: queueOf st3 c) st3
               else set_queue c (queueOf st3 c ++ [length (requests st2)]) st3 in
    ∃ cfg, configs st4 = configs st ++ [cfg] ∧ Config.category cfg = c ∧
      Config.inQueue cfg = true ∧ Config.released cfg = false ∧
      (∀ x, queueOf st4 x =
            if decide (x = c)
            then if Config.unshift cfg
                 then length (requests st) :: queueOf st x
                 else queueOf st x ++ [length (requests st)]
            else queueOf st x) ∧
      (∀ x, consumedOf st4 x = consumedOf st x) ∧
      (∀ x, maxOf st4 x = maxOf st x) ∧
      events st4 = events st ∧
      (∀ x, is_Some (defaults st !! x) → is_Some (defaults st4 !! x)) ∧
      is_Some (defaults st4 !! c) ∧ created st4).
  { intros a st2 cfg E1 E2 E3 E4 E5 E6 E7 Hc Hi Hr st3 st4. exists cfg.
    assert (Hq3 : ∀ x, queueOf st3 x = queueOf st x).
    { intros x. rewrite <- Hq. unfold queueOf, st3; fields. by rewrite E2. }
    subst st4. destruct (Config.unshift cfg); unfold configs, queueOf, consumedOf, maxOf in *;
      subst st3; fields; rewrite ?E1, ?E2, ?E3, ?E4, ?E5, ?E6, ?E7 in *.
    all: split_and!; try done.
    all: try (by rewrite fmap_app).
    all: try (intros x; destruct (decide (x = c)) as [->|];
              [by rewrite lookup_insert_eq, <- Hq|by rewrite lookup_insert_ne, <- Hq]).
    all: try (intros x; by rewrite <- ?Hco, <- ?Hm).
    all: try apply Hdom.
    all: apply (created_insert st1 _ c); [done|done|..]; fields; try congruence;
      intros x Hx; rewrite ?lookup_insert_ne by done; congruence. }
  destruct (ConfigIn.arguments configIn);
    try destruct (Defaults.arguments (defaultsOf st1 c)); cbv zeta.
  all: match goal with
       | |- context [set_requests (requests ?st2 ++ [ {| config := ?cfg; release_debug := ?a |} ])] =>
           specialize (Hfinal a st2 cfg)
       end.
  all: cbn [Config.category Config.inQueue Config.released Config.unshift] in Hfinal.
  all: apply Hfinal; done.
Qed.

(** ** Every step keeps the invariants *)

Lemma wf_ext st st' :
  wf st → configs st' = configs st →
  (∀ c, queueOf st' c = queueOf st c) →
  (∀ c, consumedOf st' c = consumedOf st c) →
  (∀ c, is_Some (defaults st !! c) → is_Some (defaults st' !! c)) →
  created st' → wf st'.
Proof.
  intros [] Hc Hq Hco Hd Hcr. split.
  - intros c. unfold sumRunning. rewrite Hco, Hc. auto.
  - intros c r. rewrite Hq, Hc. auto.
  - intros c. rewrite Hq. auto.
  - done.
  - intros r cfg. rewrite Hc. eauto.
Qed.

Lemma wf_same_reads st st' : wf st → same_reads st st' → wf st'.
Proof.
  intros Hwf []. eapply wf_ext; try done.
  unfold configs. congruence.
Qed.

Lemma configs_lookup st r q :
  requests st !! r = Some q → configs st !! r = Some (config q).
Proof. intros H. unfold configs. by rewrite list_lookup_fmap, H. Qed.

Lemma wf_queue_head st c r rest q :
  wf st → queueOf st c = r :: rest → requests st !! r = Some q →
  Config.category (config q) = c ∧ Config.inQueue (config q) = true ∧
  Config.released (config q) = false ∧ (r ∉ rest) ∧
  is_Some (defaults st !! c).
Proof.
  intros Hwf Hq Hr. apply configs_lookup in Hr.
  destruct (wf_queue st Hwf c r) as (cfg & Hl & Hcat & Hin & Hrel).
  { rewrite Hq. by left. }
  assert (cfg = config q) as -> by congruence.
  pose proof (wf_NoDup st Hwf c) as Hnd. rewrite Hq in Hnd.
  apply NoDup_cons in Hnd as [Hnotin _].
  split_and!; try done. rewrite <- Hcat. by eapply wf_category.
Qed.

Lemma runningAmount_queued c cfg :
  Config.inQueue cfg = true → runningAmount c cfg = 0.
Proof. intros H. unfold runningAmount, is_running. rewrite H. by case_decide. Qed.

Lemma runningAmount_released c cfg :
  Config.released cfg = true → runningAmount c cfg = 0.
Proof.
  intros H. unfold runningAmount, is_running. rewrite H, andb_false_r.
  by case_decide.
Qed.

Lemma runningAmount_running c cfg :
  Config.inQueue cfg = false → Config.released cfg = false →
  runningAmount c cfg = if decide (Config.category cfg = c) then Config.amount cfg else 0.
Proof. intros H1 H2. unfold runningAmount, is_running. by rewrite H1, H2. Qed.

Lemma commit_wf st c r rest q :
  wf st → queueOf st c = r :: rest → requests st !! r = Some q →
  wf (commit c r (config q) st).
Proof.
  intros Hwf Hq Hr.
  destruct (wf_queue_head st c r rest q Hwf Hq Hr) as (Hcat & Hin & Hrel & Hnotin & Hsome).
  destruct (commit_spec c r (config q) st) as (g & Hcfg & Hk & Hg & Hqs & Hcs & Hm & Hd & He).
  pose proof (configs_lookup _ _ _ Hr) as Hl.
  assert (Hqueue : ∀ x, queueOf (commit c r (config q) st) x =
                        if decide (x = c) then rest else queueOf st x).
  { intros x. unfold queueOf at 1. rewrite Hqs, Hq. simpl.
    case_decide as Hx; [subst; by rewrite lookup_insert_eq|by rewrite lookup_insert_ne]. }
  split.
  - intros x. unfold sumRunning, consumedOf at 1.
    rewrite Hcs, Hcfg, (sumWith_alter _ _ _ _ _ Hl).
    rewrite (runningAmount_queued x (config q)) by done.
    rewrite runningAmount_running; [|apply Hg|by rewrite (proj2 (Hg _))].
    destruct (Hk (config q)) as (Hkc & Hka & _). rewrite Hkc, Hka, Hcat.
    pose proof (wf_consumed st Hwf x) as Hx. unfold sumRunning in Hx.
    destruct (decide (c = x)) as [->|].
    + rewrite lookup_insert_eq. simpl. lia.
    + rewrite lookup_insert_ne by done. fold (consumedOf st x). lia.
  - intros x r'. rewrite Hqueue, Hcfg. intros Hin'.
    assert (r' ≠ r ∧ r' ∈ queueOf st x) as [Hne Hin''].
    { case_decide as Hx.
      - subst x. split; [by intros ->|]. rewrite Hq. by right.
      - split; [|done]. intros ->.
        destruct (wf_queue st Hwf x r Hin') as (cfg & Hl' & Hcat' & _). congruence. }
    rewrite list_lookup_alter_ne by done. by apply (wf_queue st Hwf).
  - intros x. rewrite Hqueue. pose proof (wf_NoDup st Hwf x) as Hnd.
    case_decide; [|done]. subst. rewrite Hq in Hnd. by apply NoDup_cons in Hnd as [_ ?].
  - apply (created_insert st _ c); [apply Hwf|done|done|..]; intros x Hx;
      rewrite ?Hqs, ?Hcs, ?Hm, ?lookup_insert_ne; try done.
    unfold commit. by destruct (Config.curryRelease _), (Config.debug _);
      rewrite ?duplicateDebugData_eq, ?update_config_eq; fields;
      rewrite lookup_insert_ne.
  - intros r' cfg. rewrite Hcfg, Hd. rewrite list_lookup_alter.
    case_decide; [subst r'|by apply (wf_category st Hwf)].
    rewrite Hl. intros [= <-]. rewrite (proj1 (Hk _)). by eapply wf_category.
Qed.

Lemma release_update_wf st r q :
  wf st → requests st !! r = Some q → Config.released (config q) = false →
  wf (release_update r (config q) st).
Proof.
  intros Hwf Hr Hrel.
  destruct (release_update_spec r (config q) st)
    as (g & Hcfg & Hk & Hg & Hm & Hd & He & Hrc & Hcase).
  pose proof (configs_lookup _ _ _ Hr) as Hl.
  set (c := Config.category (config q)) in *.
  set (st' := release_update r (config q) st) in *.
  assert (Hsome : is_Some (defaults st !! c)) by by eapply wf_category.
  assert (Hqueue : ∀ x, NoDup (queueOf st' x) ∧
                        ∀ r', r' ∈ queueOf st' x → r' ≠ r ∧ r' ∈ queueOf st x).
  { intros x. pose proof (wf_NoDup st Hwf x) as Hnd.
    destruct (Config.inQueue (config q)) eqn:Hin.
    - destruct Hcase as [_ Hqs]. unfold queueOf at 1 2. rewrite Hqs.
      destruct (decide (x = c)) as [->|Hx].
      + destruct (indexOf (queueOf st c) r) as [i|] eqn:Hi.
        * rewrite lookup_insert_eq. simpl. split; [by apply NoDup_delete_list|].
          intros r' Hr'. split; [|by eapply elem_of_delete_list].
          intros ->. revert Hr'. apply not_elem_of_delete_list; [done|].
          by apply indexOf_Some.
        * fold (queueOf st c). split; [done|]. intros r' Hr'. split; [|done].
          intros ->. by apply indexOf_None in Hi.
      + assert (queues st' !! x = queues st !! x) as Hsame.
        { rewrite Hqs. destruct (indexOf _ _); [|done]. by rewrite lookup_insert_ne. }
        rewrite Hqs in Hsame. rewrite Hsame. fold (queueOf st x). split; [done|].
        intros r' Hr'. split; [|done]. intros ->.
        destruct (wf_queue st Hwf x r Hr') as (cfg & Hl' & Hcat' & _).
        apply Hx. subst c. congruence.
    - destruct Hcase as [_ Hqs]. unfold queueOf at 1 2. rewrite Hqs.
      fold (queueOf st x). split; [done|]. intros r' Hr'. split; [|done].
      intros ->. destruct (wf_queue st Hwf x r Hr') as (cfg & Hl' & _ & Hin' & _).
      congruence. }
  destruct (Hk (config q)) as (Hkc & Hka & _). fold c in Hkc.
  split.
  - intros x. unfold sumRunning, consumedOf at 1.
    rewrite Hcfg, (sumWith_alter _ _ _ _ _ Hl).
    rewrite (runningAmount_released x (g (config q))) by apply Hg.
    pose proof (wf_consumed st Hwf x) as Hx. unfold sumRunning in Hx.
    destruct (Config.inQueue (config q)) eqn:Hin.
    + destruct Hcase as [-> _]. rewrite runningAmount_queued by done.
      fold (consumedOf st x). lia.
    + destruct Hcase as [-> _]. rewrite runningAmount_running by done. fold c.
      destruct (decide (c = x)) as [->|].
      * rewrite lookup_insert_eq. simpl. lia.
      * rewrite lookup_insert_ne by done. fold (consumedOf st x). lia.
  - intros x r' Hr'. destruct (proj2 (Hqueue x) r' Hr') as [Hne Hin'].
    rewrite Hcfg, list_lookup_alter_ne by done. by apply (wf_queue st Hwf).
  - intros x. apply Hqueue.
  - apply (created_insert st _ c); [apply Hwf|done|done|..]; intros x Hx; try congruence.
    + destruct (Config.inQueue (config q)); destruct Hcase as [_ ->]; [|done].
      destruct (indexOf _ _); [|done]. by rewrite lookup_insert_ne.
    + destruct (Config.inQueue (config q)); destruct Hcase as [-> _]; [done|].
      by rewrite lookup_insert_ne.
  - intros r' cfg. rewrite Hcfg, Hd, list_lookup_alter.
    case_decide; [subst r'|by apply (wf_category st Hwf)].
    rewrite Hl. intros [= <-]. by rewrite Hkc.
Qed.

Lemma enqueue_wf st configIn : wf st → wf (enqueue configIn st).2.
Proof.
  intros Hwf.
  destruct (enqueue_spec configIn st (wf_created st Hwf))
    as (cfg & Hcfg & Hcat & Hin & Hrel & Hq & Hco & Hm & He & Hd & Hsome & Hcr).
  set (c := (enqueue configIn st).1) in *.
  set (st' := (enqueue configIn st).2) in *.
  assert (Hlen : length (configs st) = length (requests st)).
  { unfold configs. by rewrite length_fmap. }
  assert (Hold : ∀ x r, r ∈ queueOf st x → (r < length (requests st))%nat).
  { intros x r Hr. destruct (wf_queue st Hwf x r Hr) as (cfg' & Hl & _).
    apply lookup_lt_Some in Hl. lia. }
  split.
  - intros x. unfold sumRunning. rewrite Hco, Hcfg, sumWith_app. simpl.
    rewrite runningAmount_queued by done.
    pose proof (wf_consumed st Hwf x) as Hx. unfold sumRunning in Hx. lia.
  - intros x r. rewrite Hq, Hcfg. intros Hr.
    assert (r ∈ queueOf st x ∨ (r = length (requests st) ∧ x = c)) as [Hr'|[E1 E2]].
    { case_decide; [|by left]. destruct (Config.unshift cfg).
      - apply elem_of_cons in Hr as [->|?]; auto.
      - apply elem_of_app in Hr as [?|Hs%list_elem_of_singleton]; auto. }
    + destruct (wf_queue st Hwf x r Hr') as (cfg' & Hl & ?).
      exists cfg'. split; [|done]. by apply lookup_app_l_Some.
    + subst r x. exists cfg. split; [|done].
      rewrite lookup_app_r by lia. by rewrite Hlen, Nat.sub_diag.
  - intros x. rewrite Hq. pose proof (wf_NoDup st Hwf x) as Hnd.
    assert (length (requests st) ∉ queueOf st x).
    { intros ?%Hold. lia. }
    case_decide; [|done]. destruct (Config.unshift cfg).
    + by apply NoDup_cons.
    + apply NoDup_app. split_and!; [done| |apply NoDup_singleton].
      intros y Hy Hs%list_elem_of_singleton. by subst.
  - done.
  - intros r cfg'. rewrite Hcfg. intros Hl.
    apply lookup_app_Some in Hl as [Hl|[_ Hl]].
    + apply Hd. by eapply wf_category.
    + destruct (r - length (configs st))%nat as [|k]; simpl in Hl; [|by destruct k].
      injection Hl as <-. by rewrite Hcat.
Qed.

Lemma wf_fields st st' :
  wf st → requests st' = requests st → queues st' = queues st →
  consumed st' = consumed st → defaults st' = defaults st → max st' = max st →
  categoryRunCount st' = categoryRunCount st → wf st'.
Proof.
  intros Hwf E1 E2 E3 E4 E5 E6. apply (wf_ext st); try done.
  - unfold configs. by rewrite E1.
  - intros c. unfold queueOf. by rewrite E2.
  - intros c. unfold consumedOf. by rewrite E3.
  - intros c. by rewrite E4.
  - apply (created_ext st); try done. apply Hwf.
Qed.

Lemma set_defaults_wf st c d : wf st → wf (set_defaults c d st).
Proof.
  intros Hwf. apply (wf_ext st); try done.
  - intros x Hx. fields. destruct (decide (c = x)) as [->|];
      [by rewrite lookup_insert_eq|by rewrite lookup_insert_ne].
  - intros x. fields. destruct (decide (c = x)) as [->|];
      [by rewrite lookup_insert_eq|]. rewrite lookup_insert_ne by done.
    apply Hwf.
Qed.

Lemma createCategory_wf st category : wf st → wf (createCategory category st).2.
Proof.
  intros Hwf. eapply wf_same_reads; [done|].
  apply createCategory_reads, Hwf.
Qed.

Lemma step_wf st st' : step st st' → wf st → wf st'.
Proof.
  intros Hstep Hwf. destruct Hstep.
  - by apply (wf_fields st).
  - apply (wf_fields (commit c r (config q) st)); try done.
    by apply (commit_wf st c r rest q).
  - by apply release_update_wf.
  - by apply enqueue_wf.
  - destruct (createCategory_reads category st (wf_created st Hwf)) as [Hsr Hsome].
    pose proof (createCategory_wf st category Hwf) as Hwf1.
    apply (wf_ext (createCategory category st).2); try done.
    apply (created_insert (createCategory category st).2 _ (createCategory category st).1);
      try done; [apply Hwf1|]. intros x Hx. fields. by rewrite lookup_insert_ne.
  - by apply createCategory_wf.
  - rewrite onDrain_eq.
    by apply set_defaults_wf, createCategory_wf.
  - unfold setDefaultCategory. rewrite createCategory_eta.
    apply (wf_fields (createCategory category st).2); try done.
    by apply createCategory_wf.
  - unfold setCategoryDefaults. rewrite createCategory_eta.
    by apply set_defaults_wf, createCategory_wf.
  - by apply (wf_fields st).
  - by apply (wf_fields st).
  - unfold unshiftDebugArguments.
    destruct (requests st !! r) as [q|]; [|done].
    destruct (release_debug q); [|done].
    by apply (wf_fields st).
Qed.

Lemma steps_wf st st' : rtc step st st' → wf st → wf st'.
Proof. induction 1; eauto using step_wf. Qed.

Lemma initial_wf : wf initial.
Proof.
  split; try done.
  - intros c r Hr. by apply elem_of_nil in Hr.
  - intros c. apply NoDup_nil_2.
Qed.

(** ** Every step keeps the order of submission *)

Lemma filter_ext_elem {A} (P Q : A → Prop) `{!∀ x, Decision (P x)} `{!∀ x, Decision (Q x)}
    (l : list A) :
  (∀ x, x ∈ l → P x ↔ Q x) → filter P l = filter Q l.
Proof.
  induction l as [|x l IH]; intros Hext; [done|].
  rewrite !filter_cons. rewrite IH by (intros y Hy; apply Hext; by right).
  destruct (decide (P x)) as [HP|HP], (decide (Q x)) as [HQ|HQ]; try done.
  - destruct HQ. apply Hext; [by left|done].
  - destruct HP. apply Hext; [by left|done].
Qed.

Lemma filter_sublist_mono {A} (P : A → Prop) `{!∀ x, Decision (P x)} (l k : list A) :
  l `sublist_of` k → filter P l `sublist_of` filter P k.
Proof.
  induction 1 as [|x l k _ IH|x l k _ IH]; [done| |].
  - rewrite !filter_cons. destruct (decide (P x)); [by constructor|done].
  - rewrite filter_cons. destruct (decide (P x)); [by constructor|done].
Qed.

Lemma StronglySorted_sublist {A} (R : A → A → Prop) (l k : list A) :
  l `sublist_of` k → StronglySorted R k → StronglySorted R l.
Proof.
  induction 1 as [|x l k Hs IH|x l k Hs IH]; [done| |].
  - intros [Hall Hk]%StronglySorted_cons. apply StronglySorted_cons. split; [|auto].
    rewrite Forall_forall in *. intros y Hy. apply Hall. by eapply elem_of_sublist.
  - intros [_ Hk]%StronglySorted_cons. auto.
Qed.

Lemma is_fifo_alter g l c r x :
  keeps g → is_fifo (alter g r l) c x = is_fifo l c x.
Proof.
  intros Hk. unfold is_fifo. rewrite list_lookup_alter.
  case_decide; [subst|done]. destruct (l !! x) as [cfg|]; [simpl|done].
  destruct (Hk cfg) as (-> & _ & -> & _). done.
Qed.

Lemma is_fifo_app l cfg c x :
  (x < length l)%nat → is_fifo (l ++ [cfg]) c x = is_fifo l c x.
Proof. intros H. unfold is_fifo. by rewrite lookup_app_l. Qed.

Lemma is_fifo_category l c r cfg :
  l !! r = Some cfg → is_fifo l c r → Config.category cfg = c.
Proof.
  unfold is_fifo. intros ->. intros [H _]%andb_prop_elim. by apply bool_decide_unpack in H.
Qed.

Lemma started_log_Invoked r fn this args st :
  started (log (Invoked r fn this args) st) = started st ++ [r].
Proof. unfold started. simpl. by rewrite omap_app. Qed.

Lemma started_log_Drained c fn st :
  started (log (Drained c fn) st) = started st.
Proof. unfold started. simpl. by rewrite omap_app, app_nil_r. Qed.

Lemma ordered_ext st st' :
  ordered st → configs st' = configs st → started st' = started st →
  (∀ c, queueOf st' c = queueOf st c) → ordered st'.
Proof.
  intros [H1 H2] Hc He Hq. split.
  - intros r. rewrite He, Hc. apply H1.
  - intros c. rewrite He, Hc, Hq. apply H2.
Qed.

Lemma ordered_fields st st' :
  ordered st → requests st' = requests st → events st' = events st →
  queues st' = queues st → ordered st'.
Proof.
  intros H E1 E2 E3. apply (ordered_ext st); try done.
  - unfold configs. by rewrite E1.
  - unfold started. by rewrite E2.
  - intros c. unfold queueOf. by rewrite E3.
Qed.

Lemma ordered_same_reads st st' : ordered st → same_reads st st' → ordered st'.
Proof.
  intros H []. apply (ordered_ext st); try done.
  - unfold configs. congruence.
  - unfold started. congruence.
Qed.

Lemma commit_ordered st c r rest q :
  wf st → ordered st → queueOf st c = r :: rest → requests st !! r = Some q →
  ordered
    (log (Invoked r (Config.callback (config q)) (Config.context (config q))
            (arrayOf (commit c r (config q) st) (Config.arguments (config q))))
       (commit c r (config q) st)).
Proof.
  intros Hwf [Hst Hso] Hq Hr.
  destruct (wf_queue_head st c r rest q Hwf Hq Hr) as (Hcat & Hin & Hrel & Hnotin & Hsome).
  destruct (commit_spec c r (config q) st) as (g & Hcfg & Hk & Hg & Hqs & Hcs & Hm & Hd & He).
  pose proof (configs_lookup _ _ _ Hr) as Hl.
  set (st' := log _ _).
  assert (Hcfg' : configs st' = alter g r (configs st)) by done.
  assert (Hstarted : started st' = started st ++ [r]).
  { unfold st'. rewrite started_log_Invoked. unfold started. by rewrite He. }
  assert (Hqueue : ∀ x, queueOf st' x = if decide (x = c) then rest else queueOf st x).
  { intros x. unfold queueOf at 1. unfold st'. fields. rewrite Hqs, Hq. simpl.
    case_decide as Hx; [subst; by rewrite lookup_insert_eq|by rewrite lookup_insert_ne]. }
  split.
  - intros r'. rewrite Hstarted, Hcfg', length_alter.
    intros [?|Hs%list_elem_of_singleton]%elem_of_app; [auto|]. subst.
    by eapply lookup_lt_Some.
  - intros x. rewrite Hstarted, Hcfg', Hqueue.
    rewrite (filter_ext_elem _ (λ y, is_fifo (configs st) x y))
      by (intros y _; by rewrite is_fifo_alter).
    specialize (Hso x). case_decide as Hx.
    + subst x. rewrite <- app_assoc. simpl. by rewrite <- Hq.
    + rewrite <- app_assoc. simpl.
      rewrite filter_app, filter_cons_False, <- filter_app; [done|].
      intros Hf. apply Hx. symmetry. rewrite <- Hcat. by eapply is_fifo_category.
Qed.

Lemma release_update_queueOf r cfg st x :
  queueOf (release_update r cfg st) x `sublist_of` queueOf st x.
Proof.
  destruct (release_update_spec r cfg st) as (g & _ & _ & _ & _ & _ & _ & _ & Hcase).
  unfold queueOf at 1.
  destruct (Config.inQueue cfg); destruct Hcase as [_ ->]; [|done].
  destruct (indexOf _ _) as [i|]; [|done].
  destruct (decide (Config.category cfg = x)) as [<-|].
  - rewrite lookup_insert_eq. simpl. apply sublist_delete.
  - by rewrite lookup_insert_ne.
Qed.

Lemma release_update_ordered st r q :
  ordered st → ordered (release_update r (config q) st).
Proof.
  intros [Hst Hso].
  destruct (release_update_spec r (config q) st)
    as (g & Hcfg & Hk & Hg & Hm & Hd & He & Hrc & Hcase).
  split.
  - intros r'. unfold started. rewrite He, Hcfg, length_alter. apply Hst.
  - intros x. unfold started. rewrite He, Hcfg.
    rewrite (filter_ext_elem _ (λ y, is_fifo (configs st) x y))
      by (intros y _; by rewrite is_fifo_alter).
    eapply StronglySorted_sublist; [|apply (Hso x)].
    apply filter_sublist_mono, sublist_app; [done|apply release_update_queueOf].
Qed.

Lemma enqueue_ordered st configIn :
  wf st → ordered st → ordered (enqueue configIn st).2.
Proof.
  intros Hwf [Hst Hso].
  destruct (enqueue_spec configIn st (wf_created st Hwf))
    as (cfg & Hcfg & Hcat & Hin & Hrel & Hq & Hco & Hm & He & Hd & Hsome & Hcr).
  set (c := (enqueue configIn st).1) in *.
  set (st' := (enqueue configIn st).2) in *.
  assert (Hlen : length (configs st) = length (requests st)).
  { unfold configs. by rewrite length_fmap. }
  assert (Hold : ∀ x r, r ∈ started st ++ queueOf st x → (r < length (configs st))%nat).
  { intros x r [?|Hr]%elem_of_app; [auto|].
    destruct (wf_queue st Hwf x r Hr) as (cfg' & Hl & _).
    by apply lookup_lt_Some in Hl. }
  assert (Hstarted : started st' = started st) by (unfold started; by rewrite He).
  assert (Hfilter : ∀ x,
    filter (λ r, is_fifo (configs st') x r) (started st ++ queueOf st x) =
    filter (λ r, is_fifo (configs st) x r) (started st ++ queueOf st x)).
  { intros x. apply filter_ext_elem. intros y Hy. rewrite Hcfg, is_fifo_app; [done|].
    by eapply Hold. }
  assert (Hnew : is_fifo (configs st') c (length (requests st)) =
                 negb (Config.unshift cfg)).
  { unfold is_fifo. rewrite Hcfg, lookup_app_r by lia.
    rewrite Hlen, Nat.sub_diag. simpl. by rewrite bool_decide_true. }
  split.
  - intros r. rewrite Hstarted, Hcfg, length_app. intros ?%Hst. lia.
  - intros x. rewrite Hstarted, Hq. case_decide as Hx; [subst x|by rewrite Hfilter].
    destruct (Config.unshift cfg) eqn:Hu.
    + rewrite filter_app, filter_cons_False, <- filter_app, Hfilter; [done|].
      rewrite Hnew. by intros [].
    + rewrite app_assoc, filter_app, Hfilter.
      rewrite filter_cons_True, filter_nil by (by rewrite Hnew).
      apply StronglySorted_app. split_and!; [|done|repeat constructor].
      intros y z [_ Hy]%list_elem_of_filter Hz%list_elem_of_singleton. subst z.
      rewrite <- Hlen. by eapply Hold.
Qed.

Lemma step_ordered st st' : step st st' → wf st → ordered st → ordered st'.
Proof.
  intros Hstep Hwf Hord. destruct Hstep.
  - apply (ordered_ext st); try done. apply started_log_Drained.
  - by eapply commit_ordered.
  - by apply release_update_ordered.
  - by apply enqueue_ordered.
  - apply (ordered_fields (createCategory category st).2); try done.
    eapply ordered_same_reads; [done|]. apply createCategory_reads, Hwf.
  - eapply ordered_same_reads; [done|]. apply createCategory_reads, Hwf.
  - rewrite onDrain_eq.
    apply (ordered_fields (createCategory (onDrain_arguments category fn).1 st).2); try done.
    eapply ordered_same_reads; [done|]. apply createCategory_reads, Hwf.
  - unfold setDefaultCategory. rewrite createCategory_eta.
    apply (ordered_fields (createCategory category st).2); try done.
    eapply ordered_same_reads; [done|]. apply createCategory_reads, Hwf.
  - unfold setCategoryDefaults. rewrite createCategory_eta.
    apply (ordered_fields (createCategory category st).2); try done.
    eapply ordered_same_reads; [done|]. apply createCategory_reads, Hwf.
  - by apply (ordered_fields st).
  - by apply (ordered_fields st).
  - unfold unshiftDebugArguments.
    destruct (requests st !! r) as [q|]; [|done].
    destruct (release_debug q); [|done].
    by apply (ordered_fields st).
Qed.

Lemma steps_ordered st st' :
  rtc step st st' → wf st → ordered st → wf st' ∧ ordered st'.
Proof.
  induction 1 as [|st1 st2 st3 Hs _ IH]; [done|].
  intros Hwf Hord. apply IH; [by eapply step_wf|by eapply step_ordered].
Qed.

Lemma initial_ordered : ordered initial.
Proof.
  split.
  - intros r Hr. by apply elem_of_nil in Hr.
  - intros c. constructor.
Qed.

Lemma sorted_before (l : list nat) a b :
  StronglySorted lt l → a ∈ l → b ∈ l → (a < b)%nat → before a b l.
Proof.
  intros Hs Ha Hb Hab.
  apply list_elem_of_split in Ha as (l1 & l2 & ->).
  apply StronglySorted_app in Hs as (H12 & _ & H2).
  apply StronglySorted_cons in H2 as [H2 _]. rewrite Forall_forall in H2.
  apply elem_of_app in Hb as [Hb|Hb].
  - assert (b < a)%nat; [|lia]. apply H12; [done|by left].
  - apply elem_of_cons in Hb as [->|Hb]; [lia|].
    apply list_elem_of_split in Hb as (l3 & l4 & ->). by exists l1, l3, l4.
Qed.

Lemma before_cons x a b l : before a b l → before a b (x :: l).
Proof. intros (l1 & l2 & l3 & ->). by exists (x :: l1), l2, l3. Qed.

Lemma before_filter (P : nat → Prop) `{!∀ x, Decision (P x)} a b l :
  before a b (filter P l) → before a b l.
Proof.
  induction l as [|x l IH]; intros Hb.
  - destruct Hb as ([|??] & ? & ? & ?); done.
  - rewrite filter_cons in Hb. destruct (decide (P x)); [|by apply before_cons, IH].
    destruct Hb as ([|y l1] & l2 & l3 & Hb); simpl in Hb; injection Hb as -> Hb.
    + assert (b ∈ l) as (l4 & l5 & ->)%list_elem_of_split.
      { eapply (proj1 (list_elem_of_filter P l b)). rewrite Hb.
        apply elem_of_app. right. by left. }
      by exists [], l4, l5.
    + apply before_cons, IH. by exists l1, l2, l3.
Qed.

(** ** The life of a request *)

Lemma evolves_refl cfg : evolves cfg cfg.
Proof. by split. Qed.

Lemma evolves_trans cfg1 cfg2 cfg3 :
  evolves cfg1 cfg2 → evolves cfg2 cfg3 → evolves cfg1 cfg3.
Proof. intros [] []. split; try congruence; auto. Qed.

Lemma evolves_alter g r0 (l : list Config.t) r cfg :
  keeps g →
  (∀ x, (Config.inQueue x = false → Config.inQueue (g x) = false) ∧
        (Config.released x = true → Config.released (g x) = true)) →
  l !! r = Some cfg →
  ∃ cfg', alter g r0 l !! r = Some cfg' ∧ evolves cfg cfg'.
Proof.
  intros Hk Hg Hl. rewrite list_lookup_alter. case_decide.
  - subst. rewrite Hl. simpl. eexists. split; [done|].
    destruct (Hk cfg) as (? & ? & ? & ? & ? & ?). destruct (Hg cfg). by split.
  - eauto using evolves_refl.
Qed.

Lemma step_evolves st st' r cfg :
  step st st' → wf st → configs st !! r = Some cfg →
  ∃ cfg', configs st' !! r = Some cfg' ∧ evolves cfg cfg'.
Proof.
  intros Hstep Hwf Hl.
  assert (Hsame : ∀ st1, requests st1 = requests st →
            ∃ cfg', configs st1 !! r = Some cfg' ∧ evolves cfg cfg').
  { intros st1 E. exists cfg. unfold configs in *. rewrite E. auto using evolves_refl. }
  assert (Hcreate : ∀ category st1,
            requests st1 = requests (createCategory category st).2 →
            ∃ cfg', configs st1 !! r = Some cfg' ∧ evolves cfg cfg').
  { intros category st1 E. apply Hsame. rewrite E.
    apply createCategory_reads, Hwf. }
  destruct Hstep; try (by apply Hsame); try (by eapply Hcreate);
    try (rewrite onDrain_eq; by eapply Hcreate).
  - destruct (commit_spec c r0 (config q) st) as (g & Hcfg & Hk & Hg & _).
    change (configs (log _ ?s)) with (configs s). rewrite Hcfg.
    apply evolves_alter; [done| |done]. intros x. destruct (Hg x) as [-> ->]. auto.
  - destruct (release_update_spec r0 (config q) st) as (g & Hcfg & Hk & Hg & _).
    rewrite Hcfg. apply evolves_alter; [done| |done].
    intros x. destruct (Hg x) as [-> ->]. auto.
  - destruct (enqueue_spec configIn st (wf_created st Hwf)) as (cfg0 & -> & _).
    exists cfg. split; [by apply lookup_app_l_Some|apply evolves_refl].
  - unfold unshiftDebugArguments.
    destruct (requests st !! r0) as [q|]; [|by apply Hsame].
    destruct (release_debug q); by apply Hsame.
Qed.

Lemma steps_evolves st st' r cfg :
  rtc step st st' → wf st → configs st !! r = Some cfg →
  ∃ cfg', configs st' !! r = Some cfg' ∧ evolves cfg cfg'.
Proof.
  intros Hsteps. revert cfg. induction Hsteps as [|st1 st2 st3 Hs _ IH]; intros cfg Hwf Hl.
  - eauto using evolves_refl.
  - destruct (step_evolves _ _ _ _ Hs Hwf Hl) as (cfg2 & Hl2 & He2).
    destruct (IH cfg2 (step_wf _ _ Hs Hwf) Hl2) as (cfg3 & Hl3 & He3).
    eauto using evolves_trans.
Qed.

(** ** Arrays *)

Lemma commit_arrays c r cfg st :
  arrays (commit c r cfg st) =
  if Config.curryRelease cfg
  then <[Config.arguments cfg := VRelease r :: arrayOf st (Config.arguments cfg)]> (arrays st)
  else arrays st.
Proof.
  unfold commit. rewrite !update_config_eq, !duplicateDebugData_eq.
  by destruct (Config.curryRelease cfg), (Config.debug cfg).
Qed.

Lemma createCategory_Some c st : (createCategory (Some c) st).1 = c.
Proof. done. Qed.

Lemma createCategory_arrays category st :
  arrays (createCategory category st).2 = arrays st.
Proof.
  unfold createCategory.
  destruct category, (defaultCategory st); simpl;
    repeat (match goal with |- context [match ?x with _ => _ end] => destruct x end; simpl);
    done.
Qed.

Lemma createCategory_requests category st :
  requests (createCategory category st).2 = requests st.
Proof.
  unfold createCategory.
  destruct category, (defaultCategory st); simpl;
    repeat (match goal with |- context [match ?x with _ => _ end] => destruct x end; simpl);
    done.
Qed.

(** ** The record of events *)

Lemma drains_when_idle_same st st' : events st' = events st → drains_when_idle st st'.
Proof.
  intros E c fn Hev. rewrite E in Hev. apply (f_equal length) in Hev.
  rewrite length_app in Hev. simpl in Hev. lia.
Qed.

Lemma step_drains_when_idle st st' : step st st' → wf st → drains_when_idle st st'.
Proof.
  intros Hstep Hwf.
  assert (Hcreate : ∀ category, events (createCategory category st).2 = events st).
  { intros category. apply createCategory_reads, Hwf. }
  destruct Hstep.
  - intros c' fn' [_ [= <- <-]]%app_inj_tail. done.
  - intros c' fn' Hev. cbn [log events] in Hev.
    destruct (commit_spec c r (config q) st) as (g & _ & _ & _ & _ & _ & _ & _ & He).
    rewrite He in Hev. by apply app_inj_tail in Hev as [_ ?].
  - apply drains_when_idle_same.
    by destruct (release_update_spec r (config q) st) as (g & _ & _ & _ & _ & _ & He & _).
  - apply drains_when_idle_same.
    by destruct (enqueue_spec configIn st (wf_created st Hwf))
      as (cfg & _ & _ & _ & _ & _ & _ & _ & He & _).
  - apply drains_when_idle_same, Hcreate.
  - apply drains_when_idle_same, Hcreate.
  - apply drains_when_idle_same. rewrite onDrain_eq.
    apply Hcreate.
  - apply drains_when_idle_same. unfold setDefaultCategory. rewrite createCategory_eta.
    apply Hcreate.
  - apply drains_when_idle_same. unfold setCategoryDefaults. rewrite createCategory_eta.
    apply Hcreate.
  - by apply drains_when_idle_same.
  - by apply drains_when_idle_same.
  - apply drains_when_idle_same. unfold unshiftDebugArguments.
    destruct (requests st !! r) as [q|]; [|done]. by destruct (release_debug q).
Qed.

Lemma steps_drain_when_idle st st' :
  rtc step st st' → wf st → rtc (λ s s', step s s' ∧ drains_when_idle s s') st st'.
Proof.
  induction 1 as [|st1 st2 st3 Hs _ IH]; [done|]. intros Hwf.
  eapply rtc_l; [split; [done|by apply step_drains_when_idle]|].
  apply IH. by eapply step_wf.
Qed.

(** ** What a start and a release write, exactly *)

Lemma commit_requests c r cfg st :
  requests (commit c r cfg st) =
  alter (λ q, with_copy (Config.debug cfg) (started_config st c cfg (config q)) q) r
    (requests st).
Proof.
  unfold commit. rewrite !update_config_eq, !duplicateDebugData_eq.
  unfold started_config, with_copy, runCountOf.
  destruct (Config.curryRelease cfg), (Config.debug cfg); fields;
    rewrite ?list_alter_alter_eq; by apply list_alter_ext.
Qed.

Lemma release_update_requests r cfg st :
  requests (release_update r cfg st) =
  alter (λ q, with_copy (Config.debug cfg) (released_config st cfg (config q)) q) r
    (requests st).
Proof.
  unfold release_update. rewrite !update_config_eq, !duplicateDebugData_eq.
  unfold released_config, with_copy.
  destruct (Config.inQueue cfg), (Config.debug cfg); try destruct (indexOf _ _); fields;
    rewrite ?list_alter_alter_eq; by apply list_alter_ext.
Qed.

Lemma commit_configs c r cfg st :
  configs (commit c r cfg st) = alter (started_config st c cfg) r (configs st).
Proof.
  unfold configs. rewrite commit_requests.
  apply list_fmap_alter, Forall_true. done.
Qed.

Lemma release_update_configs r cfg st :
  configs (release_update r cfg st) = alter (released_config st cfg) r (configs st).
Proof.
  unfold configs. rewrite release_update_requests.
  apply list_fmap_alter, Forall_true. done.
Qed.

Lemma commit_counts c r cfg st :
  globalRunCount (commit c r cfg st) = S (globalRunCount st) ∧
  categoryRunCount (commit c r cfg st) =
    <[c := S (runCountOf st c)]> (categoryRunCount st).
Proof.
  unfold commit. rewrite !update_config_eq, !duplicateDebugData_eq.
  by destruct (Config.curryRelease cfg), (Config.debug cfg).
Qed.

Lemma release_update_globalRunCount r cfg st :
  globalRunCount (release_update r cfg st) = globalRunCount st.
Proof.
  unfold release_update. rewrite !update_config_eq, !duplicateDebugData_eq.
  by destruct (Config.inQueue cfg), (Config.debug cfg); try destruct (indexOf _ _).
Qed.

Lemma started_config_fields st c cfg x :
  Config.category (started_config st c cfg x) = Config.category x ∧
  Config.debug (started_config st c cfg x) = Config.debug x ∧
  Config.inQueue (started_config st c cfg x) = false ∧
  (Config.debug cfg = true →
   Config.globalRunIndex (started_config st c cfg x) = Some (globalRunCount st) ∧
   Config.categoryRunIndex (started_config st c cfg x) = Some (runCountOf st c)).
Proof. unfold started_config. by destruct (Config.debug cfg). Qed.

Lemma released_config_fields st cfg x :
  Config.category (released_config st cfg x) = Config.category x ∧
  Config.debug (released_config st cfg x) = Config.debug x ∧
  Config.inQueue (released_config st cfg x) = Config.inQueue x ∧
  Config.globalRunIndex (released_config st cfg x) = Config.globalRunIndex x ∧
  Config.categoryRunIndex (released_config st cfg x) = Config.categoryRunIndex x.
Proof. unfold released_config. by destruct (Config.debug cfg). Qed.

Lemma in_category_alter g r l c x :
  (∀ y, Config.category (g y) = Config.category y) →
  in_category (alter g r l) c x = in_category l c x.
Proof.
  intros Hg. unfold in_category. rewrite list_lookup_alter.
  case_decide; [subst|done]. destruct (l !! x) as [cfg|]; [simpl|done].
  by rewrite Hg.
Qed.

Lemma in_category_app l cfg c x :
  (x < length l)%nat → in_category (l ++ [cfg]) c x = in_category l c x.
Proof. intros H. unfold in_category. by rewrite lookup_app_l. Qed.

Lemma enqueue_requests configIn st :
  ∃ q,
    requests (enqueue configIn st).2 = requests st ++ [q] ∧
    release_debug q = (if Config.debug (config q) then Some (config q) else None) ∧
    Config.inQueue (config q) = true ∧
    Config.globalRunIndex (config q) = None ∧
    Config.categoryRunIndex (config q) = None ∧
    globalRunCount (enqueue configIn st).2 =
      globalRunCount (createCategory (ConfigIn.category configIn) st).2 ∧
    categoryRunCount (enqueue configIn st).2 =
      categoryRunCount (createCategory (ConfigIn.category configIn) st).2.
Proof.
  unfold enqueue.
  rewrite (createCategory_eta (ConfigIn.category configIn) st).
  destruct (ConfigIn.arguments configIn);
    try destruct (Defaults.arguments _); cbv zeta;
    match goal with
    | |- context [if ?u then set_queue _ _ _ else _] => destruct u
    end; cbn [fst snd]; fields; rewrite createCategory_requests;
    eexists; (split; [done|]); by cbn.
Qed.

(** ** Every step keeps the history *)

Lemma history_ext st st' :
  history st → requests st' = requests st → started st' = started st →
  globalRunCount st' = globalRunCount st →
  (∀ c, runCountOf st' c = runCountOf st c) → history st'.
Proof.
  intros H E1 E2 E3 E4.
  assert (Ec : configs st' = configs st) by (unfold configs; by rewrite E1).
  split.
  - intros r. rewrite E2, Ec. apply (hist_bound st H).
  - rewrite E2. apply (hist_NoDup st H).
  - intros r cfg. rewrite E2, Ec. apply (hist_out st H).
  - rewrite E2, E3. apply (hist_global st H).
  - intros c. rewrite E2, E4, Ec. apply (hist_category st H).
  - intros r cfg. rewrite E2, Ec. apply (hist_index st H).
  - intros r q. rewrite E1. apply (hist_copy st H).
Qed.

Lemma history_fields st st' :
  history st → requests st' = requests st → events st' = events st →
  globalRunCount st' = globalRunCount st →
  categoryRunCount st' = categoryRunCount st → history st'.
Proof.
  intros H E1 E2 E3 E4. apply (history_ext st); try done.
  - unfold started. by rewrite E2.
  - intros c. unfold runCountOf. by rewrite E4.
Qed.

Lemma history_same_reads st st' : history st → same_reads st st' → history st'.
Proof.
  intros H []. apply (history_ext st); try done. unfold started. congruence.
Qed.

Lemma commit_history st c r rest q :
  wf st → history st → queueOf st c = r :: rest → requests st !! r = Some q →
  history
    (log (Invoked r (Config.callback (config q)) (Config.context (config q))
            (arrayOf (commit c r (config q) st) (Config.arguments (config q))))
       (commit c r (config q) st)).
Proof.
  intros Hwf Hh Hq Hr.
  destruct (wf_queue_head st c r rest q Hwf Hq Hr) as (Hcat & Hin & Hrel & Hnotin & Hsome).
  pose proof (configs_lookup _ _ _ Hr) as Hl.
  set (cfg := config q) in *. set (g := started_config st c cfg).
  set (st' := log _ _).
  assert (Hcfg : configs st' = alter g r (configs st)) by apply commit_configs.
  assert (Hreq : requests st' =
                 alter (λ q0, with_copy (Config.debug cfg) (g (config q0)) q0) r (requests st))
    by apply commit_requests.
  assert (Hstarted : started st' = started st ++ [r]).
  { unfold st'. rewrite started_log_Invoked. unfold started.
    by destruct (commit_spec c r cfg st) as (? & _ & _ & _ & _ & _ & _ & _ & ->). }
  destruct (commit_counts c r cfg st) as [Hg Hc].
  assert (Hgf : ∀ y, Config.category (g y) = Config.category y)
    by (intros y; apply started_config_fields).
  assert (Hnew : r ∉ started st).
  { intros Hs. apply (hist_out st Hh r cfg Hl) in Hs. congruence. }
  assert (Hfilter : ∀ x,
    filter (λ r0, in_category (configs st') x r0) (started st') =
    filter (λ r0, in_category (configs st) x r0) (started st) ++
    (if decide (x = c) then [r] else [])).
  { intros x. rewrite Hstarted, Hcfg, filter_app. f_equal.
    - apply filter_ext_elem. intros y _. by rewrite in_category_alter.
    - assert (in_category (alter g r (configs st)) x r = bool_decide (c = x)) as Hx.
      { rewrite in_category_alter by done. unfold in_category. by rewrite Hl, Hcat. }
      destruct (decide (x = c)) as [->|Hd].
      + rewrite filter_cons_True; [done|]. rewrite Hx. by apply bool_decide_pack.
      + rewrite filter_cons_False; [done|]. rewrite Hx.
        intros Hb%bool_decide_unpack. by subst. }
  subst g. split.
  - intros r'. rewrite Hstarted, Hcfg, length_alter.
    intros [?|Hs%list_elem_of_singleton]%elem_of_app; [by apply (hist_bound st Hh)|].
    subst. by eapply lookup_lt_Some.
  - rewrite Hstarted. apply NoDup_app. split_and!.
    + apply (hist_NoDup st Hh).
    + intros x Hx Hs%list_elem_of_singleton. by subst.
    + apply NoDup_singleton.
  - intros r' cfg'. rewrite Hstarted, Hcfg, list_lookup_alter, elem_of_app, list_elem_of_singleton.
    case_decide as Hd.
    + subst r'. rewrite Hl. intros [= <-]. split; [intros _|by right].
      apply started_config_fields.
    + intros Hl'. rewrite <- (hist_out st Hh r' cfg' Hl'). split; [|by left].
      intros [?|?]; [done|by subst].
  - change (globalRunCount st') with (globalRunCount (commit c r cfg st)).
    rewrite Hg, Hstarted, length_app, (hist_global st Hh). simpl. lia.
  - intros x. rewrite Hfilter, length_app, <- (hist_category st Hh x).
    unfold runCountOf at 1.
    change (categoryRunCount st') with (categoryRunCount (commit c r cfg st)). rewrite Hc.
    case_decide as Hd.
    + subst x. rewrite lookup_insert_eq. simpl. lia.
    + rewrite lookup_insert_ne by done. fold (runCountOf st x). simpl. lia.
  - intros r' cfg'. rewrite Hcfg, list_lookup_alter.
    case_decide as Hd.
    + subst r'. rewrite Hl. intros [= <-] Hdebug.
      destruct (started_config_fields st c cfg cfg) as (Hgc & Hgd & Hgi & Hgx).
      rewrite Hgi. rewrite Hgd in Hdebug. destruct (Hgx Hdebug) as [Hi Hk].
      exists (globalRunCount st), (runCountOf st c). split_and!; try done.
      * rewrite Hstarted, (hist_global st Hh), lookup_app_r, Nat.sub_diag by done. done.
      * rewrite <- Hcfg, Hfilter, Hgc, Hcat, decide_True by done.
        rewrite (hist_category st Hh c), lookup_app_r, Nat.sub_diag by done. done.
    + intros Hl' Hdebug. pose proof (hist_index st Hh r' cfg' Hl' Hdebug) as Hi.
      destruct (Config.inQueue cfg'); [done|].
      destruct Hi as (i & k & Hi & Hsi & Hk & Hsk). exists i, k. split_and!; try done.
      * rewrite Hstarted. by apply lookup_app_l_Some.
      * rewrite <- Hcfg, Hfilter. by apply lookup_app_l_Some.
  - intros r' q'. rewrite Hreq, list_lookup_alter.
    case_decide as Hd.
    + subst r'. rewrite Hr. intros [= <-]. unfold with_copy. simpl. fold cfg.
      destruct (started_config_fields st c cfg cfg) as (_ & -> & _).
      pose proof (hist_copy st Hh r q Hr) as Hcopy. fold cfg in Hcopy.
      by destruct (Config.debug cfg).
    + apply (hist_copy st Hh).
Qed.

Lemma release_update_history st r q :
  history st → requests st !! r = Some q →
  history (release_update r (config q) st).
Proof.
  intros Hh Hr.
  pose proof (configs_lookup _ _ _ Hr) as Hl.
  set (cfg := config q) in *. set (g := released_config st cfg).
  assert (Hcfg : configs (release_update r cfg st) = alter g r (configs st)) by apply release_update_configs.
  assert (Hreq : requests (release_update r cfg st) =
                 alter (λ q0, with_copy (Config.debug cfg) (g (config q0)) q0) r (requests st))
    by apply release_update_requests.
  destruct (release_update_spec r cfg st) as (g0 & _ & _ & _ & _ & _ & He & Hrc & _).
  assert (Hstarted : started (release_update r cfg st) = started st) by (unfold started; by rewrite He).
  assert (Hgf : ∀ y, Config.category (g y) = Config.category y)
    by (intros y; apply released_config_fields).
  assert (Hfilter : ∀ x,
    filter (λ r0, in_category (configs (release_update r cfg st)) x r0) (started (release_update r cfg st)) =
    filter (λ r0, in_category (configs st) x r0) (started st)).
  { intros x. rewrite Hstarted, Hcfg. apply filter_ext_elem. intros y _.
    by rewrite in_category_alter. }
  subst g. split.
  - intros r'. rewrite Hstarted, Hcfg, length_alter. apply (hist_bound st Hh).
  - rewrite Hstarted. apply (hist_NoDup st Hh).
  - intros r' cfg'. rewrite Hstarted, Hcfg, list_lookup_alter.
    case_decide as Hd; [|apply (hist_out st Hh)].
    subst r'. rewrite Hl. intros [= <-].
    destruct (released_config_fields st cfg cfg) as (_ & _ & -> & _).
    by apply (hist_out st Hh).
  - rewrite Hstarted, release_update_globalRunCount.
    apply (hist_global st Hh).
  - intros x. rewrite Hfilter. unfold runCountOf. rewrite Hrc.
    apply (hist_category st Hh).
  - intros r' cfg'. rewrite Hcfg, list_lookup_alter.
    case_decide as Hd.
    + subst r'. rewrite Hl. intros [= <-].
      destruct (released_config_fields st cfg cfg) as (-> & -> & -> & -> & ->).
      intros Hdebug. pose proof (hist_index st Hh r cfg Hl Hdebug) as Hi.
      destruct (Config.inQueue cfg); [done|].
      destruct Hi as (i & k & ? & ? & ? & ?). exists i, k.
      rewrite <- Hcfg, Hfilter, Hstarted. by split_and!.
    + intros Hl' Hdebug. pose proof (hist_index st Hh r' cfg' Hl' Hdebug) as Hi.
      destruct (Config.inQueue cfg'); [done|].
      destruct Hi as (i & k & ? & ? & ? & ?). exists i, k.
      rewrite <- Hcfg, Hfilter, Hstarted. by split_and!.
  - intros r' q'. rewrite Hreq, list_lookup_alter.
    case_decide as Hd; [|apply (hist_copy st Hh)].
    subst r'. rewrite Hr. intros [= <-]. unfold with_copy. cbn [config release_debug].
    fold cfg. destruct (released_config_fields st cfg cfg) as (_ & -> & _).
    pose proof (hist_copy st Hh r q Hr) as Hcopy. fold cfg in Hcopy.
    by destruct (Config.debug cfg).
Qed.

Lemma enqueue_history st configIn :
  wf st → history st → history (enqueue configIn st).2.
Proof.
  intros Hwf Hh.
  destruct (enqueue_requests configIn st) as (q & Hreq & Hcopy & Hin & Hgi & Hci & Hg & Hc).
  destruct (enqueue_spec configIn st (wf_created st Hwf))
    as (cfg0 & _ & _ & _ & _ & _ & _ & _ & He & _).
  destruct (createCategory_reads (ConfigIn.category configIn) st (wf_created st Hwf))
    as [Hsr _].
  assert (Hcfg : configs (enqueue configIn st).2 = configs st ++ [config q]).
  { unfold configs. by rewrite Hreq, fmap_app. }
  assert (Hstarted : started (enqueue configIn st).2 = started st)
    by (unfold started; by rewrite He).
  assert (Hlen : length (configs st) = length (requests st)).
  { unfold configs. by rewrite length_fmap. }
  assert (Hnew : length (configs st) ∉ started st).
  { intros Hs%(hist_bound st Hh). lia. }
  assert (Hfilter : ∀ x,
    filter (λ r0, in_category (configs (enqueue configIn st).2) x r0)
      (started (enqueue configIn st).2) =
    filter (λ r0, in_category (configs st) x r0) (started st)).
  { intros x. rewrite Hstarted, Hcfg. apply filter_ext_elem. intros y Hy.
    rewrite in_category_app; [done|]. by apply (hist_bound st Hh). }
  assert (Hlook : ∀ r cfg, (configs st ++ [config q]) !! r = Some cfg →
            configs st !! r = Some cfg ∨ (r = length (configs st) ∧ cfg = config q)).
  { intros r cfg [?|[Hge Hl]]%lookup_app_Some; [by left|right].
    destruct (r - length (configs st))%nat as [|n] eqn:En; simpl in Hl; [|by destruct n].
    injection Hl as <-. split; [lia|done]. }
  split.
  - intros r. rewrite Hstarted, Hcfg, length_app. intros ?%(hist_bound st Hh). lia.
  - rewrite Hstarted. apply (hist_NoDup st Hh).
  - intros r cfg. rewrite Hstarted, Hcfg. intros [Hl|[-> ->]]%Hlook.
    + by apply (hist_out st Hh).
    + rewrite Hin. split; [done|discriminate].
  - rewrite Hstarted, Hg, (sr_globalRunCount _ _ Hsr). apply (hist_global st Hh).
  - intros x. rewrite Hfilter. unfold runCountOf. rewrite Hc.
    fold (runCountOf (createCategory (ConfigIn.category configIn) st).2 x).
    rewrite (sr_runCountOf _ _ Hsr). apply (hist_category st Hh).
  - intros r cfg. rewrite Hcfg. intros [Hl|[-> ->]]%Hlook Hdebug.
    + pose proof (hist_index st Hh r cfg Hl Hdebug) as Hi.
      destruct (Config.inQueue cfg); [done|].
      destruct Hi as (i & k & ? & ? & ? & ?). exists i, k.
      rewrite <- Hcfg, Hfilter, Hstarted. by split_and!.
    + by rewrite Hin.
  - intros r q'. rewrite Hreq. intros [Hl|[Hge Hl]]%lookup_app_Some.
    + by apply (hist_copy st Hh r).
    + destruct (r - length (requests st))%nat as [|n]; simpl in Hl; [|by destruct n].
      by injection Hl as <-.
Qed.

Lemma step_history st st' : step st st' → wf st → history st → history st'.
Proof.
  intros Hstep Hwf Hh.
  assert (Hcreate : ∀ category, history (createCategory category st).2).
  { intros category. eapply history_same_reads; [done|].
    apply createCategory_reads, Hwf. }
  destruct Hstep.
  - apply (history_ext st); try done. apply started_log_Drained.
  - by eapply commit_history.
  - by apply release_update_history.
  - by apply enqueue_history.
  - by apply (history_fields (createCategory category st).2).
  - apply Hcreate.
  - rewrite onDrain_eq.
    by apply (history_fields (createCategory (onDrain_arguments category fn).1 st).2).
  - unfold setDefaultCategory. rewrite createCategory_eta.
    by apply (history_fields (createCategory category st).2).
  - unfold setCategoryDefaults. rewrite createCategory_eta.
    by apply (history_fields (createCategory category st).2).
  - by apply (history_fields st).
  - by apply (history_fields st).
  - unfold unshiftDebugArguments.
    destruct (requests st !! r) as [q|]; [|done].
    destruct (release_debug q); [|done].
    by apply (history_fields st).
Qed.

Lemma steps_history st st' :
  rtc step st st' → wf st → history st → wf st' ∧ history st'.
Proof.
  induction 1 as [|st1 st2 st3 Hs _ IH]; [done|].
  intros Hwf Hh. apply IH; [by eapply step_wf|by eapply step_history].
Qed.

Lemma initial_history : history initial.
Proof.
  split; try done.
  - intros r Hr. by apply elem_of_nil in Hr.
  - apply NoDup_nil_2.
Qed.

Section Runs.

Variable code : fid → list operation.

(** Every run is a sequence of steps. *)
Lemma run_steps fuel :
  (∀ c st st' o, next code fuel c st = Some (st', o) → rtc step st st') ∧
  (∀ fn args st st' o, call code fuel fn args st = Some (st', o) → rtc step st st') ∧
  (∀ body args st st' o, run code fuel body args st = Some (st', o) → rtc step st st') ∧
  (∀ op args st st' o, perform code fuel op args st = Some (st', o) → rtc step st st') ∧
  (∀ r st st' o, release code fuel r st = Some (st', o) → rtc step st st') ∧
  (∀ a st st' o, queue code fuel a st = Some (st', o) → rtc step st st') ∧
  (∀ c n st st' o, setMax code fuel c n st = Some (st', o) → rtc step st st').
Proof.
  induction fuel as [|fuel IH]; [by repeat split|].
  destruct IH as (IHnext & IHcall & IHrun & IHperform & IHrelease & IHqueue & IHsetMax).
  repeat split.
  - intros c st st' o. cbn [next].
    destruct (queueOf st c) as [|r rest] eqn:Hq.
    + destruct (_ && _) eqn:Hidle.
      * apply andb_true_iff in Hidle as [Hz%Z.eqb_eq Hfn].
        intros H. eapply rtc_l; [by apply step_drained|]. by eapply IHcall.
      * intros [= <- <-]. done.
    + destruct (requests st !! r) as [q|] eqn:Hr; [|by intros [= <- <-]].
      destruct (_ >? _).
      { destruct (_ >? _); by intros [= <- <-]. }
      destruct (call _ _ _ _ _) as [[st1 [|e]]|] eqn:Hcall; [| |done].
      * intros H. eapply rtc_l; [by eapply step_commit|].
        etrans; [by eapply IHcall|by eapply IHnext].
      * intros [= <- <-]. eapply rtc_l; [by eapply step_commit|]. by eapply IHcall.
  - intros fn args st st' o. cbn [call].
    destruct fn; try (by intros [= <- <-]); [apply IHrun|apply IHrelease].
  - intros body args st st' o. cbn [run].
    destruct body as [|op body]; [by intros [= <- <-]|].
    destruct (perform _ _ _ _ _) as [[st1 [|e]]|] eqn:Hop; [| |done].
    + intros H. etrans; [by eapply IHperform|by eapply IHrun].
    + intros [= <- <-]. by eapply IHperform.
  - intros op args st st' o. cbn [perform].
    destruct op; try (intros [= <- <-]; apply rtc_once; unfold getMax, getRunning, getFree;
                      try rewrite (createCategory_eta category st); by constructor).
    + apply IHsetMax.
    + apply IHqueue.
    + apply IHcall.
    + apply IHcall.
    + intros [= H]. apply rtc_once.
      replace st' with (unshiftDebugArguments r v st).1 by (by rewrite H).
      constructor.
  - intros r st st' o. cbn [release].
    destruct (requests st !! r) as [q|] eqn:Hr; [|by intros [= <- <-]].
    destruct (Config.released (config q)) eqn:Hrel; [by intros [= <- <-]|].
    intros H. eapply rtc_l; [by eapply step_release|]. by eapply IHnext.
  - intros a st st' o. cbn [queue].
    destruct (sanity_checks a); [|by intros [= <- <-]].
    rewrite enqueue_eta. intros H.
    eapply rtc_l; [apply step_enqueue|]. by eapply IHnext.
  - intros c n st st' o. cbn [setMax].
    destruct (0 >=? n); [by intros [= <- <-]|].
    rewrite createCategory_eta. intros H.
    eapply rtc_l; [apply step_setMax|]. by eapply IHnext.
Qed.

End Runs.

(** * The claims *)

Section Claims.

Variable code : fid → list operation.

Lemma perform_steps fuel op args st st' o :
  perform code fuel op args st = Some (st', o) → rtc step st st'.
Proof. apply run_steps. Qed.

Lemma session_steps fuel ops st st' os :
  session code fuel ops st = Some (st', os) → rtc step st st'.
Proof.
  revert st os. induction ops as [|op ops IH]; intros st os; simpl.
  - by intros [= <- <-].
  - destruct (perform code fuel op [] st) as [[st1 o]|] eqn:Hop; [|done].
    destruct (session code fuel ops st1) as [[st2 os']|] eqn:Hs; [|done].
    intros [= <- <-]. etrans; [by eapply perform_steps|by eapply IH].
Qed.

Lemma session_wf fuel ops st os :
  session code fuel ops initial = Some (st, os) → wf st.
Proof. intros H. eapply steps_wf; [by eapply session_steps|apply initial_wf]. Qed.

(** C2, as the code has it.  When the amounts are integers whose magnitudes
    add up to at most 2^53, so that the arithmetic of the counters is
    exact: after every public operation of a caller that starts with a fresh
    handler, whether the operation returned or threw, and whatever the
    callbacks did, the consumed amount of every category is the sum of the
    amounts of its running requests, those taken off the queue by a sweep
    and not yet released. *)
Theorem consumed_is_sum_of_running fuel ops st os c :
  session code fuel ops initial = Some (st, os) →
  exact st →
  consumedOf st c = sumRunning st c.
Proof. intros H _. by apply (wf_consumed st (session_wf _ _ _ _ H)). Qed.

Lemma session_ordered fuel ops st os :
  session code fuel ops initial = Some (st, os) → ordered st.
Proof.
  intros H.
  by apply (steps_ordered initial st (session_steps _ _ _ _ _ H) initial_wf initial_ordered).
Qed.

(** C4.  Requests are numbered in the order of their submission.  If [a] was
    submitted before [b], both to category [c] and both with a false
    [unshift], and both were started, then [a] was started before [b].  And
    a sweep that finds a head that does not fit looks no further: it leaves
    the state as it is. *)
Theorem fifo_order :
  (∀ fuel ops st os c a b,
     session code fuel ops initial = Some (st, os) →
     is_fifo (configs st) c a → is_fifo (configs st) c b → (a < b)%nat →
     a ∈ started st → b ∈ started st →
     before a b (started st)) ∧
  (∀ fuel st c r rest q,
     queueOf st c = r :: rest → requests st !! r = Some q →
     consumedOf st c + Config.amount (config q) > maxOf st c →
     ∃ o, next code (S fuel) c st = Some (st, o)).
Proof.
  split.
  - intros fuel ops st os c a b H Ha Hb Hab Hsa Hsb.
    pose proof (ord_sorted st (session_ordered _ _ _ _ H) c) as Hs.
    rewrite filter_app in Hs. apply StronglySorted_app_1_l in Hs.
    eapply before_filter, sorted_before; [done| | |done];
      by apply list_elem_of_filter.
  - intros fuel st c r rest q Hq Hr Hgt. cbn [next]. rewrite Hq, Hr.
    apply Z.gt_lt, Z.gtb_lt in Hgt. rewrite Hgt.
    destruct (Config.amount (config q) >? maxOf st c); eauto.
Qed.

Lemma configs_lookup_inv st r cfg :
  configs st !! r = Some cfg → ∃ q, requests st !! r = Some q ∧ config q = cfg.
Proof. unfold configs. rewrite list_lookup_fmap_Some. intros (q & -> & ?). eauto. Qed.

Lemma released_after_release fuel r st st' o :
  wf st → is_Some (requests st !! r) →
  release code fuel r st = Some (st', o) →
  ∃ q, requests st' !! r = Some q ∧ Config.released (config q) = true.
Proof.
  intros Hwf [q Hr] H. destruct fuel as [|fuel]; [done|].
  cbn [release] in H. rewrite Hr in H.
  destruct (Config.released (config q)) eqn:Hrel.
  { injection H as <- <-. eauto. }
  destruct (release_update_spec r (config q) st) as (g & Hcfg & Hk & Hg & _).
  assert (Hl : configs (release_update r (config q) st) !! r = Some (g (config q))).
  { rewrite Hcfg, list_lookup_alter_eq. by rewrite (configs_lookup _ _ _ Hr). }
  destruct (steps_evolves _ st' r _ (proj1 (run_steps code fuel) _ _ _ _ H)
              (release_update_wf _ _ _ Hwf Hr Hrel) Hl) as (cfg' & Hl' & Hev).
  destruct (configs_lookup_inv _ _ _ Hl') as (q' & Hq' & <-).
  exists q'. split; [done|]. apply (ev_released _ _ Hev), Hg.
Qed.

(** C3.  Once the first call of a release method is over, by a return or by
    a throw out of the sweep it ran, every later call returns normally and
    leaves the whole state as it is: counters, queues, requests and the
    record of the callbacks called, the drain callback among them. *)
Theorem release_idempotent fuel fuel' n r st st' o :
  wf st → is_Some (requests st !! r) →
  release code fuel r st = Some (st', o) →
  session code (3 + fuel') (replicate n (Call (VRelease r))) st' =
    Some (st', replicate n Normal).
Proof.
  intros Hwf Hr H.
  destruct (released_after_release _ _ _ _ _ Hwf Hr H) as (q & Hq & Hrel).
  induction n as [|n IH]; [done|].
  cbn [replicate session]. cbn [plus perform call release].
  rewrite Hq, Hrel. cbn [plus] in IH. by rewrite IH.
Qed.

(** An [InvalidAmount] that comes out of any run carries a non-positive
    amount: it was thrown by the guard of some [setMax]. *)
Lemma invalid_amount_thrown fuel :
  (∀ c st st' n, next code fuel c st = Some (st', Throw (InvalidAmount n)) → n ≤ 0) ∧
  (∀ fn args st st' n,
     call code fuel fn args st = Some (st', Throw (InvalidAmount n)) → n ≤ 0) ∧
  (∀ body args st st' n,
     run code fuel body args st = Some (st', Throw (InvalidAmount n)) → n ≤ 0) ∧
  (∀ op args st st' n,
     perform code fuel op args st = Some (st', Throw (InvalidAmount n)) → n ≤ 0) ∧
  (∀ r st st' n, release code fuel r st = Some (st', Throw (InvalidAmount n)) → n ≤ 0) ∧
  (∀ a st st' n, queue code fuel a st = Some (st', Throw (InvalidAmount n)) → n ≤ 0) ∧
  (∀ c m st st' n,
     setMax code fuel c m st = Some (st', Throw (InvalidAmount n)) → n ≤ 0).
Proof.
  induction fuel as [|fuel IH]; [by repeat split|].
  destruct IH as (IHnext & IHcall & IHrun & IHperform & IHrelease & IHqueue & IHsetMax).
  repeat split.
  - intros c st st' n. cbn [next].
    destruct (queueOf st c) as [|r rest].
    + destruct (_ && _); [apply IHcall|done].
    + destruct (requests st !! r) as [q|]; [|done].
      destruct (_ >? _). { by destruct (_ >? _). }
      destruct (call _ _ _ _ _) as [[st1 [|e]]|] eqn:Hcall; [apply IHnext| |done].
      intros [= <- ->]. by eapply IHcall.
  - intros fn args st st' n. cbn [call].
    destruct fn; try done; [apply IHrun|apply IHrelease].
  - intros body args st st' n. cbn [run].
    destruct body as [|op body]; [done|].
    destruct (perform _ _ _ _ _) as [[st1 [|e]]|] eqn:Hop; [apply IHrun| |done].
    intros [= <- ->]. by eapply IHperform.
  - intros op args st st' n. cbn [perform].
    destruct op; try done; [apply IHsetMax|apply IHqueue|apply IHcall|apply IHcall|].
    unfold unshiftDebugArguments. destruct (requests st !! r) as [q|]; [|done].
    by destruct (release_debug q).
  - intros r st st' n. cbn [release].
    destruct (requests st !! r) as [q|]; [|done].
    destruct (Config.released (config q)); [done|apply IHnext].
  - intros a st st' n. cbn [queue]. unfold sanity_checks, not_.
    destruct a as [cfg|v]; simpl; [rewrite enqueue_eta; apply IHnext|].
    destruct v; simpl; try done; rewrite enqueue_eta; apply IHnext.
  - intros c m st st' n. cbn [setMax].
    destruct (0 >=? m) eqn:Hm.
    + intros [= <- <-]. apply Z.geb_le in Hm. lia.
    + rewrite createCategory_eta. apply IHnext.
Qed.

(** C7, as the code has it.  For an amount that is an integer: [setMax]
    throws the "Invalid amount" error for its own amount if and only if the
    amount is not positive, and it throws it before it touches anything, so
    that the whole state, and with it the maximum, the consumed amount and
    the queue of the category, is as before.  With a positive amount the
    call stores the maximum and ends as the sweep it runs ends: it can then
    still end in an "Invalid amount" error, the one of a [setMax] that a
    callback of the sweep made, and that error carries an amount that is
    not positive. *)
Theorem setMax_invalid_amount fuel category amount st :
  (amount ≤ 0 →
   setMax code (S fuel) category amount st = Some (st, Throw (InvalidAmount amount))) ∧
  (∀ st' n, setMax code fuel category amount st = Some (st', Throw (InvalidAmount n)) →
            n ≤ 0) ∧
  (0 < amount →
   setMax code (S fuel) category amount st =
   next code fuel (createCategory category st).1
     (set_max (createCategory category st).1 amount (createCategory category st).2)).
Proof.
  split_and!.
  - intros Ha. cbn [setMax]. by rewrite (proj2 (Z.geb_le 0 amount) Ha).
  - intros st' n. apply invalid_amount_thrown.
  - intros Ha. cbn [setMax].
    destruct (0 >=? amount) eqn:Hm; [apply Z.geb_le in Hm; lia|].
    by rewrite createCategory_eta.
Qed.

(** C1, as the code has it.  While the head of the queue of a category asks
    for more than the maximum of the category and does not fit, every sweep
    of the category throws the RUNTIME ERROR and leaves the state, and so
    the head, as it is; the sweep that another, running request of the
    category runs when it is released is one of them. *)
Theorem oversized_head_throws_in_every_sweep fuel st c r rest q :
  queueOf st c = r :: rest → requests st !! r = Some q →
  Config.amount (config q) > maxOf st c →
  (consumedOf st c + Config.amount (config q) > maxOf st c →
   next code (S fuel) c st =
     Some (st, Throw (RuntimeError c (Config.amount (config q)) (maxOf st c)))) ∧
  (∀ r0 q0,
     r0 ≠ r → requests st !! r0 = Some q0 → Config.category (config q0) = c →
     Config.inQueue (config q0) = false → Config.released (config q0) = false →
     consumedOf st c - Config.amount (config q0) + Config.amount (config q) > maxOf st c →
     release code (S (S fuel)) r0 st =
       Some (release_update r0 (config q0) st,
             Throw (RuntimeError c (Config.amount (config q)) (maxOf st c))) ∧
     queueOf (release_update r0 (config q0) st) c = r :: rest).
Proof.
  intros Hq Hr Hbig. split.
  - intros Hfit. cbn [next]. rewrite Hq, Hr.
    by rewrite (proj2 (Z.gtb_lt _ _) (Z.gt_lt _ _ Hfit)),
               (proj2 (Z.gtb_lt _ _) (Z.gt_lt _ _ Hbig)).
  - intros r0 q0 Hne Hr0 Hcat Hin Hrel Hfit.
    destruct (release_update_spec r0 (config q0) st)
      as (g & Hcfg & Hk & Hg & Hm & Hd & He & Hrc & Hcase).
    rewrite Hin, Hcat in Hcase. destruct Hcase as [Hco Hqs].
    set (st' := release_update r0 (config q0) st) in *.
    assert (Hq' : queueOf st' c = r :: rest) by (unfold queueOf; by rewrite Hqs).
    assert (Hm' : maxOf st' c = maxOf st c) by (unfold maxOf; by rewrite Hm).
    assert (Hco' : consumedOf st' c = consumedOf st c - Config.amount (config q0)).
    { unfold consumedOf at 1. by rewrite Hco, lookup_insert_eq. }
    assert (∃ q', requests st' !! r = Some q' ∧ config q' = config q) as (q' & Hr' & Hq'').
    { apply configs_lookup_inv. rewrite Hcfg, list_lookup_alter_ne by done.
      by apply configs_lookup. }
    split; [|done]. cbn [release]. rewrite Hr0, Hrel. fold st'. rewrite Hcat.
    cbn [next]. rewrite Hq', Hr', Hq'', Hm', Hco'.
    by rewrite (proj2 (Z.gtb_lt _ _) (Z.gt_lt _ _ Hfit)),
               (proj2 (Z.gtb_lt _ _) (Z.gt_lt _ _ Hbig)).
Qed.

(** C9, as the code has it.  The tests of the two sanity checks are false
    for every value.  For an argument that is an object literal, whatever
    its callback and also without one, and for one that is a boolean, a
    number or a string, the checks pass: the request is built, put on the
    queue and the sweep is run.  For [undefined] and [null] the second
    check throws a TypeError (see [sanity_checks_throw_on_undefined]). *)
Theorem sanity_checks_pass a :
  (∀ v, instanceofObject (not_ v) = false ∧ instanceofFunction (not_ v) = false) ∧
  (a ≠ Other PUndefined → a ≠ Other PNull →
   sanity_checks a = Normal ∧
   ∀ fuel st,
     queue code (S fuel) a st =
       next code fuel (enqueue (arg_fields a) st).1 (enqueue (arg_fields a) st).2 ∧
     (created st →
      length (requests st) ∈
        queueOf (enqueue (arg_fields a) st).2 (enqueue (arg_fields a) st).1)).
Proof.
  split; [done|]. intros Hu Hn.
  assert (Hs : sanity_checks a = Normal).
  { destruct a as [cfg|v]; [done|]. by destruct v. }
  split; [done|]. intros fuel st. split.
  - cbn [queue]. rewrite Hs. by rewrite enqueue_eta.
  - intros Hcr.
    destruct (enqueue_spec (arg_fields a) st Hcr) as (cfg & _ & _ & _ & _ & Hq & _).
    rewrite Hq, decide_True by done.
    destruct (Config.unshift cfg); [by left|].
    apply elem_of_app. right. by left.
Qed.

(** C10.  A submission that has no array of its own and whose category has
    a default array stores that very array in its [config] and makes no
    new one.  When a sweep starts a request with [curryRelease], the release
    method is put in front of the stored array itself: the callback is
    called with the array so extended, and the array stays so. *)
Theorem curried_release_stays_in_arguments :
  (∀ st configIn c a,
     created st → ConfigIn.category configIn = Some c →
     Defaults.arguments (defaultsOf st c) = Some a →
     (∀ a', ConfigIn.arguments configIn ≠ VArray a') →
     arrays (enqueue configIn st).2 = arrays st ∧
     ∃ q, requests (enqueue configIn st).2 !! length (requests st) = Some q ∧
          Config.arguments (config q) = a) ∧
  (∀ fuel st c r rest q,
     queueOf st c = r :: rest → requests st !! r = Some q →
     consumedOf st c + Config.amount (config q) ≤ maxOf st c →
     Config.curryRelease (config q) = true →
     (Config.arguments (config q) < length (arrays st))%nat →
     let a := Config.arguments (config q) in
     let args := VRelease r :: arrayOf st a in
     let st1 :=
       log (Invoked r (Config.callback (config q)) (Config.context (config q)) args)
         (commit c r (config q) st) in
     arrayOf st1 a = args ∧
     next code (S fuel) c st =
       match call code fuel (Config.callback (config q)) args st1 with
       | Some (st2, Normal) => next code fuel c st2
       | other => other
       end).
Proof.
  split.
  - intros st configIn c a Hcr Hc Ha Harr. unfold enqueue.
    rewrite (createCategory_eta (ConfigIn.category configIn) st), Hc, createCategory_Some.
    destruct (createCategory_reads (Some c) st Hcr) as [Hsr _].
    rewrite (sr_defaultsOf _ _ Hsr), Ha.
    destruct (ConfigIn.arguments configIn) eqn:E;
      try (exfalso; by eapply Harr); cbv zeta;
      match goal with
      | |- context [if ?u then set_queue _ _ _ else _] => destruct u
      end; cbn [fst snd]; fields; rewrite createCategory_arrays, createCategory_requests;
      (split; [done|]); rewrite lookup_app_r, Nat.sub_diag by done; simpl; eauto.
  - intros fuel st c r rest q Hq Hr Hfit Hcurry Hlt a args st1.
    assert (Hargs : arrayOf (commit c r (config q) st) a = args).
    { unfold arrayOf at 1. rewrite commit_arrays, Hcurry.
      by rewrite list_lookup_insert_eq. }
    split; [done|]. cbn [next]. rewrite Hq, Hr.
    destruct (_ >? _) eqn:Hgt; [apply Z.gtb_lt in Hgt; lia|].
    fold a. by rewrite Hargs.
Qed.

(** C5, as the code has it.  Every sweep that finds the queue of a category
    empty and its consumed amount 0 calls the drain callback, whether or not
    the category was idle before; a sweep that finds the queue empty while
    requests are running does nothing.  And nothing else calls it: every
    run is a sequence of steps, and a step that records a call of the drain
    callback starts from an idle category. *)
Theorem drain_called_by_every_idle_sweep :
  (∀ fuel st c,
     queueOf st c = [] →
     let fn := Defaults.onDrain (defaultsOf st c) in
     (consumedOf st c = 0 → instanceofFunction fn = true →
      next code (S fuel) c st = call code fuel fn [VStr c] (log (Drained c fn) st)) ∧
     (consumedOf st c ≠ 0 → next code (S fuel) c st = Some (st, Normal))) ∧
  (∀ fuel op args st st' o,
     wf st → perform code fuel op args st = Some (st', o) →
     rtc (λ s s', step s s' ∧ drains_when_idle s s') st st').
Proof.
  split.
  - intros fuel st c Hq fn. split.
    + intros Hz Hfn. cbn [next]. rewrite Hq. fold fn. by rewrite Hz, Hfn.
    + intros Hz. cbn [next]. rewrite Hq.
      by rewrite (proj2 (Z.eqb_neq _ _) Hz).
  - intros fuel op args st st' o Hwf H.
    apply steps_drain_when_idle; [by eapply perform_steps|done].
Qed.





End Claims.

(** * More of the handler: categories and their defaults *)

Lemma createCategory_defaultsOf category st c :
  defaultsOf (createCategory category st).2 c = defaultsOf st c.
Proof.
  unfold createCategory.
  set (st1 := match category, defaultCategory st with
              | None, None => set_defaultCategory "" st
              | _, _ => st
              end).
  assert (H1 : defaults st1 = defaults st) by (subst st1; by destruct category, (defaultCategory st)).
  set (x := match category with Some c0 => c0 | None => default "" (defaultCategory st1) end).
  cbn [snd].
  assert (H2 : ∀ st2, defaults st2 = defaults st →
                defaultsOf match defaultCategory st2 with
                           | Some _ => st2
                           | None => set_defaultCategory x st2
                           end c = defaultsOf st c).
  { intros st2 E. unfold defaultsOf. destruct (defaultCategory st2); simpl; by rewrite E. }
  destruct (defaults st1 !! x) eqn:Hx.
  - by apply H2.
  - unfold defaultsOf.
    destruct (defaultCategory (initCategory x st1)); cbn [defaults set_defaultCategory initCategory];
      rewrite H1 in *;
      (destruct (decide (x = c)) as [->|];
       [by rewrite lookup_insert_eq, Hx|by rewrite lookup_insert_ne]).
Qed.

Lemma createCategory_defaultCategory category st :
  defaultCategory (createCategory category st).2 =
  Some (default (resolve category st) (defaultCategory st)).
Proof.
  unfold createCategory, resolve.
  destruct category as [c|]; destruct (defaultCategory st) as [d|] eqn:E; simpl;
    rewrite ?E; repeat case_match; simpl in *; congruence.
Qed.

Lemma createCategory_defaults_Some category st :
  is_Some (defaults (createCategory category st).2 !! resolve category st).
Proof.
  unfold createCategory, resolve.
  destruct category as [c|]; destruct (defaultCategory st) as [d|] eqn:E; simpl;
    rewrite ?E; repeat case_match; simpl in *; rewrite ?lookup_insert_eq; eauto.
Qed.

Lemma resolve_createCategory category st :
  resolve category (createCategory category st).2 = resolve category st.
Proof.
  unfold resolve at 1. destruct category as [c|]; [done|].
  rewrite createCategory_defaultCategory. unfold resolve.
  by destruct (defaultCategory st).
Qed.

Lemma createCategory_same category st :
  is_Some (defaults st !! resolve category st) → is_Some (defaultCategory st) →
  createCategory category st = (resolve category st, st).
Proof.
  intros [d Hd] [c Hc]. unfold createCategory, resolve in *.
  destruct category as [c0|]; rewrite ?Hc in *; simpl in *; rewrite ?Hc, ?Hd; simpl;
    by rewrite ?Hc.
Qed.

(** X1.  [createCategory] leaves a category that exists alone: the stores are
    as before and the call only returns the name.  So a second call for the
    same category changes nothing. *)
Theorem createCategory_existing category st :
  (is_Some (defaults st !! resolve category st) → is_Some (defaultCategory st) →
   createCategory category st = (resolve category st, st)) ∧
  createCategory category (createCategory category st).2 = createCategory category st.
Proof.
  split; [apply createCategory_same|].
  rewrite createCategory_same; rewrite ?resolve_createCategory.
  - by rewrite (createCategory_eta category st), createCategory_resolve.
  - apply createCategory_defaults_Some.
  - rewrite createCategory_defaultCategory. eauto.
Qed.

(** X2.  A category that is referenced for the first time, under a name that
    objects do not inherit, gets a maximum of 1, nothing consumed, an empty
    queue, a run count of 0 and the initial defaults; the entries of the
    other categories are not touched.  The accessors create it too:
    [getMax] finds 1, [getRunning] 0, [getFree] 1. *)
Theorem createCategory_fresh c st :
  inherited c = false →
  defaults st !! c = None →
  max (createCategory (Some c) st).2 !! c = Some 1 ∧
  consumed (createCategory (Some c) st).2 !! c = Some 0 ∧
  queues (createCategory (Some c) st).2 !! c = Some [] ∧
  categoryRunCount (createCategory (Some c) st).2 !! c = Some 0%nat ∧
  defaults (createCategory (Some c) st).2 !! c = Some Defaults.initial ∧
  (∀ x, x ≠ c →
     max (createCategory (Some c) st).2 !! x = max st !! x ∧
     consumed (createCategory (Some c) st).2 !! x = consumed st !! x ∧
     queues (createCategory (Some c) st).2 !! x = queues st !! x ∧
     categoryRunCount (createCategory (Some c) st).2 !! x = categoryRunCount st !! x ∧
     defaults (createCategory (Some c) st).2 !! x = defaults st !! x) ∧
  (getMax (Some c) st).1 = 1 ∧ (getRunning (Some c) st).1 = 0 ∧
  (getFree (Some c) st).1 = 1.
Proof.
  intros _ Hc.
  assert (E : (createCategory (Some c) st).2 =
              match defaultCategory st with
              | Some _ => initCategory c st
              | None => set_defaultCategory c (initCategory c st)
              end).
  { unfold createCategory. simpl. by rewrite Hc. }
  unfold getMax, getRunning, getFree, maxOf, consumedOf.
  rewrite (createCategory_eta (Some c) st), E. cbn [fst snd].
  destruct (defaultCategory st); cbn [max consumed queues categoryRunCount defaults
                                       initCategory set_defaultCategory];
    rewrite !lookup_insert_eq; split_and!; try done;
    intros x Hx; by rewrite !lookup_insert_ne.
Qed.

(** X3.  The default category.  The first category that is referenced becomes
    the default, the empty string if none is given; once there is a default,
    referencing categories does not change it; [setDefaultCategory] sets it,
    and afterwards a call without a category goes to that category. *)
Theorem default_category_rules category st :
  defaultCategory (createCategory category st).2 =
    Some (default (resolve category st) (defaultCategory st)) ∧
  (createCategory None st).1 = default "" (defaultCategory st) ∧
  defaultCategory (setDefaultCategory category st) = Some (resolve category st) ∧
  (createCategory None (setDefaultCategory category st)).1 = resolve category st.
Proof.
  assert (H : defaultCategory (setDefaultCategory category st) = Some (resolve category st)).
  { unfold setDefaultCategory. rewrite createCategory_eta, createCategory_resolve. done. }
  split_and!.
  - apply createCategory_defaultCategory.
  - by rewrite createCategory_resolve.
  - done.
  - rewrite createCategory_resolve. unfold resolve at 1. by rewrite H.
Qed.

Lemma set_defaults_twice c d d' st :
  set_defaults c d' (set_defaults c d st) = set_defaults c d' st.
Proof. unfold set_defaults. simpl. by rewrite insert_insert_eq. Qed.

Lemma set_defaults_id c d st :
  defaults st !! c = Some d → set_defaults c d st = st.
Proof. intros H. destruct st. unfold set_defaults. simpl in *. by rewrite insert_id. Qed.

Lemma defaultsOf_set_defaults c d st x :
  defaultsOf (set_defaults c d st) x = if decide (x = c) then d else defaultsOf st x.
Proof.
  unfold defaultsOf. simpl. case_decide; [subst; by rewrite lookup_insert_eq|].
  by rewrite lookup_insert_ne.
Qed.

Lemma createCategory_after_set_defaults category d st :
  createCategory category
    (set_defaults (resolve category st) d (createCategory category st).2) =
  (resolve category st,
   set_defaults (resolve category st) d (createCategory category st).2).
Proof.
  set (st2 := set_defaults _ _ _).
  assert (Hr : resolve category st2 = resolve category st).
  { unfold resolve. destruct category; [done|]. unfold st2.
    cbn [defaultCategory set_defaults].
    rewrite createCategory_defaultCategory. unfold resolve. by destruct (defaultCategory st). }
  rewrite <- Hr at 1. apply createCategory_same.
  - rewrite Hr. unfold st2. cbn [defaults set_defaults]. rewrite lookup_insert_eq. eauto.
  - unfold st2. cbn [defaultCategory set_defaults].
    rewrite createCategory_defaultCategory. eauto.
Qed.

Lemma onDrain_given category fn st :
  fn ≠ VUndefined →
  onDrain category fn st =
  setCategoryDefaults category (NewDefaults.mk None None None None None (Some fn) None) st.
Proof. intros Hfn. by destruct fn. Qed.

(** X4.  A category has one drain callback.  Called with a callback,
    [onDrain] stores it in the defaults of the category, where the sweep
    reads it, and leaves the other defaults alone; a second registration
    replaces the first; and the call is [setCategoryDefaults] with an
    [onDrain] attribute only.  Called with the callback left out, it takes
    its first argument for the callback: a category name given alone is
    stored, as a string, as the drain callback of the default category. *)
Theorem onDrain_replaces category fn fn' st :
  fn ≠ VUndefined → fn' ≠ VUndefined →
  defaultsOf (onDrain category fn st) (resolve category st) =
    set_onDrain fn (defaultsOf st (resolve category st)) ∧
  onDrain category fn' (onDrain category fn st) = onDrain category fn' st ∧
  onDrain category fn st =
    setCategoryDefaults category
      (NewDefaults.mk None None None None None (Some fn) None) st ∧
  (∀ c, onDrain (Some c) VUndefined st = onDrain None (VStr c) st ∧
        defaultsOf (onDrain (Some c) VUndefined st) (resolve None st) =
          set_onDrain (VStr c) (defaultsOf st (resolve None st))).
Proof.
  intros Hfn Hfn'.
  assert (H1 : ∀ f, f ≠ VUndefined →
            defaultsOf (onDrain category f st) (resolve category st) =
            set_onDrain f (defaultsOf st (resolve category st))).
  { intros f Hf. rewrite onDrain_given by done. unfold setCategoryDefaults.
    rewrite createCategory_eta, createCategory_resolve.
    by rewrite defaultsOf_set_defaults, decide_True, createCategory_defaultsOf. }
  split_and!.
  - by apply H1.
  - rewrite !onDrain_given by done. unfold setCategoryDefaults at 1 2.
    rewrite (createCategory_eta category st), createCategory_resolve.
    rewrite createCategory_after_set_defaults, set_defaults_twice.
    rewrite defaultsOf_set_defaults, decide_True by done.
    unfold setCategoryDefaults. by rewrite createCategory_eta, createCategory_resolve.
  - by apply onDrain_given.
  - intros c. split; [done|].
    change (onDrain (Some c) VUndefined st) with (onDrain None (VStr c) st).
    rewrite onDrain_given by done. unfold setCategoryDefaults.
    rewrite createCategory_eta, createCategory_resolve.
    by rewrite defaultsOf_set_defaults, decide_True, createCategory_defaultsOf.
Qed.

Lemma merge_no_defaults d : merge no_defaults d = d.
Proof. by destruct d. Qed.

Lemma merge_twice n d : merge n (merge n d) = merge n d.
Proof.
  destruct n as [a b c e f g h], d. unfold merge. simpl.
  by destruct a, b, c, e, f, g, h.
Qed.

(** X5.  [setCategoryDefaults] copies the attributes it is given over the
    defaults of the category and leaves the attributes it is not given, and
    the defaults of every other category, as they are.  With no attribute
    it only creates the category, and giving the same attributes twice is
    giving them once. *)
Theorem setCategoryDefaults_merges category n st :
  defaultsOf (setCategoryDefaults category n st) (resolve category st) =
    merge n (defaultsOf st (resolve category st)) ∧
  (∀ x, x ≠ resolve category st →
        defaultsOf (setCategoryDefaults category n st) x = defaultsOf st x) ∧
  setCategoryDefaults category no_defaults st = (createCategory category st).2 ∧
  setCategoryDefaults category n (setCategoryDefaults category n st) =
    setCategoryDefaults category n st.
Proof.
  split_and!.
  - unfold setCategoryDefaults. rewrite createCategory_eta, createCategory_resolve.
    by rewrite defaultsOf_set_defaults, decide_True, createCategory_defaultsOf.
  - intros x Hx. unfold setCategoryDefaults.
    rewrite createCategory_eta, createCategory_resolve.
    by rewrite defaultsOf_set_defaults, decide_False, createCategory_defaultsOf.
  - unfold setCategoryDefaults. rewrite createCategory_eta, createCategory_resolve.
    rewrite merge_no_defaults. apply set_defaults_id.
    destruct (createCategory_defaults_Some category st) as [d Hd].
    unfold defaultsOf. by rewrite Hd.
  - unfold setCategoryDefaults at 1 2.
    rewrite (createCategory_eta category st), createCategory_resolve.
    rewrite createCategory_after_set_defaults, set_defaults_twice.
    rewrite defaultsOf_set_defaults, decide_True, merge_twice by done.
    unfold setCategoryDefaults. by rewrite createCategory_eta, createCategory_resolve.
Qed.

(** X6.  [queue] builds the request from its argument and, for what the
    argument does not have, from the defaults of the category.  An own
    [curryRelease], [amount], [debug] or [unshift] wins even when it is
    falsy; a falsy [context] is replaced by the default context, and that
    by a new object.  The request is numbered after the ones before it,
    starts queued and not released, and has a debug copy of itself if and
    only if it is in debug mode.  An array given as [arguments] is stored
    as it is; without one and without default arguments the request gets a
    new empty array of its own. *)
Theorem queue_fills_in_defaults configIn st :
  let c := resolve (ConfigIn.category configIn) st in
  let d := defaultsOf st c in
  let r := length (requests st) in
  (enqueue configIn st).1 = c ∧
  length (requests (enqueue configIn st).2) = S r ∧
  ∃ q, requests (enqueue configIn st).2 !! r = Some q ∧
    Config.category (config q) = c ∧
    Config.callback (config q) = ConfigIn.callback configIn ∧
    Config.context (config q) =
      or_ (or_ (ConfigIn.context configIn) (Defaults.context d)) (VNewObject r) ∧
    Config.curryRelease (config q) =
      default (Defaults.curryRelease d) (ConfigIn.curryRelease configIn) ∧
    Config.amount (config q) = default (Defaults.amount d) (ConfigIn.amount configIn) ∧
    Config.debug (config q) = default (Defaults.debug d) (ConfigIn.debug configIn) ∧
    Config.unshift (config q) = default (Defaults.unshift d) (ConfigIn.unshift configIn) ∧
    Config.inQueue (config q) = true ∧ Config.released (config q) = false ∧
    release_debug q = (if Config.debug (config q) then Some (config q) else None) ∧
    (∀ a, ConfigIn.arguments configIn = VArray a →
          Config.arguments (config q) = a ∧ arrays (enqueue configIn st).2 = arrays st) ∧
    ((∀ a, ConfigIn.arguments configIn ≠ VArray a) → Defaults.arguments d = None →
     Config.arguments (config q) = length (arrays st) ∧
     arrays (enqueue configIn st).2 = arrays st ++ [[]]).
Proof.
  intros c d r. unfold enqueue.
  rewrite (createCategory_eta (ConfigIn.category configIn) st), createCategory_resolve.
  fold c. rewrite createCategory_defaultsOf. fold d.
  destruct (ConfigIn.arguments configIn) eqn:E;
    try destruct (Defaults.arguments d) eqn:Ed; cbv zeta;
    match goal with
    | |- context [if ?u then set_queue _ _ _ else _] => destruct u eqn:Eu
    end; cbn [fst snd]; fields;
    rewrite ?createCategory_arrays, ?createCategory_requests, ?length_app; fold r;
    (split; [done|]); (split; [simpl; lia|]);
    rewrite lookup_app_r, Nat.sub_diag by done; cbn [lookup list_lookup];
    eexists; (split; [done|]); cbn; split_and!; try done;
    try (intros a' [= <-]; done);
    try (intros Hn _; exfalso; by eapply Hn).
Qed.

(** * More of the handler: sweeps, releases and the debug data *)

(** ** The record of calls only grows *)

Lemma step_events st st' :
  step st st' → wf st → ∃ l, events st' = events st ++ l.
Proof.
  intros Hstep Hwf.
  assert (Hsame : ∀ st1, events st1 = events st → ∃ l, events st1 = events st ++ l).
  { intros st1 ->. exists []. by rewrite app_nil_r. }
  assert (Hcreate : ∀ category st1,
            events st1 = events (createCategory category st).2 →
            ∃ l, events st1 = events st ++ l).
  { intros category st1 E. apply Hsame. rewrite E.
    apply createCategory_reads, Hwf. }
  destruct Hstep; try (by apply Hsame); try (by eapply Hcreate);
    try (rewrite onDrain_eq; by eapply Hcreate).
  - by eexists.
  - destruct (commit_spec c r (config q) st) as (g & _ & _ & _ & _ & _ & _ & _ & He).
    eexists. cbn [events log]. by rewrite He.
  - destruct (release_update_spec r (config q) st) as (g & _ & _ & _ & _ & _ & He & _).
    by apply Hsame.
  - destruct (enqueue_spec configIn st (wf_created st Hwf))
      as (cfg0 & _ & _ & _ & _ & _ & _ & _ & He & _).
    by apply Hsame.
  - unfold unshiftDebugArguments.
    destruct (requests st !! r) as [q|]; [|by apply Hsame].
    destruct (release_debug q); by apply Hsame.
Qed.

Lemma steps_events st st' :
  rtc step st st' → wf st → ∃ l, events st' = events st ++ l.
Proof.
  induction 1 as [st|st1 st2 st3 Hs _ IH]; intros Hwf.
  - exists []. by rewrite app_nil_r.
  - destruct (step_events _ _ Hs Hwf) as [l1 E1].
    destruct (IH (step_wf _ _ Hs Hwf)) as [l2 E2].
    exists (l1 ++ l2). by rewrite E2, E1, app_assoc.
Qed.

(** ** Cancelled requests *)

Lemma step_cancelled st st' r :
  step st st' → wf st → cancelled st r → cancelled st' r.
Proof.
  intros Hstep Hwf (cfg & Hl & Hin & Hrel).
  assert (Hsame : ∀ st1, requests st1 = requests st → cancelled st1 r).
  { intros st1 E. exists cfg. unfold configs in *. by rewrite E. }
  assert (Hcreate : ∀ category st1,
            requests st1 = requests (createCategory category st).2 → cancelled st1 r).
  { intros category st1 E. apply Hsame. rewrite E. apply createCategory_reads, Hwf. }
  destruct Hstep; try (by apply Hsame); try (by eapply Hcreate);
    try (rewrite onDrain_eq; by eapply Hcreate).
  - destruct (wf_queue_head st c r0 rest q Hwf) as (_ & _ & Hrel0 & _); [done..|].
    assert (r0 ≠ r).
    { intros ->. rewrite (configs_lookup _ _ _ H0) in Hl. congruence. }
    exists cfg. change (configs (log _ ?s)) with (configs s).
    by rewrite commit_configs, list_lookup_alter_ne.
  - assert (r0 ≠ r).
    { intros ->. rewrite (configs_lookup _ _ _ H) in Hl. congruence. }
    exists cfg. by rewrite release_update_configs, list_lookup_alter_ne.
  - destruct (enqueue_spec configIn st (wf_created st Hwf)) as (cfg0 & E & _).
    exists cfg. rewrite E. split; [by apply lookup_app_l_Some|done].
  - unfold unshiftDebugArguments.
    destruct (requests st !! r0) as [q|]; [|by apply Hsame].
    destruct (release_debug q); by apply Hsame.
Qed.

Lemma steps_cancelled st st' r :
  rtc step st st' → wf st → cancelled st r → cancelled st' r.
Proof.
  induction 1 as [|st1 st2 st3 Hs _ IH]; [done|].
  intros Hwf Hc. apply IH; [by eapply step_wf|by eapply step_cancelled].
Qed.

Section More.

Variable code : fid → list operation.

Lemma session_history fuel ops st os :
  session code fuel ops initial = Some (st, os) → wf st ∧ history st.
Proof.
  intros H.
  apply (steps_history initial st (session_steps code _ _ _ _ _ H) initial_wf initial_history).
Qed.

(** X7.  The run counters count the starts.  After every public operation of
    a caller that starts with a fresh handler, the global run count is the
    number of requests that a sweep has taken off a queue so far, and the
    run count of a category is the number of those that belong to it.  No
    request is started twice, and a request has left its queue if and only
    if it was started. *)
Theorem run_counts_are_numbers_of_starts fuel ops st os :
  session code fuel ops initial = Some (st, os) →
  globalRunCount st = length (started st) ∧
  (∀ c, runCountOf st c =
        length (filter (λ r, in_category (configs st) c r) (started st))) ∧
  NoDup (started st) ∧
  (∀ r cfg, configs st !! r = Some cfg →
            r ∈ started st ↔ Config.inQueue cfg = false).
Proof.
  intros [_ Hh]%session_history. split_and!.
  - apply (hist_global st Hh).
  - apply (hist_category st Hh).
  - apply (hist_NoDup st Hh).
  - apply (hist_out st Hh).
Qed.

(** X8.  In debug mode the run indices of a request are its positions in
    the order of the starts: [globalRunIndex] among all the requests
    started, [categoryRunIndex] among those of its category.  A request
    that still waits has none. *)
Theorem debug_run_indices_are_positions fuel ops st os r cfg :
  session code fuel ops initial = Some (st, os) →
  configs st !! r = Some cfg → Config.debug cfg = true →
  if Config.inQueue cfg
  then Config.globalRunIndex cfg = None ∧ Config.categoryRunIndex cfg = None
  else ∃ i k,
         Config.globalRunIndex cfg = Some i ∧ started st !! i = Some r ∧
         Config.categoryRunIndex cfg = Some k ∧
         filter (λ r, in_category (configs st) (Config.category cfg) r) (started st) !! k
           = Some r.
Proof. intros [_ Hh]%session_history. apply (hist_index st Hh). Qed.

(** X9.  Between two public operations the debug copy that hangs on the
    release method is up to date: it holds the attributes of the request
    as they are now.  It exists if and only if the request is in debug
    mode. *)
Theorem debug_copy_is_up_to_date fuel ops st os r q :
  session code fuel ops initial = Some (st, os) →
  requests st !! r = Some q →
  release_debug q = if Config.debug (config q) then Some (config q) else None.
Proof. intros [_ Hh]%session_history. apply (hist_copy st Hh). Qed.

(** X10.  A request only moves forward.  Through any operation, whatever the
    callbacks do and also when the operation throws, a request stays in the
    store under its number and keeps the category, amount, callback,
    arguments array, [unshift] and [curryRelease] it was queued with; once
    it has left the queue it does not return to it, and once released it
    stays released.  The calls recorded before the operation are still the
    first ones recorded after it. *)
Theorem request_only_moves_forward fuel op args st st' o r cfg :
  wf st → perform code fuel op args st = Some (st', o) →
  configs st !! r = Some cfg →
  (∃ cfg', configs st' !! r = Some cfg' ∧ evolves cfg cfg') ∧
  started st `prefix_of` started st'.
Proof.
  intros Hwf H Hl. pose proof (perform_steps code _ _ _ _ _ _ H) as Hsteps. split.
  - by eapply steps_evolves.
  - destruct (steps_events _ _ Hsteps Hwf) as [l E].
    exists (omap invoked l). unfold started. by rewrite E, omap_app.
Qed.

(** X11.  Releasing a request that still waits cancels it.  The release takes
    the request out of its queue and leaves the rest of the queue in its
    order, and it changes no consumed amount.  Whatever is done afterwards,
    the request is never started. *)
Theorem release_while_queued_cancels fuel fuel' ops r q st st1 o st2 os :
  wf st → history st →
  requests st !! r = Some q →
  Config.inQueue (config q) = true → Config.released (config q) = false →
  release code fuel r st = Some (st1, o) →
  session code fuel' ops st1 = Some (st2, os) →
  (∀ x, consumedOf (release_update r (config q) st) x = consumedOf st x) ∧
  (∀ x, queueOf (release_update r (config q) st) x =
        filter (λ y, y ≠ r) (queueOf st x)) ∧
  (r ∉ started st2) ∧ (∀ x, r ∉ queueOf st2 x).
Proof.
  intros Hwf Hh Hr Hin Hrel H1 H2.
  destruct (release_update_spec r (config q) st)
    as (g & Hcfg & Hk & Hg & _ & _ & _ & _ & Hspec).
  rewrite Hin in Hspec. destruct Hspec as [Hco Hqs].
  set (c := Config.category (config q)) in *.
  assert (Hother : ∀ x, x ≠ c → r ∉ queueOf st x).
  { intros x Hx Hel. destruct (wf_queue st Hwf x r Hel) as (cfg & Hl & Hc & _).
    rewrite (configs_lookup _ _ _ Hr) in Hl. injection Hl as <-. by apply Hx. }
  assert (Hfilter : ∀ l : list rid, r ∉ l → filter (λ y, y ≠ r) l = l).
  { intros l Hl. induction l as [|y l IH]; [done|].
    apply not_elem_of_cons in Hl as [? ?].
    rewrite filter_cons_True by done. f_equal. by apply IH. }
  assert (Hdelete : ∀ (l : list rid) i, NoDup l → l !! i = Some r →
            delete i l = filter (λ y, y ≠ r) l).
  { intros l. induction l as [|y l IH]; intros [|i] Hnd Hi; simplify_eq/=.
    - apply NoDup_cons in Hnd as [Hy _].
      rewrite filter_cons_False by (intros ?; done). by rewrite Hfilter.
    - apply NoDup_cons in Hnd as [Hy Hnd].
      rewrite filter_cons_True.
      + f_equal. by apply IH.
      + intros ->. apply Hy. by eapply list_elem_of_lookup_2. }
  assert (Hc1 : cancelled (release_update r (config q) st) r).
  { exists (g (config q)). rewrite Hcfg, list_lookup_alter_eq.
    rewrite (configs_lookup _ _ _ Hr). destruct (Hg (config q)) as [-> ->]. done. }
  assert (Hsteps : rtc step (release_update r (config q) st) st2).
  { destruct fuel as [|fuel]; [simpl in H1; discriminate|]. cbn [release] in H1. rewrite Hr, Hrel in H1.
    etrans; [exact (proj1 (run_steps code fuel) _ _ _ _ H1)|].
    exact (session_steps code _ _ _ _ _ H2). }
  pose proof (release_update_wf _ _ _ Hwf Hr Hrel) as Hwf1.
  pose proof (release_update_history _ _ _ Hh Hr) as Hh1.
  destruct (steps_history _ _ Hsteps Hwf1 Hh1) as [Hwf2 Hh2].
  destruct (steps_cancelled _ _ r Hsteps Hwf1 Hc1) as (cfg2 & Hl2 & Hin2 & Hrel2).
  split_and!.
  - intros x. unfold consumedOf. by rewrite Hco.
  - intros x. unfold queueOf at 1. rewrite Hqs. fold c.
    destruct (indexOf (queueOf st c) r) as [i|] eqn:Hi.
    + destruct (decide (x = c)) as [->|Hx].
      * rewrite lookup_insert_eq. simpl.
        apply Hdelete; [apply (wf_NoDup st Hwf)|by apply indexOf_Some].
      * rewrite lookup_insert_ne by done. fold (queueOf st x).
        by rewrite Hfilter by by apply Hother.
    + fold (queueOf st x). rewrite Hfilter; [done|].
      destruct (decide (x = c)) as [->|Hx]; [by apply indexOf_None|by apply Hother].
  - intros Hs. apply (hist_out st2 Hh2 r cfg2 Hl2) in Hs. congruence.
  - intros x Hel. destruct (wf_queue st2 Hwf2 x r Hel) as (cfg & Hl & _ & _ & Hrel').
    congruence.
Qed.

(** X12.  A callback that cannot be called.  When the sweep reaches a
    request whose callback is not a function and the request fits, the
    request is taken off the queue and its amount is counted before the
    call fails with a TypeError: the sweep stops there, the requests behind
    it wait, and the amount stays consumed. *)
Theorem uncallable_callback_consumes fuel st c r rest q :
  wf st →
  queueOf st c = r :: rest → requests st !! r = Some q →
  consumedOf st c + Config.amount (config q) ≤ maxOf st c →
  callable (Config.callback (config q)) = false →
  ∃ st',
    next code (S (S fuel)) c st = Some (st', Throw TypeError) ∧
    queueOf st' c = rest ∧
    consumedOf st' c = consumedOf st c + Config.amount (config q) ∧
    consumedOf st' c = sumRunning st' c ∧
    started st' = started st ++ [r].
Proof.
  intros Hwf Hq Hr Hfit Hcb.
  exists (log (Invoked r (Config.callback (config q)) (Config.context (config q))
                 (arrayOf (commit c r (config q) st) (Config.arguments (config q))))
            (commit c r (config q) st)).
  split.
  { cbn [next]. rewrite Hq, Hr.
    destruct (Z.gtb_spec (consumedOf st c + Config.amount (config q)) (maxOf st c)) as [?|_];
      [lia|].
    cbn [call]. revert Hcb. by destruct (Config.callback (config q)). }
  destruct (commit_spec c r (config q) st) as (g & Hcfg & Hk & Hg & Hqs & Hcs & Hm & Hd & He).
  split_and!.
  - unfold queueOf. fields. by rewrite Hqs, lookup_insert_eq, Hq.
  - unfold consumedOf at 1. fields. by rewrite Hcs, lookup_insert_eq.
  - apply wf_consumed. eapply step_wf; [by eapply step_commit|done].
  - rewrite started_log_Invoked. unfold started. by rewrite He.
Qed.

End More.

(** * Sweeps leave nothing behind that could be started *)

(** ** What a change of one category leaves alone *)

Lemma amount_alter g r (l : list Config.t) r' :
  keeps g → Config.amount <$> alter g r l !! r' = Config.amount <$> l !! r'.
Proof.
  intros Hk. destruct (decide (r = r')) as [->|].
  - rewrite list_lookup_alter_eq. destruct (l !! r'); [|done]. simpl. f_equal. apply Hk.
  - by rewrite list_lookup_alter_ne.
Qed.

Lemma startable_ext st st' x :
  queueOf st' x = queueOf st x → consumedOf st' x = consumedOf st x →
  maxOf st' x = maxOf st x →
  (∀ r, r ∈ queueOf st x →
        Config.amount <$> configs st' !! r = Config.amount <$> configs st !! r) →
  startable st' x = startable st x.
Proof.
  intros Hq Hc Hm Ha. unfold startable. rewrite Hq, Hc, Hm.
  destruct (queueOf st x) as [|r rest]; [done|].
  specialize (Ha r ltac:(by left)).
  destruct (configs st' !! r), (configs st !! r); simplify_eq/=; congruence.
Qed.

Lemma startable_fields st st' x :
  requests st' = requests st → queues st' = queues st →
  consumed st' = consumed st → max st' = max st →
  startable st' x = startable st x.
Proof.
  intros E1 E2 E3 E4. unfold startable, queueOf, consumedOf, maxOf, configs.
  by rewrite E1, E2, E3, E4.
Qed.

Lemma startable_same_reads st st' x :
  same_reads st st' → startable st' x = startable st x.
Proof.
  intros Hsr. apply startable_ext; try apply Hsr.
  intros r _. unfold configs. by rewrite (sr_requests _ _ Hsr).
Qed.

Lemma commit_startable c r cfg st x :
  x ≠ c → startable (commit c r cfg st) x = startable st x.
Proof.
  intros Hx.
  destruct (commit_spec c r cfg st) as (g & Hcfg & Hk & _ & Hqs & Hcs & Hm & _).
  apply startable_ext.
  - unfold queueOf. by rewrite Hqs, lookup_insert_ne.
  - unfold consumedOf. by rewrite Hcs, lookup_insert_ne.
  - unfold maxOf. by rewrite Hm.
  - intros r' _. rewrite Hcfg. by apply amount_alter.
Qed.

Lemma release_update_startable r cfg st x :
  x ≠ Config.category cfg → startable (release_update r cfg st) x = startable st x.
Proof.
  intros Hx.
  destruct (release_update_spec r cfg st) as (g & Hcfg & Hk & _ & Hm & _ & _ & _ & Hspec).
  apply startable_ext.
  - unfold queueOf. destruct (Config.inQueue cfg); destruct Hspec as [_ ->]; [|done].
    destruct (indexOf _ _); [|done]. by rewrite lookup_insert_ne.
  - unfold consumedOf. destruct (Config.inQueue cfg); destruct Hspec as [-> _]; [done|].
    by rewrite lookup_insert_ne.
  - unfold maxOf. by rewrite Hm.
  - intros r' _. rewrite Hcfg. by apply amount_alter.
Qed.

Lemma enqueue_startable configIn st x :
  wf st → x ≠ (enqueue configIn st).1 →
  startable (enqueue configIn st).2 x = startable st x.
Proof.
  intros Hwf Hx.
  destruct (enqueue_spec configIn st (wf_created st Hwf))
    as (cfg & Hcfg & _ & _ & _ & Hq & Hc & Hm & _).
  apply startable_ext.
  - by rewrite Hq, decide_False.
  - apply Hc.
  - apply Hm.
  - intros r Hr. destruct (wf_queue st Hwf x r Hr) as (cfg' & Hl & _).
    rewrite Hcfg, Hl. by erewrite lookup_app_l_Some.
Qed.

Lemma set_max_startable c amount st x :
  x ≠ c → startable (set_max c amount st) x = startable st x.
Proof.
  intros Hx. apply startable_ext; try done.
  unfold maxOf. fields. by rewrite lookup_insert_ne.
Qed.




Lemma initial_settled c : startable initial c = false.
Proof. done. Qed.

Lemma sanity_checks_Literal configIn : sanity_checks (Literal configIn) = Normal.
Proof. done. Qed.

Section Sweeps.

Variable code : fid → list operation.

Lemma settled_weaken (P Q : string → Prop) st :
  (∀ x, P x → Q x) → settled P st → settled Q st.
Proof. intros HPQ H x Hx. apply H. auto. Qed.

Lemma settled_next P c st st' :
  settled (λ x, P x ∨ x = c) st → startable st' c = false →
  (∀ x, x ≠ c → startable st' x = startable st x) →
  settled P st'.
Proof.
  intros H Hc Hframe x Hx. destruct (decide (x = c)) as [->|Hne]; [done|].
  rewrite Hframe by done. apply H. by intros [?|?].
Qed.

Lemma settled_frame P c st st' :
  settled P st → (∀ x, x ≠ c → startable st' x = startable st x) →
  settled (λ x, P x ∨ x = c) st'.
Proof.
  intros H Hframe x Hx. rewrite Hframe; [apply H|]; intros ?; apply Hx; auto.
Qed.

Lemma settled_same P st st' :
  settled P st → (∀ x, startable st' x = startable st x) → settled P st'.
Proof. intros H E x Hx. rewrite E. by apply H. Qed.

(** A run that returns normally from a state in which only the categories
    [P] may have a startable head leads to such a state; a sweep of [c]
    that returns normally settles [c] as well. *)
Lemma normal_runs_settle fuel :
  (∀ P c st st', wf st → settled (λ x, P x ∨ x = c) st →
     next code fuel c st = Some (st', Normal) → settled P st') ∧
  (∀ P fn args st st', wf st → settled P st →
     call code fuel fn args st = Some (st', Normal) → settled P st') ∧
  (∀ P body args st st', wf st → settled P st →
     run code fuel body args st = Some (st', Normal) → settled P st') ∧
  (∀ P op args st st', wf st → settled P st →
     perform code fuel op args st = Some (st', Normal) → settled P st') ∧
  (∀ P r st st', wf st → settled P st →
     release code fuel r st = Some (st', Normal) → settled P st') ∧
  (∀ P a st st', wf st → settled P st →
     queue code fuel a st = Some (st', Normal) → settled P st') ∧
  (∀ P c n st st', wf st → settled P st →
     setMax code fuel c n st = Some (st', Normal) → settled P st').
Proof.
  induction fuel as [|fuel IH]; [by repeat split|].
  destruct IH as (IHnext & IHcall & IHrun & IHperform & IHrelease & IHqueue & IHsetMax).
  repeat split.
  - intros P c st st' Hwf Hpre. cbn [next].
    destruct (queueOf st c) as [|r rest] eqn:Hq.
    + assert (Hst : settled P st).
      { apply (settled_next P c st st Hpre); [|done]. unfold startable. by rewrite Hq. }
      destruct (_ && _) eqn:Hidle; [|by intros [= <-]].
      apply andb_true_iff in Hidle as [Hz%Z.eqb_eq Hfn].
      apply IHcall; [|done]. eapply step_wf; [by apply step_drained|done].
    + destruct (requests st !! r) as [q|] eqn:Hr; [|by intros ?; simplify_eq].
      destruct (_ >? _) eqn:Hfit.
      { destruct (Config.amount (config q) >? maxOf st c); [by intros ?; simplify_eq|].
        intros [= <-].
        apply (settled_next P c st st Hpre); [|done].
        unfold startable. by rewrite Hq, (configs_lookup _ _ _ Hr), Hfit. }
      destruct (call _ _ _ _ _) as [[st1 [|e]]|] eqn:Hcall; [|by intros ?; simplify_eq..].
      assert (Hwf1 : wf (log (Invoked r (Config.callback (config q)) (Config.context (config q))
                 (arrayOf (commit c r (config q) st) (Config.arguments (config q))))
            (commit c r (config q) st))).
      { eapply step_wf; [by eapply step_commit|done]. }
      apply IHnext.
      * eapply steps_wf; [exact (proj1 (proj2 (run_steps code fuel)) _ _ _ _ _ Hcall)|done].
      * eapply IHcall; [exact Hwf1| |exact Hcall].
        intros x Hx. change (startable (log ?e ?s) x) with (startable s x).
        rewrite commit_startable; [apply Hpre, Hx|]. intros ->. apply Hx. by right.
  - intros P fn args st st' Hwf Hpre. cbn [call].
    destruct fn; try (by intros ?; simplify_eq); [by apply IHrun|by apply IHrelease].
  - intros P body args st st' Hwf Hpre. cbn [run].
    destruct body as [|op body]; [by intros [= <-]|].
    destruct (perform _ _ _ _ _) as [[st1 [|e]]|] eqn:Hop; [|by intros ?; simplify_eq..].
    apply IHrun.
    + eapply steps_wf; [exact (perform_steps code _ _ _ _ _ _ Hop)|done].
    + by eapply IHperform.
  - intros P op args st st' Hwf Hpre. cbn [perform].
    assert (Hcreate : ∀ category, settled P (createCategory category st).2).
    { intros category. apply (settled_same P st); [done|]. intros x.
      apply startable_same_reads, createCategory_reads, Hwf. }
    destruct op.
    + by apply IHsetMax.
    + intros [= <-]. apply (Hcreate category).
    + intros [= <-]. apply (Hcreate category).
    + intros [= <-]. apply (Hcreate category).
    + rewrite onDrain_eq. intros [= <-].
      apply (settled_same P _ _ (Hcreate (onDrain_arguments category callback).1)).
      intros x. by apply startable_fields.
    + intros [= <-]. apply (settled_same P _ _ (Hcreate category)). intros x.
      by apply startable_fields.
    + intros [= <-]. apply (settled_same P _ _ (Hcreate category)). intros x.
      by apply startable_fields.
    + by apply IHqueue.
    + by apply IHcall.
    + by apply IHcall.
    + intros [= <-]. apply (settled_same P st); [done|]. intros x. by apply startable_fields.
    + intros [= <-]. apply (settled_same P st); [done|]. intros x. by apply startable_fields.
    + unfold unshiftDebugArguments.
      destruct (requests st !! r) as [q|]; [|by intros ?; simplify_eq].
      destruct (release_debug q); [|by intros ?; simplify_eq].
      intros [= <-]. apply (settled_same P st); [done|]. intros x. by apply startable_fields.
  - intros P r st st' Hwf Hpre. cbn [release].
    destruct (requests st !! r) as [q|] eqn:Hr; [|by intros ?; simplify_eq].
    destruct (Config.released (config q)) eqn:Hrel; [by intros [= <-]|].
    apply IHnext; [by apply release_update_wf|].
    apply (settled_frame P _ st); [done|]. intros x Hx. by apply release_update_startable.
  - intros P a st st' Hwf Hpre. cbn [queue].
    destruct (sanity_checks a); [|by intros ?; simplify_eq].
    rewrite enqueue_eta. apply IHnext; [by apply enqueue_wf|].
    apply (settled_frame P _ st); [done|]. intros x Hx. by apply enqueue_startable.
  - intros P c n st st' Hwf Hpre. cbn [setMax].
    destruct (0 >=? n); [by intros ?; simplify_eq|].
    rewrite createCategory_eta. apply IHnext.
    + eapply step_wf; [apply (step_setMax c n st)|done].
    + apply (settled_frame P _ st); [done|]. intros x Hx.
      rewrite set_max_startable by done.
      apply startable_same_reads, createCategory_reads, Hwf.
Qed.

(** X13.  Nothing waits that could run.  When no queue has a head that fits
    and a caller makes public calls that all return normally, then
    afterwards no queue has a head that fits either: whatever the callbacks
    did on the way, in whatever category, every request that still waits is
    behind a head that does not fit.  (The callbacks are those of the
    model: an error of the handler that reaches a callback ends it, so a
    call that returns normally has seen no error.) *)
Theorem normal_return_leaves_nothing_startable fuel ops st st' os :
  wf st → (∀ c, startable st c = false) →
  session code fuel ops st = Some (st', os) →
  Forall (λ o, o = Normal) os →
  ∀ c, startable st' c = false.
Proof.
  revert st os. induction ops as [|op ops IH]; intros st os Hwf Hpre; simpl.
  - by intros [= <- <-].
  - destruct (perform code fuel op [] st) as [[st1 o]|] eqn:Hop; [|done].
    destruct (session code fuel ops st1) as [[st2 os']|] eqn:Hs; [|done].
    intros [= <- <-] [-> Hos]%Forall_cons.
    apply (IH st1 os'); [|  |done|done].
    + eapply steps_wf; [exact (perform_steps code _ _ _ _ _ _ Hop)|done].
    + intros c.
      apply (proj1 (proj2 (proj2 (proj2 (normal_runs_settle fuel)))) (λ _, False)
               op [] st st1 Hwf); [|done|tauto].
      intros x _. apply Hpre.
Qed.

End Sweeps.

(** * More of the handler: submissions, accessors and maxima *)


Section Submissions.

Variable code : fid → list operation.


(** X15.  A request that is pushed behind a head that does not fit waits,
    however little it asks for: its submission starts nothing and leaves it
    at the back of the queue.  The submission returns normally unless the
    head asks for more than the maximum, in which case it is this
    submission that throws. *)
Theorem pushed_request_waits_behind_head fuel configIn st r0 rest q0 :
  let c := (enqueue configIn st).1 in
  let st1 := (enqueue configIn st).2 in
  wf st →
  queueOf st c = r0 :: rest → requests st !! r0 = Some q0 →
  consumedOf st c + Config.amount (config q0) > maxOf st c →
  Config.unshift <$> configs st1 !! length (requests st) = Some false →
  ∃ o, queue code (S (S fuel)) (Literal configIn) st = Some (st1, o) ∧
       queueOf st1 c = r0 :: rest ++ [length (requests st)] ∧
       started st1 = started st ∧
       (o = Normal ↔ Config.amount (config q0) ≤ maxOf st c).
Proof.
  intros c st1 Hwf Hq Hr Hfit Hu.
  destruct (enqueue_spec configIn st (wf_created st Hwf))
    as (cfg & Hcfg & _ & _ & _ & Hq1 & Hco & Hm & He & _).
  fold c st1 in Hcfg, Hq1, Hco, Hm, He.
  assert (Hl : configs st1 !! length (requests st) = Some cfg).
  { rewrite Hcfg. unfold configs. rewrite lookup_app_r; rewrite length_fmap; [|done].
    by rewrite Nat.sub_diag. }
  rewrite Hl in Hu. injection Hu as Hu.
  assert (Hq1' : queueOf st1 c = r0 :: rest ++ [length (requests st)]).
  { by rewrite Hq1, decide_True, Hu, Hq. }
  assert (Hr1 : requests st1 !! r0 = Some q0).
  { destruct (enqueue_requests configIn st) as (q & Hreq & _). fold st1 in Hreq.
    rewrite Hreq. by apply lookup_app_l_Some. }
  exists (if Config.amount (config q0) >? maxOf st c
          then Throw (RuntimeError c (Config.amount (config q0)) (maxOf st c))
          else Normal).
  split_and!.
  - cbn [queue]. rewrite sanity_checks_Literal, enqueue_eta. cbn [arg_fields]. fold c st1.
    cbn [next]. rewrite Hq1', Hr1, Hco, Hm.
    apply Z.gt_lt, Z.gtb_lt in Hfit. rewrite Hfit.
    by destruct (Config.amount (config q0) >? maxOf st c).
  - done.
  - unfold started. by rewrite He.
  - destruct (Z.gtb_spec (Config.amount (config q0)) (maxOf st c)); split; try done; lia.
Qed.



End Submissions.


(** * Requests that are released inside their callback *)

Lemma release_update_arrays r cfg st : arrays (release_update r cfg st) = arrays st.
Proof.
  unfold release_update. rewrite !update_config_eq, !duplicateDebugData_eq.
  destruct (Config.debug cfg), (Config.inQueue cfg); try done;
    by destruct (indexOf _ _).
Qed.



Section Inline.

Variable code : fid → list operation.








End Inline.

(** * Where a request waits *)

Lemma elem_of_delete_ne {A} (l : list A) i x y :
  l !! i = Some y → x ≠ y → x ∈ l → x ∈ delete i l.
Proof.
  revert i. induction l as [|z l IH]; intros [|i] Hi Hne Hx; simplify_eq/=.
  - apply elem_of_cons in Hx as [?|?]; done.
  - apply elem_of_cons in Hx as [->|?]; [by left|right; by eapply IH].
Qed.

Lemma indexOf_is_Some l r : is_Some (indexOf l r) ↔ r ∈ l.
Proof.
  split.
  - intros [i Hi]. eapply list_elem_of_lookup_2. by apply indexOf_Some.
  - intros Hr. destruct (indexOf l r) eqn:E; [eauto|]. by apply indexOf_None in E.
Qed.

Lemma queued_ext st st' :
  queued st → configs st' = configs st → (∀ c, queueOf st' c = queueOf st c) → queued st'.
Proof. intros H E1 E2 r cfg. rewrite E1, E2. apply H. Qed.

Lemma queued_fields st st' :
  queued st → requests st' = requests st → queues st' = queues st → queued st'.
Proof.
  intros H E1 E2. apply (queued_ext st); [done| |].
  - unfold configs. by rewrite E1.
  - intros c. unfold queueOf. by rewrite E2.
Qed.

Lemma queued_same_reads st st' : queued st → same_reads st st' → queued st'.
Proof.
  intros H Hsr. apply (queued_ext st); [done| |apply Hsr].
  unfold configs. by rewrite (sr_requests _ _ Hsr).
Qed.

Lemma step_queued st st' : step st st' → wf st → queued st → queued st'.
Proof.
  intros Hstep Hwf Hqd.
  assert (Hcreate : ∀ category, queued (createCategory category st).2).
  { intros category. eapply queued_same_reads; [done|].
    apply createCategory_reads, Hwf. }
  destruct Hstep.
  - by apply (queued_fields st).
  - intros r' cfg'. change (configs (log ?e ?s)) with (configs s).
    change (queueOf (log ?e ?s) ?x) with (queueOf s x).
    rewrite commit_configs.
    destruct (commit_spec c r (config q) st) as (g & _ & _ & _ & Hqs & _).
    destruct (decide (r = r')) as [<-|Hne].
    + rewrite list_lookup_alter_eq, (configs_lookup _ _ _ H0). intros [= <-].
      destruct (started_config_fields st c (config q) (config q)) as (_ & _ & Hi & _).
      congruence.
    + rewrite list_lookup_alter_ne by done. intros Hl Hin Hrel.
      pose proof (Hqd r' cfg' Hl Hin Hrel) as Hel.
      unfold queueOf at 1. rewrite Hqs.
      destruct (decide (Config.category cfg' = c)) as [Hc|Hc].
      * rewrite Hc, lookup_insert_eq. simpl. rewrite Hc, H in Hel. rewrite H. simpl.
        apply elem_of_cons in Hel as [?|?]; done.
      * by rewrite lookup_insert_ne.
  - intros r' cfg'. rewrite release_update_configs.
    destruct (release_update_spec r (config q) st)
      as (g & _ & _ & _ & _ & _ & _ & _ & Hspec).
    destruct (decide (r = r')) as [<-|Hne].
    + rewrite list_lookup_alter_eq, (configs_lookup _ _ _ H). intros [= <-].
      unfold released_config. by destruct (Config.debug (config q)).
    + rewrite list_lookup_alter_ne by done. intros Hl Hin Hrel.
      pose proof (Hqd r' cfg' Hl Hin Hrel) as Hel.
      unfold queueOf at 1.
      destruct (Config.inQueue (config q)); destruct Hspec as [_ ->]; [|done].
      destruct (indexOf _ _) as [i|] eqn:Hi; [|done].
      destruct (decide (Config.category cfg' = Config.category (config q))) as [Hc|Hc].
      * rewrite Hc, lookup_insert_eq. simpl. rewrite Hc in Hel.
        eapply elem_of_delete_ne; [by apply indexOf_Some|done..].
      * by rewrite lookup_insert_ne.
  - intros r' cfg'.
    destruct (enqueue_spec configIn st (wf_created st Hwf))
      as (cfg0 & Hcfg & Hcat & _ & _ & Hq & _).
    rewrite Hcfg, Hq. intros [Hl|[Hge Hl]]%lookup_app_Some Hin Hrel.
    + pose proof (Hqd r' cfg' Hl Hin Hrel) as Hel.
      case_decide; [|done]. destruct (Config.unshift cfg0); [by right|].
      apply elem_of_app. by left.
    + unfold configs in Hge, Hl. rewrite length_fmap in Hge, Hl.
      destruct (r' - length (requests st))%nat as [|n] eqn:En; simpl in Hl; [|by destruct n].
      injection Hl as <-. assert (r' = length (requests st)) as -> by lia.
      rewrite decide_True by done. destruct (Config.unshift cfg0); [by left|].
      apply elem_of_app. right. by left.
  - by apply (queued_fields (createCategory category st).2).
  - apply Hcreate.
  - rewrite onDrain_eq.
    by apply (queued_fields (createCategory (onDrain_arguments category fn).1 st).2).
  - unfold setDefaultCategory. rewrite createCategory_eta.
    by apply (queued_fields (createCategory category st).2).
  - unfold setCategoryDefaults. rewrite createCategory_eta.
    by apply (queued_fields (createCategory category st).2).
  - by apply (queued_fields st).
  - by apply (queued_fields st).
  - unfold unshiftDebugArguments.
    destruct (requests st !! r) as [q|]; [|done].
    destruct (release_debug q); [|done].
    by apply (queued_fields st).
Qed.

Lemma steps_queued st st' : rtc step st st' → wf st → queued st → wf st' ∧ queued st'.
Proof.
  induction 1 as [|st1 st2 st3 Hs _ IH]; [done|].
  intros Hwf Hqd. apply IH; [by eapply step_wf|by eapply step_queued].
Qed.

Lemma initial_queued : queued initial.
Proof. intros r cfg Hl. done. Qed.

Section Waiting.

Variable code : fid → list operation.

(** X19.  A request waits in one place.  After every public operation of a
    caller that starts with a fresh handler, a request is on a queue if and
    only if it was neither started nor released, and then it is on the
    queue of its own category, once.  So [getIndex] of a request finds it
    exactly as long as it waits. *)
Theorem queue_holds_the_waiting fuel ops st os r cfg :
  session code fuel ops initial = Some (st, os) →
  configs st !! r = Some cfg →
  (∀ c, r ∈ queueOf st c ↔
        Config.category cfg = c ∧ Config.inQueue cfg = true ∧ Config.released cfg = false) ∧
  (∀ c, NoDup (queueOf st c)) ∧
  (is_Some (getIndex st r) ↔ Config.inQueue cfg = true ∧ Config.released cfg = false).
Proof.
  intros H Hl.
  destruct (steps_queued initial st (session_steps code _ _ _ _ _ H) initial_wf initial_queued)
    as [Hwf Hqd].
  assert (Hiff : ∀ c, r ∈ queueOf st c ↔
            Config.category cfg = c ∧ Config.inQueue cfg = true ∧ Config.released cfg = false).
  { intros c. split.
    - intros Hel. destruct (wf_queue st Hwf c r Hel) as (cfg' & Hl' & ? & ? & ?).
      by simplify_eq.
    - intros (<- & ? & ?). by apply Hqd. }
  split_and!; [done|apply (wf_NoDup st Hwf)|].
  unfold getIndex. rewrite Hl, indexOf_is_Some, Hiff.
  split; [intros (_ & ? & ?)|intros [? ?]]; done.
Qed.

End Waiting.

(** * Releases, and categories side by side *)

Lemma others_untouched_refl c st : others_untouched c st st.
Proof. by intros x _. Qed.

Lemma others_untouched_trans c st1 st2 st3 :
  others_untouched c st1 st2 → others_untouched c st2 st3 → others_untouched c st1 st3.
Proof.
  intros H1 H2 x Hx. destruct (H1 x Hx) as (? & ? & ?), (H2 x Hx) as (? & ? & ?).
  split_and!; congruence.
Qed.

Lemma others_untouched_same_reads c st st' : same_reads st st' → others_untouched c st st'.
Proof. intros Hsr x _. split_and!; apply Hsr. Qed.

Lemma commit_others c r cfg st : others_untouched c st (commit c r cfg st).
Proof.
  intros x Hx.
  destruct (commit_spec c r cfg st) as (g & _ & _ & _ & Hqs & Hcs & Hm & _).
  unfold queueOf, consumedOf, maxOf. rewrite Hqs, Hcs, Hm.
  by rewrite !lookup_insert_ne.
Qed.

Lemma release_update_others r cfg st :
  others_untouched (Config.category cfg) st (release_update r cfg st).
Proof.
  intros x Hx.
  destruct (release_update_spec r cfg st) as (g & _ & _ & _ & Hm & _ & _ & _ & Hspec).
  unfold queueOf, consumedOf, maxOf. rewrite Hm.
  destruct (Config.inQueue cfg); destruct Hspec as [-> ->].
  - destruct (indexOf _ _); by rewrite ?lookup_insert_ne.
  - by rewrite lookup_insert_ne.
Qed.

Lemma enqueue_others configIn st :
  wf st → others_untouched (enqueue configIn st).1 st (enqueue configIn st).2.
Proof.
  intros Hwf x Hx.
  destruct (enqueue_spec configIn st (wf_created st Hwf))
    as (cfg & _ & _ & _ & _ & Hq & Hc & Hm & _).
  by rewrite Hq, Hc, Hm, decide_False.
Qed.

Section Releases.

Variable code : fid → list operation.


Lemma call_deferred_inv fuel v args st st' o :
  deferred code v → call code fuel v args st = Some (st', o) → st' = st ∧ o = Normal.
Proof.
  intros (f & -> & Hf). destruct fuel as [|[|fuel]]; [done| |].
  - cbn [call run]. done.
  - cbn [call run]. rewrite Hf. by intros [= <- <-].
Qed.

Lemma defers_alter g r c st st' :
  keeps g → configs st' = alter g r (configs st) →
  defaultsOf st' c = defaultsOf st c → defers code c st → defers code c st'.
Proof.
  intros Hk Hcfg Hd [Hcb Hdrain]. split; [|by rewrite Hd].
  intros r' cfg'. rewrite Hcfg. destruct (decide (r = r')) as [<-|Hne].
  - rewrite list_lookup_alter_eq. destruct (configs st !! r) as [cfg|] eqn:Hl; [|done].
    intros [= <-]. destruct (Hk cfg) as (-> & _ & _ & -> & _). by apply (Hcb r).
  - rewrite list_lookup_alter_ne by done. apply Hcb.
Qed.

(** A sweep of [c] over callbacks that defer their work touches [c]
    only. *)
Lemma next_others fuel :
  ∀ c st st' o, wf st → defers code c st →
    next code fuel c st = Some (st', o) → others_untouched c st st'.
Proof.
  induction fuel as [|fuel IH]; [done|].
  intros c st st' o Hwf Hdef. cbn [next].
  destruct (queueOf st c) as [|r rest] eqn:Hq.
  - destruct (_ && _) eqn:Hidle; [|intros [= <- <-]; apply others_untouched_refl].
    apply andb_true_iff in Hidle as [_ Hfn].
    intros H. destruct (call_deferred_inv _ _ _ _ _ _ (proj2 Hdef Hfn) H) as [-> _].
    by intros x _.
  - destruct (requests st !! r) as [q|] eqn:Hr;
      [|intros [= <- <-]; apply others_untouched_refl].
    destruct (consumedOf st c + Config.amount (config q) >? maxOf st c).
    { destruct (Config.amount (config q) >? maxOf st c); intros [= <- <-];
        apply others_untouched_refl. }
    destruct (wf_queue_head st c r rest q Hwf Hq Hr) as (Hcat & _).
    assert (Hcb : deferred code (Config.callback (config q))).
    { apply (proj1 Hdef r); [by apply configs_lookup|done]. }
    set (st1 := log _ (commit c r (config q) st)).
    destruct (call _ _ _ _ _) as [[st2 o2]|] eqn:Hcall; [|done].
    destruct (call_deferred_inv _ _ _ _ _ _ Hcb Hcall) as [-> ->].
    intros H. apply (others_untouched_trans c st st1).
    + intros x Hx. apply (commit_others c r (config q) st x Hx).
    + apply (IH c st1 st' o); [| |done].
      * eapply step_wf; [by eapply step_commit|done].
      * destruct (commit_spec c r (config q) st) as (g & Hcfg & Hk & _ & _ & _ & _ & Hd & _).
        apply (defers_alter g r c st); [done|done| |done].
        unfold defaultsOf, st1. fields. by rewrite Hd.
Qed.

(** X21.  Categories do not disturb each other.  With callbacks that defer
    their work, a [setMax], a submission and a release change the queue, the
    consumed amount and the maximum of their own category only: those of
    every other category are afterwards what they were, whether the
    operation returned or threw. *)
Theorem categories_are_independent fuel st st' o :
  wf st →
  (∀ category amount,
     defers code (resolve category st) st →
     setMax code fuel category amount st = Some (st', o) →
     others_untouched (resolve category st) st st') ∧
  (∀ configIn,
     defers code (enqueue configIn st).1 (enqueue configIn st).2 →
     queue code fuel (Literal configIn) st = Some (st', o) →
     others_untouched (enqueue configIn st).1 st st') ∧
  (∀ r q,
     requests st !! r = Some q → defers code (Config.category (config q)) st →
     release code fuel r st = Some (st', o) →
     others_untouched (Config.category (config q)) st st').
Proof.
  intros Hwf. destruct fuel as [|fuel]; [by split_and!|]. split_and!.
  - intros category amount Hdef. cbn [setMax].
    destruct (0 >=? amount); [intros [= <- <-]; apply others_untouched_refl|].
    rewrite createCategory_eta, createCategory_resolve.
    destruct (createCategory_reads category st (wf_created st Hwf)) as [Hsr _].
    set (st1 := (createCategory category st).2) in *.
    intros H. apply (others_untouched_trans _ st (set_max (resolve category st) amount st1)).
    + intros x Hx. unfold maxOf at 1. fields. rewrite lookup_insert_ne by done.
      split_and!; apply Hsr.
    + eapply next_others; [| |exact H].
      * rewrite <- createCategory_resolve.
        eapply step_wf; [apply (step_setMax category amount st)|done].
      * destruct Hdef as [Hcb Hdrain]. split.
        -- intros r cfg. change (configs (set_max ?c ?a ?s)) with (configs s).
           unfold configs. rewrite (sr_requests _ _ Hsr). apply Hcb.
        -- change (defaultsOf (set_max ?c ?a ?s) ?x) with (defaultsOf s x).
           by rewrite (sr_defaultsOf _ _ Hsr).
  - intros configIn Hdef. cbn [queue]. rewrite sanity_checks_Literal, enqueue_eta.
    cbn [arg_fields]. intros H.
    apply (others_untouched_trans _ st (enqueue configIn st).2).
    + by apply enqueue_others.
    + eapply next_others; [by apply enqueue_wf|done|exact H].
  - intros r q Hr Hdef. cbn [release]. rewrite Hr.
    destruct (Config.released (config q)) eqn:Hrel;
      [intros [= <- <-]; apply others_untouched_refl|].
    intros H. apply (others_untouched_trans _ st (release_update r (config q) st)).
    + apply release_update_others.
    + eapply next_others; [by apply release_update_wf| |exact H].
      destruct (release_update_spec r (config q) st) as (g & Hcfg & Hk & _ & _ & Hd & _).
      apply (defers_alter g r _ st); [done|done| |done].
      unfold defaultsOf. by rewrite Hd.
Qed.

End Releases.

(** * The arguments arrays *)

Lemma enqueue_arrays configIn st :
  arrays (enqueue configIn st).2 = arrays st ∨
  arrays (enqueue configIn st).2 = arrays st ++ [[]].
Proof.
  unfold enqueue.
  rewrite (createCategory_eta (ConfigIn.category configIn) st).
  destruct (ConfigIn.arguments configIn);
    try destruct (Defaults.arguments _); cbv zeta;
    match goal with
    | |- context [if ?u then set_queue _ _ _ else _] => destruct u
    end; cbn [fst snd]; fields; rewrite createCategory_arrays; auto.
Qed.

Lemma step_arrays st st' a old :
  step st st' → arrays st !! a = Some old → ∃ l, arrays st' !! a = Some (l ++ old).
Proof.
  intros Hstep Ha.
  assert (Hsame : ∀ st1, arrays st1 = arrays st → ∃ l, arrays st1 !! a = Some (l ++ old)).
  { intros st1 ->. by exists []. }
  assert (Hunshift : ∀ b v, ∃ l, arrays (unshift_array b v st) !! a = Some (l ++ old)).
  { intros b v. unfold unshift_array. fields.
    destruct (decide (b = a)) as [->|Hne].
    - exists [v]. rewrite list_lookup_insert_eq by (by eapply lookup_lt_Some).
      unfold arrayOf. by rewrite Ha.
    - exists []. by rewrite list_lookup_insert_ne. }
  destruct Hstep; try (by apply Hsame).
  - cbn [arrays log]. rewrite commit_arrays.
    destruct (Config.curryRelease (config q)); [|by exists []].
    apply (Hunshift (Config.arguments (config q)) (VRelease r)).
  - apply Hsame, release_update_arrays.
  - destruct (enqueue_arrays configIn st) as [->| ->]; [by exists []|].
    exists []. by apply lookup_app_l_Some.
  - apply Hsame. cbn [arrays set_max]. apply createCategory_arrays.
  - apply Hsame, createCategory_arrays.
  - apply Hsame. rewrite onDrain_eq. apply createCategory_arrays.
  - apply Hsame. unfold setDefaultCategory. rewrite createCategory_eta.
    apply createCategory_arrays.
  - apply Hsame. unfold setCategoryDefaults. rewrite createCategory_eta.
    apply createCategory_arrays.
  - exists []. cbn [arrays set_arrays]. by apply lookup_app_l_Some.
  - unfold unshiftDebugArguments.
    destruct (requests st !! r) as [q|]; [|by apply Hsame].
    destruct (release_debug q); [|by apply Hsame].
    apply Hunshift.
Qed.

Lemma steps_arrays st st' a old :
  rtc step st st' → arrays st !! a = Some old → ∃ l, arrays st' !! a = Some (l ++ old).
Proof.
  intros Hsteps. revert old. induction Hsteps as [|st1 st2 st3 Hs _ IH]; intros old Ha.
  - by exists [].
  - destruct (step_arrays _ _ _ _ Hs Ha) as [l1 H1].
    destruct (IH _ H1) as [l2 H2]. exists (l2 ++ l1). by rewrite <- app_assoc.
Qed.

Section Arrays.

Variable code : fid → list operation.

(** X22.  Arguments arrays only grow at the front.  Through any operation,
    whatever the callbacks do, an array keeps its place and its elements in
    their order; what the handler adds to it, the release methods it
    curries, comes in front, and nothing is ever taken out again. *)
Theorem arguments_only_grow_at_the_front fuel op args st st' o a old :
  perform code fuel op args st = Some (st', o) →
  arrays st !! a = Some old →
  ∃ l, arrays st' !! a = Some (l ++ old).
Proof. intros H. apply steps_arrays. by eapply perform_steps. Qed.

End Arrays.

(** * The claims on concrete runs *)

Lemma final_wf code fuel ops : wf (final (session code fuel ops initial)).
Proof.
  destruct (session code fuel ops initial) as [[st os]|] eqn:H; simpl.
  - by eapply session_wf.
  - apply initial_wf.
Qed.

Lemma waiting_wf : wf waiting.
Proof. apply final_wf. Qed.

Lemma oversized_wf : wf oversized.
Proof. apply final_wf. Qed.

Lemma shared_wf : wf shared.
Proof. apply final_wf. Qed.


(** C2 as stated fails for amounts that the counters cannot add exactly.
    With the amounts 0.1 and 0.2 and a maximum of 1, both requests are
    started; when both are released the consumed amount is not 0, though
    nothing runs, and the test of line 105 never calls the drain callback
    again.  With a maximum of 2^53, the amounts 2^53 and 1 are both started
    and the consumed amount is 2^53; the release of the first leaves 0,
    while the request of amount 1 runs. *)
Lemma consumed_drifts_from_the_sum :
  let one := Doubles.of_nat 1 in
  let zero := Doubles.of_nat 0 in
  Doubles.exceeds zero tenth one = false ∧
  Doubles.exceeds (Doubles.start zero tenth) fifth one = false ∧
  Doubles.is_zero
    (Doubles.release (Doubles.release (Doubles.start (Doubles.start zero tenth) fifth) tenth)
       fifth) = false ∧
  Doubles.exceeds zero two53 two53 = false ∧
  Doubles.exceeds (Doubles.start zero two53) one two53 = false ∧
  Doubles.start (Doubles.start zero two53) one = two53 ∧
  Doubles.is_zero (Doubles.release (Doubles.start (Doubles.start zero two53) one) two53)
    = true.
Proof. vm_compute. repeat split. Qed.

Lemma consumed_is_sum_of_running_witness :
  ∃ st os,
    session handlers 20
      [SetMax (Some "x") 2; Queue (request "x" 0 1); Queue (request "x" 1 1);
       Queue (request "x" 0 2); Call (VRelease 0)] initial = Some (st, os) ∧
    exact st ∧
    consumedOf st "x" = sumRunning st "x".
Proof.
  set (ops := [SetMax (Some "x") 2; Queue (request "x" 0 1); Queue (request "x" 1 1);
               Queue (request "x" 0 2); Call (VRelease 0)]).
  set (res := session handlers 20 ops initial).
  assert (H : res = Some (final res, outcomes_of res)) by (vm_compute; reflexivity).
  assert (Hx : exact (final res)).
  { assert (E : sumWith (λ cfg, Z.abs (Config.amount cfg)) (configs (final res)) = 4)
      by (vm_compute; reflexivity).
    unfold exact. rewrite E. lia. }
  exists (final res), (outcomes_of res). split; [exact H|]. split; [exact Hx|].
  exact (consumed_is_sum_of_running handlers 20 ops _ _ "x" H Hx).
Defined.

Lemma fifo_order_witness :
  (∃ st os,
     session handlers 20
       [SetMax (Some "x") 1; Queue (request "x" 0 1); Queue (request "x" 0 1);
        Call (VRelease 0)] initial = Some (st, os) ∧
     before 0 1 (started st)) ∧
  (∃ o, next handlers 1 "x" waiting = Some (waiting, o)).
Proof.
  split.
  - set (res := session handlers 20
       [SetMax (Some "x") 1; Queue (request "x" 0 1); Queue (request "x" 0 1);
        Call (VRelease 0)] initial).
    assert (H : res = Some (final res, outcomes_of res)) by (vm_compute; reflexivity).
    assert (Es : started (final res) = [0; 1]%nat) by (vm_compute; reflexivity).
    exists (final res), (outcomes_of res). split; [exact H|].
    apply (proj1 (fifo_order handlers) _ _ _ _ "x" 0%nat 1%nat H).
    + by vm_compute.
    + by vm_compute.
    + lia.
    + rewrite Es, !elem_of_cons. auto.
    + rewrite Es, !elem_of_cons. auto.
  - destruct (requests waiting !! 1%nat) as [q|] eqn:Hq; [|vm_compute in Hq; discriminate].
    assert (Ea : Config.amount (config q) = 1).
    { vm_compute in Hq. injection Hq as <-. reflexivity. }
    assert (Ec : consumedOf waiting "x" = 1) by (vm_compute; reflexivity).
    assert (Em : maxOf waiting "x" = 1) by (vm_compute; reflexivity).
    assert (Hhead : queueOf waiting "x" = [1%nat]) by (vm_compute; reflexivity).
    apply (proj2 (fifo_order handlers) 0%nat waiting "x" 1%nat [] q Hhead Hq).
    rewrite Ea, Ec, Em. lia.
Defined.

Lemma release_idempotent_witness :
  ∃ st,
    release handlers 10 0 waiting = Some (st, Normal) ∧
    consumedOf waiting "x" = 1 ∧ consumedOf st "x" = 1 ∧ started st = [0; 1]%nat ∧
    session handlers 3 (replicate 4 (Call (VRelease 0))) st =
      Some (st, replicate 4 Normal).
Proof.
  assert (H : release handlers 10 0 waiting =
              Some (state_of (release handlers 10 0 waiting), Normal))
    by (vm_compute; reflexivity).
  assert (Hs : is_Some (requests waiting !! 0%nat)).
  { destruct (requests waiting !! 0%nat) eqn:E; [done|vm_compute in E; discriminate]. }
  exists (state_of (release handlers 10 0 waiting)).
  split; [exact H|]. split; [vm_compute; reflexivity|].
  split; [vm_compute; reflexivity|]. split; [vm_compute; reflexivity|].
  exact (release_idempotent handlers 10 0 4 0 waiting _ Normal waiting_wf Hs H).
Defined.

(** C7 as stated fails: a [setMax] with the amount 5 throws the "Invalid
    amount" error.  Its sweep starts request 1, whose callback calls
    [setMax( 0 )]; that error comes out of the outer call after it has set
    the maximum to 5, raised the consumed amount to 2 and emptied the
    queue. *)
Lemma setMax_throws_the_error_of_a_nested_call :
  (λ res, (outcomes_of res, maxOf (final res) "x", consumedOf (final res) "x",
           queueOf (final res) "x")) <$>
    [session throwing 20
       [SetMax (Some "x") 1; Queue (request "x" 0 1); Queue (request "x" 2 1)] initial;
     session throwing 20
       [SetMax (Some "x") 1; Queue (request "x" 0 1); Queue (request "x" 2 1);
        SetMax (Some "x") 5] initial] =
  [([Normal; Normal; Normal], 1, 1, [1%nat]);
   ([Normal; Normal; Normal; Throw (InvalidAmount 0)], 5, 2, [])].
Proof. vm_compute. reflexivity. Qed.

Lemma setMax_invalid_amount_witness :
  setMax handlers 1 (Some "x") 0 waiting = Some (waiting, Throw (InvalidAmount 0)) ∧
  (-1) ≤ 0 ∧
  setMax handlers 2 (Some "x") 1 waiting =
    next handlers 1 (createCategory (Some "x") waiting).1
      (set_max (createCategory (Some "x") waiting).1 1
         (createCategory (Some "x") waiting).2).
Proof.
  split_and!.
  - apply (proj1 (setMax_invalid_amount handlers 0 (Some "x") 0 waiting)). lia.
  - apply (proj1 (proj2 (setMax_invalid_amount handlers 1 None (-1) initial)) initial (-1)).
    reflexivity.
  - apply (proj2 (proj2 (setMax_invalid_amount handlers 1 (Some "x") 1 waiting))). lia.
Defined.

(** C1 as stated fails: the request that asks for 5 of a maximum of 3 makes
    its own submission throw, and the release of request 0, a bystander,
    throw again. *)
Lemma admission_error_thrown_again :
  snd <$> session handlers 20
            [SetMax (Some "z") 3; Queue (request "z" 0 1); Queue (request "z" 0 5);
             Call (VRelease 0)] initial =
  Some [Normal; Normal; Throw (RuntimeError "z" 5 3); Throw (RuntimeError "z" 5 3)].
Proof. vm_compute. reflexivity. Qed.

Lemma oversized_head_throws_in_every_sweep_witness :
  next handlers 1 "z" oversized = Some (oversized, Throw (RuntimeError "z" 5 3)) ∧
  ∃ st, release handlers 2 0 oversized = Some (st, Throw (RuntimeError "z" 5 3)) ∧
        queueOf st "z" = [1%nat].
Proof.
  destruct (requests oversized !! 1%nat) as [q|] eqn:Hq; [|vm_compute in Hq; discriminate].
  destruct (requests oversized !! 0%nat) as [q0|] eqn:Hq0; [|vm_compute in Hq0; discriminate].
  assert (Ea : Config.amount (config q) = 5).
  { vm_compute in Hq. injection Hq as <-. reflexivity. }
  assert (E0 : Config.category (config q0) = "z" ∧ Config.inQueue (config q0) = false ∧
               Config.released (config q0) = false ∧ Config.amount (config q0) = 1).
  { vm_compute in Hq0. injection Hq0 as <-. repeat split. }
  destruct E0 as (E0c & E0i & E0r & E0a).
  assert (Hhead : queueOf oversized "z" = [1%nat]) by (vm_compute; reflexivity).
  assert (Em : maxOf oversized "z" = 3) by (vm_compute; reflexivity).
  assert (Ec : consumedOf oversized "z" = 1) by (vm_compute; reflexivity).
  destruct (oversized_head_throws_in_every_sweep handlers 0 oversized "z" 1%nat [] q
              Hhead Hq) as [H1 H2].
  { rewrite Ea, Em. lia. }
  split.
  - rewrite Ea, Em in H1. apply H1. rewrite Ec. lia.
  - assert (Hne : 0%nat ≠ 1%nat) by lia.
    destruct (H2 0%nat q0 Hne Hq0 E0c E0i E0r) as [H3 H4].
    { rewrite Ec, E0a, Ea, Em. lia. }
    rewrite Ea, Em in H3. eexists. split; [exact H3|exact H4].
Defined.

(** C9 as stated fails for [undefined] (and [null]): reading [.callback]
    for the second check throws, and nothing is put on the queue. *)
Lemma sanity_checks_throw_on_undefined :
  sanity_checks (Other PUndefined) = Throw TypeError ∧
  queue handlers 5 (Other PUndefined) initial = Some (initial, Throw TypeError).
Proof. by split. Qed.

Lemma sanity_checks_pass_witness :
  sanity_checks (Other (PNum 5)) = Normal ∧
  queue handlers 5 (Literal ConfigIn.empty) waiting =
    next handlers 4 (enqueue ConfigIn.empty waiting).1 (enqueue ConfigIn.empty waiting).2 ∧
  2%nat ∈ queueOf (enqueue ConfigIn.empty waiting).2 (enqueue ConfigIn.empty waiting).1.
Proof.
  destruct (proj2 (sanity_checks_pass handlers (Other (PNum 5)))
              ltac:(done) ltac:(done)) as [H1 _].
  destruct (proj2 (sanity_checks_pass handlers (Literal ConfigIn.empty))
              ltac:(done) ltac:(done)) as [_ H2].
  destruct (H2 4%nat waiting) as [H3 H4].
  assert (El : length (requests waiting) = 2%nat) by (vm_compute; reflexivity).
  split; [exact H1|]. split; [exact H3|].
  rewrite <- El. apply H4, waiting_wf.
Defined.

Lemma curried_release_stays_in_arguments_witness :
  (arrays (enqueue (arg_fields (request "x" 0 1)) shared).2 = arrays shared ∧
   ∃ q, requests (enqueue (arg_fields (request "x" 0 1)) shared).2 !! 0%nat = Some q ∧
        Config.arguments (config q) = 0%nat) ∧
  (∃ st1,
     arrayOf st1 0 = [VRelease 0; VStr "a"] ∧
     next handlers 3 "x" (enqueue (arg_fields (request "x" 0 1)) shared).2 =
       match call handlers 2 (VFunction 0) [VRelease 0; VStr "a"] st1 with
       | Some (st2, Normal) => next handlers 2 "x" st2
       | other => other
       end) ∧
  events (final (session handlers 20
                   (shared_ops ++ [Queue (request "x" 0 1); Queue (request "x" 0 1)])
                   initial)) =
    [Invoked 0 (VFunction 0) (VNewObject 0) [VRelease 0; VStr "a"];
     Invoked 1 (VFunction 0) (VNewObject 1) [VRelease 1; VRelease 0; VStr "a"]].
Proof.
  split; [|split].
  - assert (El : length (requests shared) = 0%nat) by (vm_compute; reflexivity).
    rewrite <- El.
    apply (proj1 (curried_release_stays_in_arguments handlers) shared
             (arg_fields (request "x" 0 1)) "x" 0%nat).
    + apply shared_wf.
    + reflexivity.
    + vm_compute. reflexivity.
    + intros a'. discriminate.
  - set (st := (enqueue (arg_fields (request "x" 0 1)) shared).2).
    destruct (requests st !! 0%nat) as [q|] eqn:Hq; [|vm_compute in Hq; discriminate].
    assert (Eq : Config.arguments (config q) = 0%nat ∧
                 Config.callback (config q) = VFunction 0 ∧
                 Config.curryRelease (config q) = true ∧
                 Config.amount (config q) = 1).
    { vm_compute in Hq. injection Hq as <-. repeat split. }
    destruct Eq as (Earg & Ecb & Ecurry & Ea).
    assert (Hhead : queueOf st "x" = [0%nat]) by (vm_compute; reflexivity).
    assert (Earr : arrayOf st 0 = [VStr "a"]) by (vm_compute; reflexivity).
    assert (Elen : (0 < length (arrays st))%nat) by (vm_compute; lia).
    assert (Ec : consumedOf st "x" = 0) by (vm_compute; reflexivity).
    assert (Em : maxOf st "x" = 2) by (vm_compute; reflexivity).
    destruct (proj2 (curried_release_stays_in_arguments handlers) 2%nat st "x" 0%nat [] q
                Hhead Hq) as [H1 H2].
    + rewrite Ec, Ea, Em. lia.
    + exact Ecurry.
    + rewrite Earg. exact Elen.
    + rewrite Earg, Earr, Ecb in H1. rewrite Earg, Earr, Ecb in H2.
      eexists. split; [exact H1|exact H2].
  - vm_compute. reflexivity.
Defined.

(** C5 as stated fails.  A category that is idle all along has its drain
    callback called by each [setMax]; and one request that is released
    before its callback returns has it called twice. *)
Lemma drain_called_without_transition :
  events (final (session handlers 20
                   [OnDrain (Some "d") (VFunction 0); SetMax (Some "d") 1;
                    SetMax (Some "d") 2] initial)) =
    [Drained "d" (VFunction 0); Drained "d" (VFunction 0)] ∧
  events (final (session handlers 20
                   [OnDrain (Some "d") (VFunction 0); Queue (request "d" 1 1)]
                   initial)) =
    [Invoked 0 (VFunction 1) (VNewObject 0) [VRelease 0];
     Drained "d" (VFunction 0); Drained "d" (VFunction 0)].
Proof. split; vm_compute; reflexivity. Qed.

Lemma drain_called_by_every_idle_sweep_witness :
  next handlers 3 "d" idle =
    call handlers 2 (VFunction 0) [VStr "d"] (log (Drained "d" (VFunction 0)) idle) ∧
  next handlers 3 "x" (meddled []) = Some (meddled [], Normal) ∧
  rtc (λ s s', step s s' ∧ drains_when_idle s s') shared
    (state_of (perform handlers 5 (OnDrain (Some "x") (VFunction 0)) [] shared)).
Proof.
  destruct (drain_called_by_every_idle_sweep handlers) as [H1 H2]. split_and!.
  - assert (Hq : queueOf idle "d" = []) by (vm_compute; reflexivity).
    assert (Efn : Defaults.onDrain (defaultsOf idle "d") = VFunction 0)
      by (vm_compute; reflexivity).
    assert (Ec : consumedOf idle "d" = 0) by (vm_compute; reflexivity).
    destruct (H1 2%nat idle "d" Hq) as [H _]. rewrite Efn in H.
    apply H; [exact Ec|reflexivity].
  - assert (Hq : queueOf (meddled []) "x" = []) by (vm_compute; reflexivity).
    assert (Ec : consumedOf (meddled []) "x" = 1) by (vm_compute; reflexivity).
    destruct (H1 2%nat (meddled []) "x" Hq) as [_ H].
    apply H. rewrite Ec. lia.
  - assert (H : perform handlers 5 (OnDrain (Some "x") (VFunction 0)) [] shared =
                Some (state_of (perform handlers 5 (OnDrain (Some "x") (VFunction 0)) []
                                  shared), Normal))
      by (vm_compute; reflexivity).
    exact (H2 _ _ _ _ _ _ shared_wf H).
Defined.

(** C8 fails on the code.  [duplicateDebugData] copies the attributes of the
    request one by one, so [release.debug.arguments] is the array the sweep
    will pass to the callback.  A caller that puts the release method of the
    waiting request 1 in front of that array makes the callback of request 1
    release it at once: the callback is called with other arguments and the
    consumed amount ends at 0 instead of 1. *)
Theorem debug_arguments_are_shared :
  (Config.arguments <$> (requests (meddled []) !! 1%nat ≫= release_debug)) =
    (Config.arguments ∘ config <$> requests (meddled []) !! 1%nat) ∧
  last (events (meddled [])) =
    Some (Invoked 1 (VFunction 1) (VNewObject 1) [VFunction 0]) ∧
  last (events (meddled [UnshiftDebugArguments 1 (VRelease 1)])) =
    Some (Invoked 1 (VFunction 1) (VNewObject 1) [VRelease 1; VFunction 0]) ∧
  consumedOf (meddled []) "x" = 1 ∧
  consumedOf (meddled [UnshiftDebugArguments 1 (VRelease 1)]) "x" = 0.
Proof. split_and!; vm_compute; reflexivity. Qed.



(** * More of the handler on concrete runs *)

Lemma final_history code fuel ops : history (final (session code fuel ops initial)).
Proof.
  destruct (session code fuel ops initial) as [[st os]|] eqn:H; simpl.
  - by eapply session_history.
  - apply initial_history.
Qed.

Lemma unstarted_wf : wf unstarted.
Proof. apply enqueue_wf, initial_wf. Qed.

Lemma roomy_wf : wf roomy.
Proof. apply final_wf. Qed.


Lemma createCategory_existing_witness :
  createCategory (Some "d") idle = ("d", idle).
Proof.
  apply (proj1 (createCategory_existing (Some "d") idle)).
  - vm_compute. eexists. reflexivity.
  - vm_compute. eexists. reflexivity.
Defined.

Lemma createCategory_fresh_witness :
  defaults idle !! "n" = None ∧
  (getMax (Some "n") idle).1 = 1 ∧ (getFree (Some "n") idle).1 = 1.
Proof.
  assert (H : defaults idle !! "n" = None) by (vm_compute; reflexivity).
  assert (Hn : inherited "n" = false) by (vm_compute; reflexivity).
  split; [exact H|].
  destruct (createCategory_fresh "n" idle Hn H) as (_ & _ & _ & _ & _ & _ & Hm & _ & Hf).
  split; [exact Hm|exact Hf].
Defined.

Lemma onDrain_replaces_witness :
  onDrain (Some "d") (VFunction 1) idle =
    onDrain (Some "d") (VFunction 1) (onDrain (Some "d") (VFunction 0) initial) ∧
  onDrain (Some "d") (VFunction 1) (onDrain (Some "d") (VFunction 0) initial) =
    onDrain (Some "d") (VFunction 1) initial ∧
  onDrain (Some "d") VUndefined idle = onDrain None (VStr "d") idle.
Proof.
  assert (H0 : VFunction 0 ≠ VUndefined) by discriminate.
  assert (H1 : VFunction 1 ≠ VUndefined) by discriminate.
  split; [vm_compute; reflexivity|]. split.
  - exact (proj1 (proj2 (onDrain_replaces (Some "d") (VFunction 0) (VFunction 1) initial
                           H0 H1))).
  - exact (proj1 (proj2 (proj2 (proj2 (onDrain_replaces (Some "d") (VFunction 0)
                                         (VFunction 1) idle H0 H1))) "d")).
Defined.

Lemma setCategoryDefaults_merges_witness :
  defaultsOf
    (setCategoryDefaults (Some "x")
       (NewDefaults.mk (Some 2) None None None None None None) shared) "y" =
  defaultsOf shared "y".
Proof.
  apply (proj1 (proj2 (setCategoryDefaults_merges (Some "x")
                         (NewDefaults.mk (Some 2) None None None None None None) shared))).
  vm_compute. discriminate.
Defined.

Lemma queue_fills_in_defaults_witness :
  ∃ q, requests (enqueue (arg_fields debugged) shared).2 !! length (requests shared) = Some q ∧
       Config.arguments (config q) = 0%nat ∧
       arrays (enqueue (arg_fields debugged) shared).2 = arrays shared.
Proof.
  destruct (queue_fills_in_defaults (arg_fields debugged) shared)
    as (_ & _ & q & Hq & _ & _ & _ & _ & _ & _ & _ & _ & _ & _ & Harr & _).
  exists q. split; [exact Hq|]. apply (Harr 0%nat). reflexivity.
Defined.

Lemma run_counts_are_numbers_of_starts_witness :
  ∃ st os,
    session handlers 20 busy_ops initial = Some (st, os) ∧
    globalRunCount st = length (started st) ∧ NoDup (started st).
Proof.
  set (res := session handlers 20 busy_ops initial).
  assert (H : res = Some (final res, outcomes_of res)) by (vm_compute; reflexivity).
  exists (final res), (outcomes_of res). split; [exact H|].
  destruct (run_counts_are_numbers_of_starts handlers 20 busy_ops _ _ H)
    as (Hg & _ & Hn & _).
  split; [exact Hg|exact Hn].
Defined.

Lemma debug_run_indices_are_positions_witness :
  ∃ st os cfg,
    session handlers 20
      [SetMax (Some "x") 1; NewArray [VFunction 0]; Queue (request "x" 0 1);
       Queue debugged; Call (VRelease 0)] initial = Some (st, os) ∧
    configs st !! 1%nat = Some cfg ∧
    ∃ i k,
      Config.globalRunIndex cfg = Some i ∧ started st !! i = Some 1%nat ∧
      Config.categoryRunIndex cfg = Some k ∧
      filter (λ r, in_category (configs st) (Config.category cfg) r) (started st) !! k
        = Some 1%nat.
Proof.
  set (ops := [SetMax (Some "x") 1; NewArray [VFunction 0]; Queue (request "x" 0 1);
               Queue debugged; Call (VRelease 0)]).
  set (res := session handlers 20 ops initial).
  assert (H : res = Some (final res, outcomes_of res)) by (vm_compute; reflexivity).
  destruct (configs (final res) !! 1%nat) as [cfg|] eqn:Hl; [|vm_compute in Hl; discriminate].
  assert (E : Config.debug cfg = true ∧ Config.inQueue cfg = false).
  { vm_compute in Hl. injection Hl as <-. split; reflexivity. }
  destruct E as [Ed Ei].
  exists (final res), (outcomes_of res), cfg. split; [exact H|]. split; [exact Hl|].
  pose proof (debug_run_indices_are_positions handlers 20 ops _ _ 1%nat cfg H Hl Ed) as Hi.
  rewrite Ei in Hi. exact Hi.
Defined.

Lemma debug_copy_is_up_to_date_witness :
  ∃ st os q,
    session handlers 20
      [SetMax (Some "x") 1; NewArray [VFunction 0]; Queue (request "x" 0 1);
       Queue debugged; Tick; Call (VRelease 0); Tick; Call (VRelease 1)] initial
      = Some (st, os) ∧
    requests st !! 1%nat = Some q ∧ release_debug q = Some (config q).
Proof.
  set (ops := [SetMax (Some "x") 1; NewArray [VFunction 0]; Queue (request "x" 0 1);
               Queue debugged; Tick; Call (VRelease 0); Tick; Call (VRelease 1)]).
  set (res := session handlers 20 ops initial).
  assert (H : res = Some (final res, outcomes_of res)) by (vm_compute; reflexivity).
  destruct (requests (final res) !! 1%nat) as [q|] eqn:Hq; [|vm_compute in Hq; discriminate].
  assert (Ed : Config.debug (config q) = true).
  { vm_compute in Hq. injection Hq as <-. reflexivity. }
  exists (final res), (outcomes_of res), q. split; [exact H|]. split; [exact Hq|].
  pose proof (debug_copy_is_up_to_date handlers 20 ops _ _ 1%nat q H Hq) as Hc.
  rewrite Ed in Hc. exact Hc.
Defined.

Lemma request_only_moves_forward_witness :
  ∃ st' cfg,
    perform handlers 20 (Call (VRelease 0)) [] waiting = Some (st', Normal) ∧
    configs waiting !! 1%nat = Some cfg ∧
    (∃ cfg', configs st' !! 1%nat = Some cfg' ∧ evolves cfg cfg') ∧
    started waiting `prefix_of` started st'.
Proof.
  set (res := perform handlers 20 (Call (VRelease 0)) [] waiting).
  assert (H : res = Some (state_of res, Normal)) by (vm_compute; reflexivity).
  destruct (configs waiting !! 1%nat) as [cfg|] eqn:Hl; [|vm_compute in Hl; discriminate].
  exists (state_of res), cfg. split; [exact H|]. split; [reflexivity|].
  exact (request_only_moves_forward handlers 20 (Call (VRelease 0)) [] waiting _ Normal
           1%nat cfg waiting_wf H Hl).
Defined.

Lemma release_while_queued_cancels_witness :
  ∃ st1 st2 os,
    release handlers 20 1 waiting = Some (st1, Normal) ∧
    session handlers 20 [Call (VRelease 0); SetMax (Some "x") 5] st1 = Some (st2, os) ∧
    (1%nat ∉ started st2) ∧ (∀ x, 1%nat ∉ queueOf st2 x).
Proof.
  set (res1 := release handlers 20 1 waiting).
  assert (H1 : res1 = Some (state_of res1, Normal)) by (vm_compute; reflexivity).
  set (res2 := session handlers 20 [Call (VRelease 0); SetMax (Some "x") 5] (state_of res1)).
  assert (H2 : res2 = Some (final res2, outcomes_of res2)) by (vm_compute; reflexivity).
  destruct (requests waiting !! 1%nat) as [q|] eqn:Hq; [|vm_compute in Hq; discriminate].
  assert (E : Config.inQueue (config q) = true ∧ Config.released (config q) = false).
  { vm_compute in Hq. injection Hq as <-. split; reflexivity. }
  destruct E as [Ei Er].
  exists (state_of res1), (final res2), (outcomes_of res2).
  split; [exact H1|]. split; [exact H2|].
  destruct (release_while_queued_cancels handlers 20 20 _ 1%nat q waiting _ Normal _ _
              waiting_wf (final_history handlers _ _) Hq Ei Er H1 H2)
    as (_ & _ & Hs & Hqs).
  split; [exact Hs|exact Hqs].
Defined.

Lemma uncallable_callback_consumes_witness :
  ∃ st',
    next handlers 2 "u" unstarted = Some (st', Throw TypeError) ∧
    queueOf st' "u" = [] ∧ consumedOf st' "u" = 1 ∧ started st' = [0%nat].
Proof.
  destruct (requests unstarted !! 0%nat) as [q|] eqn:Hq; [|vm_compute in Hq; discriminate].
  assert (E : Config.amount (config q) = 1 ∧ Config.callback (config q) = VUndefined).
  { vm_compute in Hq. injection Hq as <-. split; reflexivity. }
  destruct E as [Ea Ecb].
  assert (Hhead : queueOf unstarted "u" = [0%nat]) by (vm_compute; reflexivity).
  assert (Ec : consumedOf unstarted "u" = 0) by (vm_compute; reflexivity).
  assert (Em : maxOf unstarted "u" = 1) by (vm_compute; reflexivity).
  assert (Es : started unstarted = []) by (vm_compute; reflexivity).
  destruct (uncallable_callback_consumes handlers 0 unstarted "u" 0%nat [] q
              unstarted_wf Hhead Hq) as (st' & H1 & H2 & H3 & _ & H5).
  { rewrite Ea, Ec, Em. lia. }
  { rewrite Ecb. reflexivity. }
  exists st'. split; [exact H1|]. split; [exact H2|].
  rewrite Ea, Ec in H3. rewrite Es in H5. split; [exact H3|exact H5].
Defined.

Lemma normal_return_leaves_nothing_startable_witness :
  ∃ st' os,
    session handlers 20 busy_ops initial = Some (st', os) ∧
    Forall (λ o, o = Normal) os ∧
    queueOf st' "y" = [] ∧ startable st' "y" = false.
Proof.
  set (res := session handlers 20 busy_ops initial).
  assert (H : res = Some (final res, outcomes_of res)) by (vm_compute; reflexivity).
  assert (Eo : outcomes_of res = replicate 6 Normal) by (vm_compute; reflexivity).
  assert (Hn : Forall (λ o, o = Normal) (outcomes_of res)).
  { rewrite Eo. repeat constructor. }
  exists (final res), (outcomes_of res). split; [exact H|]. split; [exact Hn|].
  split; [vm_compute; reflexivity|].
  exact (normal_return_leaves_nothing_startable handlers 20 busy_ops initial _ _
           initial_wf initial_settled H Hn "y").
Defined.


Lemma pushed_request_waits_behind_head_witness :
  queue handlers 2 (Literal (plain "x" 0 0)) waiting =
    Some ((enqueue (plain "x" 0 0) waiting).2, Normal) ∧
  queueOf (enqueue (plain "x" 0 0) waiting).2 "x" = [1; 2]%nat ∧
  started (enqueue (plain "x" 0 0) waiting).2 = started waiting.
Proof.
  destruct (requests waiting !! 1%nat) as [q|] eqn:Hq; [|vm_compute in Hq; discriminate].
  assert (Ea : Config.amount (config q) = 1).
  { vm_compute in Hq. injection Hq as <-. reflexivity. }
  assert (Hhead : queueOf waiting (enqueue (plain "x" 0 0) waiting).1 = [1%nat])
    by (vm_compute; reflexivity).
  assert (Ec : consumedOf waiting (enqueue (plain "x" 0 0) waiting).1 = 1)
    by (vm_compute; reflexivity).
  assert (Em : maxOf waiting (enqueue (plain "x" 0 0) waiting).1 = 1)
    by (vm_compute; reflexivity).
  assert (Ex : (enqueue (plain "x" 0 0) waiting).1 = "x") by (vm_compute; reflexivity).
  assert (El : length (requests waiting) = 2%nat) by (vm_compute; reflexivity).
  destruct (pushed_request_waits_behind_head handlers 0 (plain "x" 0 0) waiting 1%nat [] q
              waiting_wf Hhead Hq) as (o & H1 & H2 & H3 & H4).
  { rewrite Ea, Ec, Em. lia. }
  { vm_compute. reflexivity. }
  assert (Eo : o = Normal).
  { apply H4. rewrite Ea, Em. lia. }
  rewrite Eo in H1. rewrite Ex, El in H2.
  split; [exact H1|]. split; [exact H2|exact H3].
Defined.




Lemma queue_holds_the_waiting_witness :
  ∃ st os cfg,
    session handlers 20
      [SetMax (Some "y") 1; Queue (request "y" 0 1); Queue (request "y" 0 1);
       Queue (request "y" 0 1)] initial = Some (st, os) ∧
    configs st !! 2%nat = Some cfg ∧
    2%nat ∈ queueOf st "y" ∧ is_Some (getIndex st 2).
Proof.
  set (ops := [SetMax (Some "y") 1; Queue (request "y" 0 1); Queue (request "y" 0 1);
               Queue (request "y" 0 1)]).
  set (res := session handlers 20 ops initial).
  assert (H : res = Some (final res, outcomes_of res)) by (vm_compute; reflexivity).
  destruct (configs (final res) !! 2%nat) as [cfg|] eqn:Hl; [|vm_compute in Hl; discriminate].
  assert (E : Config.category cfg = "y" ∧ Config.inQueue cfg = true ∧
              Config.released cfg = false).
  { vm_compute in Hl. injection Hl as <-. repeat split. }
  exists (final res), (outcomes_of res), cfg. split; [exact H|]. split; [exact Hl|].
  destruct (queue_holds_the_waiting handlers 20 ops _ _ 2%nat cfg H Hl) as (H1 & _ & H2).
  split.
  - apply (proj2 (H1 "y")). exact E.
  - apply (proj2 H2). exact (proj2 E).
Defined.


Lemma categories_are_independent_witness :
  ∃ st' o,
    setMax handlers 20 (Some "x") 5 roomy = Some (st', o) ∧
    others_untouched "x" roomy st'.
Proof.
  set (res := setMax handlers 20 (Some "x") 5 roomy).
  assert (H : res = Some (state_of res, outcome_of res)) by (vm_compute; reflexivity).
  assert (Ed : Defaults.onDrain (defaultsOf roomy "x") = VNull) by (vm_compute; reflexivity).
  assert (Hdef : defers handlers (resolve (Some "x") roomy) roomy).
  { split.
    - intros r cfg Hl _. destruct r as [|[|r]].
      + vm_compute in Hl. injection Hl as <-. exists 0%nat. split; reflexivity.
      + vm_compute in Hl. injection Hl as <-. exists 0%nat. split; reflexivity.
      + vm_compute in Hl. discriminate Hl.
    - cbn [resolve]. rewrite Ed. intros Hf. discriminate Hf. }
  exists (state_of res), (outcome_of res). split; [exact H|].
  exact (proj1 (categories_are_independent handlers 20 roomy _ _ roomy_wf)
           (Some "x") 5 Hdef H).
Defined.

Lemma arguments_only_grow_at_the_front_witness :
  ∃ st' l,
    perform handlers 20 (Queue (request "x" 0 1)) [] shared = Some (st', Normal) ∧
    arrays shared !! 0%nat = Some [VStr "a"] ∧
    arrays st' !! 0%nat = Some (l ++ [VStr "a"]).
Proof.
  set (res := perform handlers 20 (Queue (request "x" 0 1)) [] shared).
  assert (H : res = Some (state_of res, Normal)) by (vm_compute; reflexivity).
  assert (Ha : arrays shared !! 0%nat = Some [VStr "a"]) by (vm_compute; reflexivity).
  destruct (arguments_only_grow_at_the_front handlers 20 (Queue (request "x" 0 1)) []
              shared _ Normal 0%nat [VStr "a"] H Ha) as [l Hl].
  exists (state_of res), l. split; [exact H|]. split; [exact Ha|exact Hl].
Defined.
